(** * cloud-memstore-proxy: the RESP codec, the redirect rewriter, the
    cluster-node parser and the proxy manager, embedded from the Go sources

    Go strings and byte slices are byte sequences: they are [string] here
    (a list of 8-bit [ascii] characters).  Go's [int] is the 64-bit one of
    the platforms the proxy is built for; integers are [Z] and the range
    checks of [strconv] are written out. *)

From Stdlib Require Import ZArith Ascii DecimalString DecimalPos.
From stdpp Require Import base option list gmap strings.

(** ** Bytes the wire format names *)

Definition CR : ascii := "013"%char.
Definition LF : ascii := "010"%char.
Definition CRLF : string := String CR (String LF EmptyString).

Definition byte_val (c : ascii) : Z := Z.of_N (N_of_ascii c).

Definition str_of_codes (l : list N) : string :=
  foldr (fun n s => String (ascii_of_N n) s) EmptyString l.

(** ** Package strconv *)

Module strconv.

Definition MaxInt64 : Z := 9223372036854775807.
Definition MinInt64 : Z := -9223372036854775808.

Definition digit_of (c : ascii) : option Z :=
  let n := byte_val c in
  if ((48 <=? n) && (n <=? 57))%Z then Some (n - 48)%Z else None.

(** The digit loop of [ParseUint] in base 10: every byte must be a decimal
    digit (an underscore is accepted by Go only when the base is 0). *)
Fixpoint parse_digits (s : string) (acc : Z) : option Z :=
  match s with
  | EmptyString => Some acc
  | String c s' =>
      match digit_of c with
      | Some d => parse_digits s' (acc * 10 + d)%Z
      | None => None
      end
  end.

(** [strconv.ParseInt(s, 10, 64)]: [None] stands for a non-nil error
    (syntax or range; the callers only test [err != nil]). *)
Definition ParseInt (s : string) : option Z :=
  match s with
  | EmptyString => None
  | String c rest =>
      let neg := Ascii.eqb c "-" in
      let body := if Ascii.eqb c "+" || neg then rest else s in
      match body with
      | EmptyString => None
      | _ =>
          match parse_digits body 0 with
          | None => None
          | Some un =>
              if neg
              then if (un <=? - MinInt64)%Z then Some (- un)%Z else None
              else if (un <=? MaxInt64)%Z then Some un else None
          end
      end
  end.

(** [strconv.Atoi]: [ParseInt(s, 10, 0)] with [int] of 64 bits. *)
Definition Atoi (s : string) : option Z := ParseInt s.

(** [strconv.FormatInt(i, 10)]: a minus sign for negatives, then the
    decimal digits without leading zeros. *)
Definition FormatInt (i : Z) : string := NilEmpty.string_of_int (Z.to_int i).

Definition Itoa (i : Z) : string := FormatInt i.

End strconv.

(** ** Package strings (and the part of fmt the parsers use) *)

Module strings.

(** [s[:n]] and [s[n:]] for [0 <= n <= len(s)]. *)
Definition slice_to (n : nat) (s : string) : string := String.substring 0 n s.
Fixpoint slice_from (n : nat) (s : string) : string :=
  match n, s with
  | O, _ => s
  | S n', String _ s' => slice_from n' s'
  | S _, EmptyString => EmptyString
  end.

Definition HasPrefix (s pre : string) : bool :=
  (String.length pre <=? String.length s)
  && String.eqb (slice_to (String.length pre) s) pre.

(** [strings.Index]: the byte index of the first occurrence, or -1. *)
Fixpoint Index_from (i : Z) (s substr : string) : Z :=
  if HasPrefix s substr then i
  else match s with
       | EmptyString => (-1)%Z
       | String _ s' => Index_from (i + 1)%Z s' substr
       end.
Definition Index (s substr : string) : Z := Index_from 0 s substr.

Definition Contains (s substr : string) : bool := (0 <=? Index s substr)%Z.

(** [strings.LastIndex]: the byte index of the last occurrence, or -1. *)
Fixpoint LastIndex_from (i : Z) (s substr : string) : Z :=
  match s with
  | EmptyString => if HasPrefix s substr then i else (-1)%Z
  | String _ s' =>
      let later := LastIndex_from (i + 1)%Z s' substr in
      if (0 <=? later)%Z then later
      else if HasPrefix s substr then i else (-1)%Z
  end.
Definition LastIndex (s substr : string) : Z := LastIndex_from 0 s substr.

(** [strings.Split(s, sep)] for a separator of one byte, which is what both
    call sites pass (a line feed and a colon): one more piece than there
    are separators, the empty string giving one empty piece. *)
Fixpoint Split (s : string) (sep : ascii) : list string :=
  match s with
  | EmptyString => [EmptyString]
  | String c s' =>
      if Ascii.eqb c sep then EmptyString :: Split s' sep
      else match Split s' sep with
           | piece :: pieces => String c piece :: pieces
           | [] => [String c EmptyString]
           end
  end.

(** White space as [unicode.IsSpace] sees it in a UTF-8 string: the width
    in bytes of the space rune encoded at the head of [s], 0 when there is
    none.  The ASCII ones are tab, LF, VT, FF, CR and space; the others are
    U+0085, U+00A0, U+1680, U+2000..U+200A, U+2028, U+2029, U+202F, U+205F
    and U+3000.  A lead byte is never swallowed as the continuation of an
    earlier rune, so a byte-wise scan meets the same runes as Go's
    decoder. *)
Definition space_width (s : string) : nat :=
  match s with
  | EmptyString => 0
  | String c0 s1 =>
      let b0 := byte_val c0 in
      if ((9 <=? b0) && (b0 <=? 13) || (b0 =? 32))%Z then 1
      else match s1 with
      | EmptyString => 0
      | String c1 s2 =>
          let b1 := byte_val c1 in
          if ((b0 =? 194) && ((b1 =? 133) || (b1 =? 160)))%Z then 2
          else match s2 with
          | EmptyString => 0
          | String c2 _ =>
              let b2 := byte_val c2 in
              if ((b0 =? 225) && (b1 =? 154) && (b2 =? 128)
                  || (b0 =? 226) && (b1 =? 128)
                     && ((128 <=? b2) && (b2 <=? 138)
                         || (b2 =? 168) || (b2 =? 169) || (b2 =? 175))
                  || (b0 =? 226) && (b1 =? 129) && (b2 =? 159)
                  || (b0 =? 227) && (b1 =? 128) && (b2 =? 128))%Z
              then 3 else 0
          end
      end
  end.

Definition cons_field (w : string) (fs : list string) : list string :=
  match w with
  | EmptyString => fs
  | _ => w :: fs
  end.

(** The scan behind [strings.Fields]: [skip] counts the bytes of a space
    rune still to pass; the result is the field being read at the head of
    the input and the fields after it. *)
Fixpoint scan_fields (skip : nat) (s : string) : string * list string :=
  match s with
  | EmptyString => (EmptyString, [])
  | String c s' =>
      match skip with
      | S k =>
          let '(w, fs) := scan_fields k s' in (EmptyString, cons_field w fs)
      | O =>
          match space_width s with
          | O => let '(w, fs) := scan_fields 0 s' in (String c w, fs)
          | S k =>
              let '(w, fs) := scan_fields k s' in
              (EmptyString, cons_field w fs)
          end
      end
  end.

(** [strings.Fields]: the maximal runs of bytes outside white space. *)
Definition Fields (s : string) : list string :=
  let '(w, fs) := scan_fields 0 s in cons_field w fs.

Fixpoint trim_left (skip : nat) (s : string) : string :=
  match s with
  | EmptyString => EmptyString
  | String _ s' =>
      match skip with
      | S k => trim_left k s'
      | O =>
          match space_width s with
          | O => s
          | S k => trim_left k s'
          end
      end
  end.

(** The width of the space rune that ends the string whose bytes, last one
    first, are [r] (Go decodes the last rune from its lead byte). *)
Definition space_width_rev (r : string) : nat :=
  match r with
  | EmptyString => 0
  | String c0 r1 =>
      if Nat.eqb (space_width (String c0 EmptyString)) 1 then 1
      else match r1 with
      | EmptyString => 0
      | String c1 r2 =>
          if Nat.eqb (space_width (String c1 (String c0 EmptyString))) 2
          then 2
          else match r2 with
          | EmptyString => 0
          | String c2 _ =>
              if Nat.eqb
                   (space_width (String c2 (String c1 (String c0 EmptyString))))
                   3
              then 3 else 0
          end
      end
  end.

Fixpoint trim_left_rev (skip : nat) (r : string) : string :=
  match r with
  | EmptyString => EmptyString
  | String _ r' =>
      match skip with
      | S k => trim_left_rev k r'
      | O =>
          match space_width_rev r with
          | O => r
          | S k => trim_left_rev k r'
          end
      end
  end.

(** [strings.TrimSpace]: white space runes removed at both ends. *)
Definition TrimSpace (s : string) : string :=
  String.rev (trim_left_rev 0 (String.rev (trim_left 0 s))).

(** [fmt.Sscanf(s, "%d", &n)] on a string without leading white space:
    an optional sign and the longest run of digits and underscores make the
    token, which [ParseInt] then converts; on any error the variable keeps
    its value, which both call sites leave at zero. *)
Definition is_scan_digit (c : ascii) : bool :=
  match strconv.digit_of c with
  | Some _ => true
  | None => Ascii.eqb c "_"
  end.

Fixpoint scan_number (s : string) : string :=
  match s with
  | EmptyString => EmptyString
  | String c s' =>
      if is_scan_digit c then String c (scan_number s') else EmptyString
  end.

Definition Sscanf_d (s : string) : Z :=
  let tok :=
    match s with
    | String c s' =>
        if Ascii.eqb c "+" || Ascii.eqb c "-"
        then match scan_number s' with
             | EmptyString => EmptyString
             | digits => String c digits
             end
        else scan_number s
    | EmptyString => EmptyString
    end in
  match strconv.ParseInt tok with
  | Some n => n
  | None => 0%Z
  end.

End strings.

(** ** The wire codec (RESPReader and RESPValue) *)

Definition RESPType := ascii.
Definition SimpleString : RESPType := "+"%char.
Definition Error : RESPType := "-"%char.
Definition Integer : RESPType := ":"%char.
Definition BulkString : RESPType := "$"%char.
Definition Array : RESPType := "*"%char.

#[local] Set Warnings "-register-all".

(** The struct RESPValue, all five fields; [Typ] is the field [Type] and
    [Arr] the field [Array] (both names are taken here). *)
Inductive RESPValue : Type :=
  mkRESPValue {
    Typ : RESPType;
    Str : string;
    Int : Z;
    Arr : list RESPValue;
    Null : bool
  }.

(** The zero value of the struct, which the composite literals of the
    reader fill in. *)
Definition zeroValue (t : RESPType) : RESPValue :=
  mkRESPValue t EmptyString 0 [] false.

Definition withStr (v : RESPValue) (s : string) : RESPValue :=
  mkRESPValue (Typ v) s (Int v) (Arr v) (Null v).

(** What a read can return instead of a value.  [EOF] and [UnexpectedEOF]
    are the errors of the stream (io.EOF, io.ErrUnexpectedEOF); the others
    are the reader's own [fmt.Errorf] values, the framing errors. *)
Inductive error : Type :=
| EOF
| UnexpectedEOF
| UnknownType (typeByte : ascii)
| InvalidInteger (line : string)
| InvalidBulkSize (line : string)
| InvalidBulkTerminator
| InvalidArrayCount (line : string)
| InvalidLineTerminator
| PanicMakeSlice.

Definition is_framing_error (e : error) : bool :=
  match e with
  | EOF | UnexpectedEOF | PanicMakeSlice => false
  | _ => true
  end.

Inductive result (A : Type) : Type :=
| Ok (a : A)
| Err (e : error).
Arguments Ok {A} a.
Arguments Err {A} e.

(** [bufio.Reader.ReadString(LF)] on the bytes still to come: the line with
    its delimiter and the rest, or nothing when the stream ends first. *)
Fixpoint ReadString_LF (s : string) : option (string * string) :=
  match s with
  | EmptyString => None
  | String c s' =>
      if Ascii.eqb c LF then Some (String c EmptyString, s')
      else match ReadString_LF s' with
           | Some (line, rest) => Some (String c line, rest)
           | None => None
           end
  end.

(** The readers take the bytes the stream still holds and return the value
    with the bytes left behind it. *)
Definition readLine (s : string) : result (string * string) :=
  match ReadString_LF s with
  | None => Err EOF
  | Some (line, rest) =>
      let n := String.length line in
      if (n <? 2)
         || negb (bool_decide (String.get (n - 2) line = Some CR))
      then Err InvalidLineTerminator
      else Ok (strings.slice_to (n - 2) line, rest)
  end.

Definition readSimpleString (s : string) : result (RESPValue * string) :=
  match readLine s with
  | Err e => Err e
  | Ok (line, rest) => Ok (withStr (zeroValue SimpleString) line, rest)
  end.

Definition readError (s : string) : result (RESPValue * string) :=
  match readLine s with
  | Err e => Err e
  | Ok (line, rest) => Ok (withStr (zeroValue Error) line, rest)
  end.

Definition readInteger (s : string) : result (RESPValue * string) :=
  match readLine s with
  | Err e => Err e
  | Ok (line, rest) =>
      match strconv.ParseInt line with
      | None => Err (InvalidInteger line)
      | Some num => Ok (mkRESPValue Integer EmptyString num [] false, rest)
      end
  end.

(** [size+2] in 64-bit arithmetic. *)
Definition wrap64 (z : Z) : Z :=
  ((z - strconv.MinInt64) mod 2 ^ 64 + strconv.MinInt64)%Z.

(** [io.ReadFull] into a buffer of [n] bytes. *)
Definition ReadFull (n : nat) (s : string) : result (string * string) :=
  if n <=? String.length s
  then Ok (strings.slice_to n s, strings.slice_from n s)
  else match s with
       | EmptyString => Err EOF
       | _ => Err UnexpectedEOF
       end.

(** [make] panics on the negative length that [size+2] wraps to for the two
    largest sizes; a positive length is taken to be allocated (the limits
    of memory are outside the model). *)
Definition readBulkString (s : string) : result (RESPValue * string) :=
  match readLine s with
  | Err e => Err e
  | Ok (line, rest) =>
      match strconv.Atoi line with
      | None => Err (InvalidBulkSize line)
      | Some size =>
          if (size <? 0)%Z
          then Ok (mkRESPValue BulkString EmptyString 0 [] true, rest)
          else
            let buflen := wrap64 (size + 2) in
            if (buflen <? 0)%Z then Err PanicMakeSlice
            else
              match ReadFull (Z.to_nat buflen) rest with
              | Err e => Err e
              | Ok (buf, rest') =>
                  let n := Z.to_nat size in
                  if negb (bool_decide (String.get n buf = Some CR))
                     || negb (bool_decide (String.get (n + 1) buf = Some LF))
                  then Err InvalidBulkTerminator
                  else Ok (withStr (zeroValue BulkString)
                                   (strings.slice_to n buf), rest')
              end
      end
  end.

(** The loop of readArray, over the reader [rv] for one value; [None] is a
    recursion budget that ran out, never a return of the Go code. *)
Fixpoint readElems (rv : string -> option (result (RESPValue * string)))
    (count : nat) (s : string) : option (result (list RESPValue * string)) :=
  match count with
  | O => Some (Ok ([], s))
  | S count' =>
      match rv s with
      | None => None
      | Some (Err e) => Some (Err e)
      | Some (Ok (val, s')) =>
          match readElems rv count' s' with
          | None => None
          | Some (Err e) => Some (Err e)
          | Some (Ok (vals, s'')) => Some (Ok (val :: vals, s''))
          end
      end
  end.

Definition readArray (rv : string -> option (result (RESPValue * string)))
    (s : string) : option (result (RESPValue * string)) :=
  match readLine s with
  | Err e => Some (Err e)
  | Ok (line, rest) =>
      match strconv.Atoi line with
      | None => Some (Err (InvalidArrayCount line))
      | Some count =>
          if (count <? 0)%Z
          then Some (Ok (mkRESPValue Array EmptyString 0 [] true, rest))
          else
            match readElems rv (Z.to_nat count) rest with
            | None => None
            | Some (Err e) => Some (Err e)
            | Some (Ok (arr, rest')) =>
                Some (Ok (mkRESPValue Array EmptyString 0 arr false, rest'))
            end
      end
  end.

(** ReadValue with a budget for the nesting of arrays. *)
Fixpoint ReadValue_fuel (fuel : nat) (s : string)
    : option (result (RESPValue * string)) :=
  match fuel with
  | O => None
  | S fuel' =>
      match s with
      | EmptyString => Some (Err EOF)
      | String typeByte rest =>
          if Ascii.eqb typeByte SimpleString then Some (readSimpleString rest)
          else if Ascii.eqb typeByte Error then Some (readError rest)
          else if Ascii.eqb typeByte Integer then Some (readInteger rest)
          else if Ascii.eqb typeByte BulkString then Some (readBulkString rest)
          else if Ascii.eqb typeByte Array
               then readArray (ReadValue_fuel fuel') rest
          else Some (Err (UnknownType typeByte))
      end
  end.

(** Every value read takes at least its type byte, so the length of the
    input bounds the nesting ([ReadValue_total] below). *)
Definition ReadValue (s : string) : option (result (RESPValue * string)) :=
  ReadValue_fuel (S (String.length s)) s.

Definition concat_strings (l : list string) : string :=
  foldr String.append EmptyString l.

Fixpoint Serialize (v : RESPValue) : string :=
  match v with
  | mkRESPValue t str int arr null =>
      if Ascii.eqb t SimpleString then String "+" (str +:+ CRLF)
      else if Ascii.eqb t Error then String "-" (str +:+ CRLF)
      else if Ascii.eqb t Integer
           then String ":" (strconv.FormatInt int +:+ CRLF)
      else if Ascii.eqb t BulkString
           then String "$"
                  (if null then "-1" +:+ CRLF
                   else strconv.Itoa (Z.of_nat (String.length str)) +:+ CRLF
                        +:+ str +:+ CRLF)
      else if Ascii.eqb t Array
           then String "*"
                  (if null then "-1" +:+ CRLF
                   else strconv.Itoa (Z.of_nat (length arr)) +:+ CRLF
                        +:+ concat_strings (map Serialize arr))
      else EmptyString
  end.

Definition IsRedirectError (v : RESPValue) : bool :=
  if negb (Ascii.eqb (Typ v) Error) then false
  else strings.HasPrefix (Str v) "MOVED " || strings.HasPrefix (Str v) "ASK ".

(** The method mutates [v.Str] in place: the value after the call is
    returned with the boolean. *)
Definition RewriteRedirectError (nodeMap : gmap string string) (v : RESPValue)
    : bool * RESPValue :=
  if negb (IsRedirectError v) then (false, v)
  else
    match strings.Fields (Str v) with
    | [redirectType; slot; targetAddr] =>
        match nodeMap !! targetAddr with
        | Some localAddr =>
            (true, withStr v (redirectType +:+ " " +:+ slot +:+ " " +:+ localAddr))
        | None => (false, v)
        end
    | _ => (false, v)
    end.

(** ** Cluster topology (pkg/proxy/cluster.go) *)

Record ClusterNode : Type :=
  mkClusterNode {
    ID : string;
    Address : string;
    Port : Z;
    Flags : string;
    Role : string
  }.

(** [address[:idx]] when [idx := strings.Index(address, sep)] is not -1. *)
Definition cut_at (address sep : string) : string :=
  let idx := strings.Index address sep in
  if negb (idx =? -1)%Z then strings.slice_to (Z.to_nat idx) address
  else address.

(** The body of the loop of parseClusterNodes: the node a line appends,
    nothing when the line is skipped. *)
Definition parseClusterLine (line : string) : option ClusterNode :=
  let line := strings.TrimSpace line in
  if bool_decide (line = EmptyString) then None
  else
    let fields := strings.Fields line in
    if length fields <? 8 then None
    else
      match fields with
      | nodeID :: addressField :: flags :: _ =>
          let address := cut_at (cut_at addressField "@") "," in
          let parts := strings.Split address ":" in
          let port :=
            match parts with
            | [_; p1] => strings.Sscanf_d p1
            | _ => 0%Z
            end in
          let role :=
            if strings.Contains flags "master" then "master" else "slave" in
          Some (mkClusterNode nodeID address port flags role)
      | _ => None
      end.

(** parseClusterNodes never returns an error: its result is the node list. *)
Definition parseClusterNodes (output : string) : list ClusterNode :=
  omap parseClusterLine (strings.Split (strings.TrimSpace output) LF).

Fixpoint FilterUniqueNodes_loop (seen : gset string) (nodes : list ClusterNode)
    (currentAddress : string) : list ClusterNode :=
  match nodes with
  | [] => []
  | node :: nodes' =>
      if bool_decide (Address node = currentAddress)
      then FilterUniqueNodes_loop seen nodes' currentAddress
      else if strings.Contains (Flags node) "myself"
      then FilterUniqueNodes_loop seen nodes' currentAddress
      else if bool_decide (Address node ∈ seen)
      then FilterUniqueNodes_loop seen nodes' currentAddress
      else node :: FilterUniqueNodes_loop ({[Address node]} ∪ seen) nodes'
                                          currentAddress
  end.

Definition FilterUniqueNodes (nodes : list ClusterNode)
    (currentAddress : string) : list ClusterNode :=
  FilterUniqueNodes_loop ∅ nodes currentAddress.

(** DiscoverClusterTopology writes the command and frames the reply by hand
    on the socket (type byte, length line, one Read of the payload).  The
    socket calls come into the model as their outcome: an error return, or
    the payload that is handed to parseClusterNodes. *)
Definition DiscoverClusterTopology (reply : option string)
    : option (list ClusterNode) :=
  match reply with
  | None => None
  | Some data => Some (parseClusterNodes data)
  end.

(** ** Connections, as the pipeline sees them *)

Module discovery.
Record Endpoint : Type :=
  mkEndpoint { Host : string; Port : Z; Type_ : string }.
End discovery.

(** Of the configuration, the proxy package reads the local address. *)
Module config.
Record Config : Type := mkConfig { LocalAddr : string; StartPort : Z }.
End config.

(** A remote connection is the script of what its calls return: whether the
    dial succeeds, what GetToken gives, whether the write of the AUTH
    command succeeds, the bytes that are there when the reply to the bytes
    written is read (or a read error), and the bytes the remote sends after
    that until it closes the connection. *)
Record RemoteConn : Type :=
  mkRemoteConn {
    dial_ok : bool;
    token : option string;
    write_ok : bool;
    auth_read : string -> option string;
    stream : string
  }.

Inductive AuthError : Type :=
| TokenFailed
| SendFailed
| ReadFailed
| AuthenticationFailed (respStr : string).

(** [fmt.Sprintf] of the AUTH command, for the password or the token. *)
Definition authCmd (credential : string) : string :=
  "*2" +:+ CRLF +:+ "$4" +:+ CRLF +:+ "AUTH" +:+ CRLF +:+ "$"
  +:+ strconv.Itoa (Z.of_nat (String.length credential)) +:+ CRLF
  +:+ credential +:+ CRLF.

(** [conn.Read(response)] with [response := make([]byte, 1024)]: at most
    1024 of the bytes that are there; [respStr] is what was read. *)
Definition Read1024 (available : string) : string :=
  strings.slice_to 1024 available.

(** The shared heap: the Go maps, by reference, and the local addresses on
    which a listener is bound. *)
Record World : Type :=
  mkWorld {
    bound : gset string;
    maps : gmap nat (gmap string string)
  }.

Record TLSConfig : Type :=
  mkTLSConfig { RootCAs : option string; InsecureSkipVerify : bool }.

(** How a connection pipeline ends: the dial failed, the authentication
    failed, or the relay ran; [Relayed] carries the bytes the client was
    sent, remote to client, when the remote's stream is relayed to its end. *)
Inductive PipelineEnd : Type :=
| DialFailed
| AuthFailed (e : AuthError)
| Relayed (toClient : string).

Module Proxy.

(** The struct Proxy.  [tokenSource] is whether the pointer is non-nil,
    [nodeMap] the reference to the map, [shutdownOnce] whether the Once
    has fired; the listener is the entry of [localAddr] in [bound]. *)
Record t : Type :=
  mk {
    localAddr : string;
    remoteAddr : string;
    endpoint : discovery.Endpoint;
    tokenSource : bool;
    authPassword : string;
    tlsConfig : option TLSConfig;
    isClusterMode : bool;
    nodeMap : nat;
    shutdownOnce : bool
  }.

(** [net.Listen] fails on an address that is in use. *)
Definition Start (p : t) (w : World) : World * bool :=
  if bool_decide (localAddr p ∈ bound w) then (w, false)
  else (mkWorld ({[localAddr p]} ∪ bound w) (maps w), true).

Definition Shutdown (p : t) (w : World) : World * t :=
  if shutdownOnce p then (w, p)
  else (mkWorld (bound w ∖ {[localAddr p]}) (maps w),
        mk (localAddr p) (remoteAddr p) (endpoint p) (tokenSource p)
           (authPassword p) (tlsConfig p) (isClusterMode p) (nodeMap p)
           true).

(** The result is the error, [None] for nil. *)
Definition authenticatePassword (conn : RemoteConn) (password : string)
    : option AuthError :=
  if negb (write_ok conn) then Some SendFailed
  else
    match auth_read conn (authCmd password) with
    | None => Some ReadFailed
    | Some available =>
        let respStr := Read1024 available in
        if (5 <=? String.length respStr)
           && String.eqb (strings.slice_to 5 respStr) ("+OK" +:+ CRLF)
        then None
        else Some (AuthenticationFailed respStr)
    end.

Definition authenticateIAM (conn : RemoteConn) : option AuthError :=
  match token conn with
  | None => Some TokenFailed
  | Some token =>
      if negb (write_ok conn) then Some SendFailed
      else
        match auth_read conn (authCmd token) with
        | None => Some ReadFailed
        | Some available =>
            let respStr := Read1024 available in
            if (5 <=? String.length respStr)
               && String.eqb (strings.slice_to 5 respStr) ("+OK" +:+ CRLF)
            then None
            else Some (AuthenticationFailed respStr)
        end
  end.

(** The loop of proxyServerResponses over the bytes of the server: what
    was written to the client and the error that ended the loop.  The
    writes to the client are taken to succeed. *)
Fixpoint proxyServerResponses_loop (fuel : nat) (nodes : gmap string string)
    (server : string) : string * option error :=
  match fuel with
  | O => (EmptyString, None)
  | S fuel' =>
      match ReadValue server with
      | None => (EmptyString, None)
      | Some (Err err) => (EmptyString, Some err)
      | Some (Ok (value, server')) =>
          let value :=
            if IsRedirectError value
            then snd (RewriteRedirectError nodes value)
            else value in
          let data := Serialize value in
          let '(written, err) :=
            proxyServerResponses_loop fuel' nodes server' in
          (data +:+ written, err)
      end
  end.

Definition proxyServerResponses (nodes : gmap string string)
    (server : string) : string * option error :=
  proxyServerResponses_loop (S (String.length server)) nodes server.

(** Remote to client in handleSimpleConnection: [io.Copy]. *)
Definition handleSimpleConnection (server : string) : string := server.

(** Remote to client in handleClusterConnection; the map is the one the
    proxy's reference points to when the replies are relayed. *)
Definition handleClusterConnection (p : t) (w : World) (server : string)
    : string :=
  fst (proxyServerResponses (default ∅ (maps w !! nodeMap p)) server).

(** The bytes of the first read that did not fit the 1024-byte buffer are
    still in the socket when the relay starts. *)
Definition after_auth (conn : RemoteConn) (credential : string) : string :=
  match auth_read conn (authCmd credential) with
  | Some available => strings.slice_from 1024 available +:+ stream conn
  | None => stream conn
  end.

Definition handleConnection (p : t) (w : World) (conn : RemoteConn)
    : PipelineEnd :=
  if negb (dial_ok conn) then DialFailed
  else
    let relay (server : string) :=
      if isClusterMode p then Relayed (handleClusterConnection p w server)
      else Relayed (handleSimpleConnection server) in
    if negb (bool_decide (authPassword p = EmptyString)) then
      match authenticatePassword conn (authPassword p) with
      | Some e => AuthFailed e
      | None => relay (after_auth conn (authPassword p))
      end
    else if tokenSource p then
      match authenticateIAM conn with
      | Some e => AuthFailed e
      | None => relay (after_auth conn (default EmptyString (token conn)))
      end
    else relay (stream conn).

End Proxy.

(** [net.JoinHostPort]: the host goes in brackets when it holds a colon or
    a percent sign. *)
Definition JoinHostPort (host port : string) : string :=
  if (0 <=? strings.Index host ":")%Z || (0 <=? strings.Index host "%")%Z
  then "[" +:+ host +:+ "]:" +:+ port
  else host +:+ ":" +:+ port.

Definition extractHost (address : string) : string :=
  let idx := strings.LastIndex address ":" in
  if negb (idx =? -1)%Z then strings.slice_to (Z.to_nat idx) address
  else address.

(** What DiscoverAndAddClusterNodes meets on its dedicated connection: the
    connection itself and the outcome of the topology query. *)
Record DiscoveryIO : Type :=
  mkDiscoveryIO {
    d_conn : RemoteConn;
    d_topology : option string
  }.

Inductive ManagerError : Type :=
| TokenProviderFailed
| ListenFailed (addr : string)
| ConnectFailed
| AuthenticationError (e : AuthError)
| TopologyFailed
| NoClusterNodes
| BadCACertificate.

Module Manager.

(** The struct Manager; [tokenSource] is whether the pointer is non-nil
    and [nodeMap] the reference to the map made by NewManager. *)
Record t : Type :=
  mk {
    config : config.Config;
    proxies : list Proxy.t;
    tokenSource : bool;
    authPassword : string;
    authorizationMode : string;
    tlsConfig : option TLSConfig;
    nodeMap : nat;
    isClusterMode : bool
  }.

Definition NewManager (cfg : config.Config) (w : World) : World * t :=
  let ref := fresh (dom (maps w)) in
  (mkWorld (bound w) (<[ref := ∅]> (maps w)),
   mk cfg [] false EmptyString EmptyString None ref false).

(** [pem_ok] is whether AppendCertsFromPEM accepts the certificate. *)
Definition SetTLSConfig (pem_ok : bool) (caCert : string) (skipVerify : bool)
    (m : t) : t * option ManagerError :=
  let set c :=
    mk (config m) (proxies m) (tokenSource m) (authPassword m)
       (authorizationMode m) (Some c) (nodeMap m) (isClusterMode m) in
  if negb (bool_decide (caCert = EmptyString)) then
    if negb pem_ok then (m, Some BadCACertificate)
    else (set (mkTLSConfig (Some caCert) skipVerify), None)
  else (set (mkTLSConfig None skipVerify), None).

Definition SetAuthPassword (password : string) (m : t) : t :=
  mk (config m) (proxies m) (tokenSource m) password
     (authorizationMode m) (tlsConfig m) (nodeMap m) (isClusterMode m).

Definition SetAuthorizationMode (mode : string) (m : t) : t :=
  mk (config m) (proxies m) (tokenSource m) (authPassword m)
     mode (tlsConfig m) (nodeMap m) (isClusterMode m).

(** [iam_ok] is whether NewIAMTokenProvider finds credentials. *)
Definition AddProxy (iam_ok : bool) (endpoint : discovery.Endpoint)
    (localPort : Z) (w : World) (m : t) : World * t * option ManagerError :=
  let needs_token :=
    bool_decide (authorizationMode m = "IAM_AUTH")
    && bool_decide (authPassword m = EmptyString)
    && negb (tokenSource m) in
  if needs_token && negb iam_ok then (w, m, Some TokenProviderFailed)
  else
    let tokenSource' := if needs_token then true else tokenSource m in
    let m1 :=
      mk (config m) (proxies m) tokenSource' (authPassword m)
         (authorizationMode m) (tlsConfig m) (nodeMap m) (isClusterMode m) in
    let localAddr :=
      config.LocalAddr (config m) +:+ ":" +:+ strconv.Itoa localPort in
    let remoteAddr :=
      discovery.Host endpoint +:+ ":"
      +:+ strconv.Itoa (discovery.Port endpoint) in
    let proxy :=
      Proxy.mk localAddr remoteAddr endpoint tokenSource' (authPassword m)
               (tlsConfig m) (isClusterMode m) (nodeMap m) false in
    match Proxy.Start proxy w with
    | (_, false) => (w, m1, Some (ListenFailed localAddr))
    | (w1, true) =>
        let nodes := default ∅ (maps w1 !! nodeMap m) in
        (mkWorld (bound w1)
                 (<[nodeMap m := <[remoteAddr := localAddr]> nodes]> (maps w1)),
         mk (config m) (proxies m ++ [proxy]) tokenSource' (authPassword m)
            (authorizationMode m) (tlsConfig m) (nodeMap m)
            (isClusterMode m),
         None)
    end.

Fixpoint Shutdown_loop (ps : list Proxy.t) (w : World)
    : World * list Proxy.t :=
  match ps with
  | [] => (w, [])
  | p :: ps' =>
      let '(w1, p') := Proxy.Shutdown p w in
      let '(w2, ps'') := Shutdown_loop ps' w1 in
      (w2, p' :: ps'')
  end.

Definition Shutdown (w : World) (m : t) : World * t :=
  let '(w', ps) := Shutdown_loop (proxies m) w in
  (w', mk (config m) ps (tokenSource m) (authPassword m)
          (authorizationMode m) (tlsConfig m) (nodeMap m) (isClusterMode m)).

Definition authenticatePasswordOnConn (conn : RemoteConn) (password : string)
    : option AuthError :=
  if negb (write_ok conn) then Some SendFailed
  else
    match auth_read conn (authCmd password) with
    | None => Some ReadFailed
    | Some available =>
        let respStr := Read1024 available in
        if (5 <=? String.length respStr)
           && String.eqb (strings.slice_to 5 respStr) ("+OK" +:+ CRLF)
        then None
        else Some (AuthenticationFailed respStr)
    end.

Definition authenticateIAMOnConn (conn : RemoteConn) : option AuthError :=
  match token conn with
  | None => Some TokenFailed
  | Some token =>
      if negb (write_ok conn) then Some SendFailed
      else
        match auth_read conn (authCmd token) with
        | None => Some ReadFailed
        | Some available =>
            let respStr := Read1024 available in
            if (5 <=? String.length respStr)
               && String.eqb (strings.slice_to 5 respStr) ("+OK" +:+ CRLF)
            then None
            else Some (AuthenticationFailed respStr)
        end
  end.

(** The loop over newNodes: the index [i] of the node, the state and the
    count of proxies added so far. *)
Fixpoint addNodes (iam_ok : bool) (startPort : Z) (i : Z)
    (newNodes : list ClusterNode) (w : World) (m : t) (addedCount : Z)
    : World * t * Z :=
  match newNodes with
  | [] => (w, m, addedCount)
  | node :: rest =>
      let localPort := wrap64 (startPort + i) in
      let endpoint :=
        discovery.mkEndpoint (extractHost (Address node)) (Port node)
                             ("cluster-" +:+ Role node) in
      match AddProxy iam_ok endpoint localPort w m with
      | (w', m', Some _) =>
          addNodes iam_ok startPort (i + 1) rest w' m' addedCount
      | (w', m', None) =>
          addNodes iam_ok startPort (i + 1) rest w' m' (addedCount + 1)
      end
  end.

Definition DiscoverAndAddClusterNodes (iam_ok : bool) (io : DiscoveryIO)
    (primaryEndpoint : discovery.Endpoint) (startPort : Z)
    (w : World) (m : t) : World * t * (Z * option ManagerError) :=
  let remoteAddr :=
    JoinHostPort (discovery.Host primaryEndpoint)
                 (strconv.Itoa (discovery.Port primaryEndpoint)) in
  let conn := d_conn io in
  if negb (dial_ok conn) then (w, m, (0%Z, Some ConnectFailed))
  else
    let auth :=
      if negb (bool_decide (authPassword m = EmptyString))
      then authenticatePasswordOnConn conn (authPassword m)
      else if tokenSource m then authenticateIAMOnConn conn
      else None in
    match auth with
    | Some e => (w, m, (0%Z, Some (AuthenticationError e)))
    | None =>
        match DiscoverClusterTopology (d_topology io) with
        | None => (w, m, (0%Z, Some TopologyFailed))
        | Some nodes =>
            match nodes with
            | [] => (w, m, (0%Z, Some NoClusterNodes))
            | _ =>
                match FilterUniqueNodes nodes remoteAddr with
                | [] => (w, m, (0%Z, None))
                | newNodes =>
                    let m1 :=
                      mk (config m) (proxies m) (tokenSource m)
                         (authPassword m) (authorizationMode m)
                         (tlsConfig m) (nodeMap m) true in
                    let '(w', m', addedCount) :=
                      addNodes iam_ok startPort 0 newNodes w m1 0 in
                    (w', m', (addedCount, None))
                end
            end
        end
    end.

End Manager.

(** The calls a program makes on its manager, with what the environment
    answers to each. *)
Inductive Call : Type :=
| CallSetTLSConfig (pem_ok : bool) (caCert : string) (skipVerify : bool)
| CallSetAuthPassword (password : string)
| CallSetAuthorizationMode (mode : string)
| CallAddProxy (iam_ok : bool) (endpoint : discovery.Endpoint) (localPort : Z)
| CallDiscover (iam_ok : bool) (io : DiscoveryIO)
    (primaryEndpoint : discovery.Endpoint) (startPort : Z)
| CallShutdown.

Definition call (c : Call) (st : World * Manager.t) : World * Manager.t :=
  let '(w, m) := st in
  match c with
  | CallSetTLSConfig pem_ok caCert skipVerify =>
      (w, fst (Manager.SetTLSConfig pem_ok caCert skipVerify m))
  | CallSetAuthPassword password => (w, Manager.SetAuthPassword password m)
  | CallSetAuthorizationMode mode => (w, Manager.SetAuthorizationMode mode m)
  | CallAddProxy iam_ok endpoint localPort =>
      fst (Manager.AddProxy iam_ok endpoint localPort w m)
  | CallDiscover iam_ok io primaryEndpoint startPort =>
      fst (Manager.DiscoverAndAddClusterNodes iam_ok io primaryEndpoint
                                              startPort w m)
  | CallShutdown => Manager.Shutdown w m
  end.

(** The states of a manager: made by NewManager in any world, then any
    calls. *)
Inductive reachable : World * Manager.t -> Prop :=
| reachable_new cfg w : reachable (Manager.NewManager cfg w)
| reachable_call c st : reachable st -> reachable (call c st).

(** The node address map of a manager, through its reference. *)
Definition nodeMapOf (st : World * Manager.t) : gmap string string :=
  default ∅ (maps st.1 !! Manager.nodeMap st.2).

(** ** Vocabulary of the statements *)

(** Whether the byte [c] occurs in [s]. *)
Fixpoint has_byte (c : ascii) (s : string) : bool :=
  match s with
  | EmptyString => false
  | String c' s' => Ascii.eqb c' c || has_byte c s'
  end.

(** The range of Go's int64, and of int on the 64-bit platforms. *)
Definition int64 (z : Z) : Prop :=
  (strconv.MinInt64 <= z <= strconv.MaxInt64)%Z.

(** The values of the RESP grammar, as Go can hold them: one of the five
    types; a simple string or an error is one line (it holds no line feed);
    an integer fits 64 bits; a bulk string is null or has a length whose
    buffer of two more bytes can be made; an array is null or holds
    grammar values. *)
Fixpoint grammar_value (v : RESPValue) : Prop :=
  match v with
  | mkRESPValue t str int arr null =>
      (t = SimpleString /\ has_byte LF str = false)
      \/ (t = Error /\ has_byte LF str = false)
      \/ (t = Integer /\ int64 int)
      \/ (t = BulkString
          /\ (null = true
              \/ (Z.of_nat (String.length str) + 2 <= strconv.MaxInt64)%Z))
      \/ (t = Array
          /\ (null = true
              \/ ((Z.of_nat (length arr) <= strconv.MaxInt64)%Z
                  /\ foldr (fun e P => grammar_value e /\ P) True arr)))
  end.

(** The value the reader builds from the bytes of [v]: the fields the
    type does not use are left at zero. *)
Fixpoint parsed (v : RESPValue) : RESPValue :=
  match v with
  | mkRESPValue t str int arr null =>
      if Ascii.eqb t SimpleString || Ascii.eqb t Error
      then mkRESPValue t str 0 [] false
      else if Ascii.eqb t Integer then mkRESPValue t EmptyString int [] false
      else if Ascii.eqb t BulkString
           then if null then mkRESPValue t EmptyString 0 [] true
                else mkRESPValue t str 0 [] false
      else if Ascii.eqb t Array
           then if null then mkRESPValue t EmptyString 0 [] true
                else mkRESPValue t EmptyString 0 (map parsed arr) false
      else v
  end.

(** Reading the bytes of [e], whatever follows them, gives [parsed e] and
    leaves what follows, as soon as the budget covers the bytes of [e]. *)
Definition reads_back (e : RESPValue) : Prop :=
  forall fuel rest,
    String.length (Serialize e) <= fuel ->
    ReadValue_fuel fuel (Serialize e +:+ rest) = Some (Ok (parsed e, rest)).

(** A reader of one value that always takes at least one byte. *)
Definition consumes (rv : string -> option (result (RESPValue * string)))
    : Prop :=
  forall s v rest,
    rv s = Some (Ok (v, rest)) -> String.length rest < String.length s.

(** The fields a scan has found. *)
Definition fields_of (r : string * list string) : list string :=
  strings.cons_field r.1 r.2.

(** The first byte of [e], if any, is not a continuation byte of UTF-8. *)
Definition starts_rune (e : string) : bool :=
  match e with
  | EmptyString => true
  | String c _ => negb ((128 <=? byte_val c)%Z && (byte_val c <=? 191)%Z)
  end.

(** The node map that a list of started proxies leaves behind: each one
    writes its own entry, a later one over an earlier one. *)
Definition recorded (ps : list Proxy.t) : gmap string string :=
  foldl (fun nodes p => <[Proxy.remoteAddr p := Proxy.localAddr p]> nodes) ∅ ps.

(** The address strings AddProxy computes with [fmt.Sprintf]. *)
Definition localAddrOf (m : Manager.t) (localPort : Z) : string :=
  config.LocalAddr (Manager.config m) +:+ ":" +:+ strconv.Itoa localPort.
Definition remoteAddrOf (endpoint : discovery.Endpoint) : string :=
  discovery.Host endpoint +:+ ":" +:+ strconv.Itoa (discovery.Port endpoint).

(** The two ways out of AddProxy. *)
Definition AddProxy_failed (w : World) (m : Manager.t)
    (w' : World) (m' : Manager.t) : Prop :=
  w' = w
  /\ Manager.proxies m' = Manager.proxies m
  /\ Manager.nodeMap m' = Manager.nodeMap m
  /\ Manager.isClusterMode m' = Manager.isClusterMode m.

Definition AddProxy_started (endpoint : discovery.Endpoint) (localPort : Z)
    (w : World) (m : Manager.t) (w' : World) (m' : Manager.t) : Prop :=
  exists p,
    Manager.proxies m' = Manager.proxies m ++ [p]
    /\ Proxy.localAddr p = localAddrOf m localPort
    /\ Proxy.remoteAddr p = remoteAddrOf endpoint
    /\ Proxy.isClusterMode p = Manager.isClusterMode m
    /\ Proxy.nodeMap p = Manager.nodeMap m
    /\ (Proxy.localAddr p ∉ bound w)
    /\ bound w' = {[Proxy.localAddr p]} ∪ bound w
    /\ maps w'
       = <[Manager.nodeMap m :=
             <[Proxy.remoteAddr p := Proxy.localAddr p]>
               (default ∅ (maps w !! Manager.nodeMap m))]> (maps w)
    /\ Manager.nodeMap m' = Manager.nodeMap m
    /\ Manager.isClusterMode m' = Manager.isClusterMode m.

(** The manager's reference points to the map its proxies recorded, and
    every proxy holds the same reference. *)
Definition consistent (st : World * Manager.t) : Prop :=
  maps st.1 !! Manager.nodeMap st.2 = Some (recorded (Manager.proxies st.2))
  /\ Forall (fun p => Proxy.nodeMap p = Manager.nodeMap st.2)
            (Manager.proxies st.2).

(** The value that the AUTH command encodes: the array of two bulk strings. *)
Definition authValue (credential : string) : RESPValue :=
  mkRESPValue Array EmptyString 0
    [ mkRESPValue BulkString "AUTH" 0 [] false;
      mkRESPValue BulkString credential 0 [] false ] false.



(** The value the loop of proxyServerResponses writes for a value read. *)
Definition relayed (nodes : gmap string string) (v : RESPValue) : RESPValue :=
  if IsRedirectError v then snd (RewriteRedirectError nodes v) else v.

(** Strings of printable ASCII bytes other than the space. *)
Fixpoint graphic (s : string) : bool :=
  match s with
  | EmptyString => true
  | String c s' => (32 <? byte_val c)%Z && (byte_val c <? 128)%Z && graphic s'
  end.

(** A node that FilterUniqueNodes does not drop for its own sake. *)
Definition peer_of (currentAddress : string) (node : ClusterNode) : Prop :=
  Address node <> currentAddress
  /\ strings.Contains (Flags node) "myself" = false.

(** The endpoint the loop of DiscoverAndAddClusterNodes makes for a node. *)
Definition peerEndpoint (node : ClusterNode) : discovery.Endpoint :=
  discovery.mkEndpoint (extractHost (Address node)) (Port node)
                       ("cluster-" +:+ Role node).

(** The proxies whose Shutdown has not run. *)
Definition liveProxies (ps : list Proxy.t) : list Proxy.t :=
  filter (fun p => Proxy.shutdownOnce p = false) ps.

(** A proxy after its Shutdown. *)
Definition closed (p : Proxy.t) : Proxy.t :=
  Proxy.mk (Proxy.localAddr p) (Proxy.remoteAddr p) (Proxy.endpoint p)
           (Proxy.tokenSource p) (Proxy.authPassword p) (Proxy.tlsConfig p)
           (Proxy.isClusterMode p) (Proxy.nodeMap p) true.

(** The listeners of a manager: the live proxies have distinct local
    addresses, each of them bound, and a bound local address of any proxy
    of the list is the address of a live one. *)
Definition listening (st : World * Manager.t) : Prop :=
  NoDup (Proxy.localAddr <$> liveProxies (Manager.proxies st.2))
  /\ (forall p, p ∈ liveProxies (Manager.proxies st.2) ->
                Proxy.localAddr p ∈ bound st.1)
  /\ (forall p, p ∈ Manager.proxies st.2 ->
                Proxy.localAddr p ∈ bound st.1 ->
                Proxy.localAddr p
                ∈ Proxy.localAddr <$> liveProxies (Manager.proxies st.2)).

(** The local and the remote address of a proxy. *)
Definition addresses (p : Proxy.t) : string * string :=
  (Proxy.localAddr p, Proxy.remoteAddr p).

(** The addresses the loop of DiscoverAndAddClusterNodes asks AddProxy for,
    node by node: the local port is the start port plus the index of the
    node. *)
Fixpoint plan (m : Manager.t) (startPort i : Z) (nodes : list ClusterNode)
    : list (string * string) :=
  match nodes with
  | [] => []
  | node :: rest =>
      (localAddrOf m (wrap64 (startPort + i)), remoteAddrOf (peerEndpoint node))
      :: plan m startPort (i + 1) rest
  end.

(** What the proxies added by a discovery have in common. *)
Definition added_by_discovery (m : Manager.t) (w' : World) (p : Proxy.t)
    : Prop :=
  Proxy.shutdownOnce p = false
  /\ Proxy.nodeMap p = Manager.nodeMap m
  /\ Proxy.localAddr p ∈ bound w'.

(** A run of calls on the manager. *)
Definition calls (cs : list Call) (st : World * Manager.t) : World * Manager.t :=
  foldl (fun st c => call c st) st cs.

(** What can become of a proxy: nothing, or its Shutdown. *)
Definition same_or_closed (p p' : Proxy.t) : Prop := p' = p \/ p' = closed p.

(** ** Sample values, connections and manager states *)

(** An array that holds every kind of value, the two nulls and a nested
    array among them. *)
Definition sample_value : RESPValue :=
  mkRESPValue Array EmptyString 0
    [ mkRESPValue SimpleString "OK" 0 [] false;
      mkRESPValue Error "ERR unknown command" 0 [] false;
      mkRESPValue Integer EmptyString (-42) [] false;
      mkRESPValue BulkString ("foo" +:+ CRLF +:+ "bar") 0 [] false;
      mkRESPValue BulkString EmptyString 0 [] true;
      mkRESPValue Array EmptyString 0 [] true;
      mkRESPValue Array EmptyString 0
        [ mkRESPValue Array EmptyString 0 [] false;
          mkRESPValue Integer EmptyString 7 [] false ] false ]
    false.

(** The value readError builds. *)
Definition errorValue (payload : string) : RESPValue :=
  mkRESPValue Error payload 0 [] false.

(** The values the readers build for a negative length or count. *)
Definition nullBulkString : RESPValue :=
  mkRESPValue BulkString EmptyString 0 [] true.
Definition nullArray : RESPValue :=
  mkRESPValue Array EmptyString 0 [] true.

(** The example line of the format, with its node ids abbreviated. *)
Definition example_line : string :=
  "07c3...91 127.0.0.1:30004@31004 slave e7d1... 0 1426238317239 4 connected".

(** An instance with two endpoints, proxied on 127.0.0.1. *)
Definition primary_endpoint : discovery.Endpoint :=
  discovery.mkEndpoint "10.0.0.1" 6379 "primary".
Definition second_endpoint : discovery.Endpoint :=
  discovery.mkEndpoint "10.0.0.2" 6379 "endpoint-1".
Definition local_config : config.Config := config.mkConfig "127.0.0.1" 6379.

(** A connection without credentials whose remote sends [server]. *)
Definition plain_conn (server : string) : RemoteConn :=
  mkRemoteConn true None true (fun _ => None) server.

(** The reply of the primary to CLUSTER NODES in a cluster of two. *)
Definition two_nodes : string :=
  "aaa 10.0.0.1:6379@16379 myself,master - 0 0 1 connected 0-8191"
  +:+ String LF
    ("bbb 10.0.0.2:6379@16379 master - 0 0 2 connected 8192-16383"
     +:+ String LF EmptyString).

(** Discovery from the primary, with that reply, local ports from
    [startPort] on. *)
Definition discover_two (startPort : Z) : Call :=
  CallDiscover true (mkDiscoveryIO (plain_conn EmptyString) (Some two_nodes))
               primary_endpoint startPort.

(** The manager of a cluster of two: the primary is proxied first, then
    discovery adds the proxy of the second node on port 6380. *)
Definition primary_state : World * Manager.t :=
  call (CallAddProxy true primary_endpoint 6379)
       (Manager.NewManager local_config (mkWorld ∅ ∅)).
Definition cluster_state : World * Manager.t :=
  call (discover_two 6380) primary_state.

(** A manager that proxies the two endpoints of an instance and then
    expands to the cluster, whose second node is the second endpoint. *)
Definition overlapping_state : World * Manager.t :=
  call (discover_two 6381)
    (call (CallAddProxy true second_endpoint 6380)
       (call (CallAddProxy true primary_endpoint 6379)
          (Manager.NewManager local_config (mkWorld ∅ ∅)))).

(** The reply of a node that does not own slot 3999. *)
Definition moved_reply : string := "-MOVED 3999 10.0.0.2:6379" +:+ CRLF.

(** The reply to AUTH on success. *)
Definition OK_reply : string := "+OK" +:+ CRLF.

(** A remote that answers the AUTH command with +OK and, in the same
    segment, a second line. *)
Definition chatty_conn : RemoteConn :=
  mkRemoteConn true (Some "ya29.token") true
               (fun _ => Some (OK_reply +:+ "-ERR unknown command" +:+ CRLF))
               ("+PONG" +:+ CRLF).

(** A proxy that authenticates with a password, and one that uses a token. *)
Definition password_proxy : Proxy.t :=
  Proxy.mk "127.0.0.1:6379" "10.0.0.1:6379" primary_endpoint false "secret"
           None false 0 false.
Definition token_proxy : Proxy.t :=
  Proxy.mk "127.0.0.1:6379" "10.0.0.1:6379" primary_endpoint true EmptyString
           None false 0 false.

(** A third endpoint, proxied after the discovery of the cluster of two. *)
Definition third_endpoint : discovery.Endpoint :=
  discovery.mkEndpoint "10.0.0.3" 6379 "endpoint-2".
Definition grown_state : World * Manager.t :=
  call (CallAddProxy true third_endpoint 6381) cluster_state.

(** A reply that lists the node asked under its own address, a node
    flagged myself, and one peer twice. *)
Definition listed_nodes : list ClusterNode :=
  [ mkClusterNode "aaa" "10.0.0.1:6379" 6379 "master" "master";
    mkClusterNode "ccc" "10.0.0.3:6379" 6379 "myself,slave" "slave";
    mkClusterNode "bbb" "10.0.0.2:6379" 6379 "master" "master";
    mkClusterNode "bbb" "10.0.0.2:6379" 6379 "master,fail?" "master" ].

(** * Proofs *)

(** ** Strings *)

#[local] Arguments String.append !_ _ / : simpl nomatch.

Lemma append_assoc (a b c : string) : (a +:+ b) +:+ c = a +:+ b +:+ c.
Proof. induction a as [|x a IH]; simpl; [reflexivity | by rewrite IH]. Qed.

Lemma append_nil_r (a : string) : a +:+ EmptyString = a.
Proof. induction a as [|x a IH]; simpl; [reflexivity | by rewrite IH]. Qed.

Lemma length_append (a b : string) :
  String.length (a +:+ b) = String.length a + String.length b.
Proof. induction a as [|x a IH]; simpl; [reflexivity | by rewrite IH]. Qed.

Lemma slice_to_append (a b : string) :
  strings.slice_to (String.length a) (a +:+ b) = a.
Proof.
  unfold strings.slice_to.
  induction a as [|x a IH]; simpl.
  - by destruct b.
  - by rewrite IH.
Qed.

Lemma slice_from_append (a b : string) :
  strings.slice_from (String.length a) (a +:+ b) = b.
Proof. induction a as [|x a IH]; simpl; [reflexivity | exact IH]. Qed.

Lemma slice_to_from (n : nat) (s : string) :
  strings.slice_to n s +:+ strings.slice_from n s = s.
Proof.
  unfold strings.slice_to. revert s.
  induction n as [|n IH]; intros [|c s]; simpl; try reflexivity.
  by rewrite IH.
Qed.

Lemma length_slice_to (n : nat) (s : string) :
  n <= String.length s -> String.length (strings.slice_to n s) = n.
Proof.
  unfold strings.slice_to. revert s.
  induction n as [|n IH]; intros [|c s]; simpl; intros H; try lia.
  rewrite IH; lia.
Qed.

Lemma get_append_r (a b : string) (k : nat) :
  String.get (String.length a + k) (a +:+ b) = String.get k b.
Proof. induction a as [|x a IH]; simpl; [reflexivity | exact IH]. Qed.

Lemma HasPrefix_spec (s pre : string) :
  strings.HasPrefix s pre = true <-> exists rest, s = pre +:+ rest.
Proof.
  unfold strings.HasPrefix. rewrite andb_true_iff, Nat.leb_le, String.eqb_eq.
  split.
  - intros [_ H]. exists (strings.slice_from (String.length pre) s).
    rewrite <- H at 1. symmetry. apply slice_to_from.
  - intros [rest ->]. rewrite length_append, slice_to_append. split; [lia | done].
Qed.

Lemma has_byte_append (c : ascii) (a b : string) :
  has_byte c (a +:+ b) = has_byte c a || has_byte c b.
Proof.
  induction a as [|x a IH]; simpl; [reflexivity |].
  by rewrite IH, orb_assoc.
Qed.

Lemma ReadString_LF_line (body rest : string) :
  has_byte LF body = false ->
  ReadString_LF (body +:+ String LF rest) = Some (body +:+ String LF EmptyString, rest).
Proof.
  induction body as [|c body IH]; simpl; intros H.
  - reflexivity.
  - apply orb_false_iff in H as [Hc Hb]. rewrite Hc, (IH Hb). reflexivity.
Qed.

Lemma readLine_CRLF (body rest : string) :
  has_byte LF body = false ->
  readLine (body +:+ CRLF +:+ rest) = Ok (body, rest).
Proof.
  intros H. unfold readLine.
  assert (E : body +:+ CRLF +:+ rest
              = (body +:+ String CR EmptyString) +:+ String LF rest).
  { by rewrite append_assoc. }
  rewrite E, ReadString_LF_line.
  2:{ rewrite has_byte_append, H. reflexivity. }
  assert (L : (body +:+ String CR EmptyString) +:+ String LF EmptyString
              = body +:+ CRLF).
  { by rewrite append_assoc. }
  rewrite L, length_append.
  change (String.length CRLF) with 2.
  replace (String.length body + 2 - 2) with (String.length body + 0) by lia.
  rewrite get_append_r, Nat.add_0_r, slice_to_append.
  replace (String.length body + 2 <? 2) with false
    by (symmetry; apply Nat.ltb_ge; lia).
  reflexivity.
Qed.

(** ** Decimal numbers *)

Lemma parse_digits_acc (d : Decimal.uint) (acc : positive) :
  strconv.parse_digits (NilEmpty.string_of_uint d) (Z.pos acc)
  = Some (Z.pos (Pos.of_uint_acc d acc)).
Proof.
  revert acc. induction d as [|d IH|d IH|d IH|d IH|d IH|d IH|d IH|d IH|d IH|d IH];
    intros acc; simpl; [reflexivity | ..];
    unfold strconv.digit_of, byte_val; simpl; rewrite <- IH; f_equal; lia.
Qed.

Lemma parse_digits_uint (d : Decimal.uint) :
  strconv.parse_digits (NilEmpty.string_of_uint d) 0
  = Some (Z.of_N (Pos.of_uint d)).
Proof.
  induction d as [|d IH|d IH|d IH|d IH|d IH|d IH|d IH|d IH|d IH|d IH];
    simpl; [reflexivity | exact IH | ..];
    unfold strconv.digit_of, byte_val; simpl; apply parse_digits_acc.
Qed.

Lemma parse_digits_pos (p : positive) :
  strconv.parse_digits (NilEmpty.string_of_uint (Pos.to_uint p)) 0
  = Some (Z.pos p).
Proof. by rewrite parse_digits_uint, DecimalPos.Unsigned.of_to. Qed.

(** The digits of a positive number start with a digit. *)
Lemma digits_head (p : positive) :
  exists c s, NilEmpty.string_of_uint (Pos.to_uint p) = String c s
              /\ Ascii.eqb c "+" = false /\ Ascii.eqb c "-" = false.
Proof.
  pose proof (DecimalPos.Unsigned.to_uint_nonnil p) as H.
  destruct (Pos.to_uint p); [done | ..]; simpl; eauto.
Qed.

Lemma ParseInt_FormatInt (z : Z) :
  int64 z -> strconv.ParseInt (strconv.FormatInt z) = Some z.
Proof.
  unfold int64, strconv.FormatInt, strconv.MinInt64, strconv.MaxInt64.
  intros Hz. destruct z as [|p|p]; [reflexivity | ..];
    destruct (digits_head p) as (c & s & E & Hp & Hm);
    pose proof (parse_digits_pos p) as Hd;
    unfold Z.to_int, NilEmpty.string_of_int;
    revert E Hd; generalize (NilEmpty.string_of_uint (Pos.to_uint p));
    intros digits -> Hd; unfold strconv.ParseInt.
  - rewrite Hp, Hm. simpl orb. cbv iota. rewrite Hd.
    unfold strconv.MaxInt64.
    destruct (Z.leb_spec (Z.pos p) 9223372036854775807); [done | lia].
  - change (Ascii.eqb "-" "-") with true. rewrite orb_true_r. cbv iota.
    rewrite Hd. unfold strconv.MinInt64.
    destruct (Z.leb_spec (Z.pos p) (- -9223372036854775808)); [done | lia].
Qed.

Lemma has_byte_digits (d : Decimal.uint) :
  has_byte LF (NilEmpty.string_of_uint d) = false.
Proof.
  induction d as [|d IH|d IH|d IH|d IH|d IH|d IH|d IH|d IH|d IH|d IH];
    simpl; auto.
Qed.

Lemma has_byte_FormatInt (z : Z) : has_byte LF (strconv.FormatInt z) = false.
Proof.
  unfold strconv.FormatInt. destruct z; simpl; auto using has_byte_digits.
Qed.

(** ** The codec *)

Lemma RESPValue_nested_ind (P : RESPValue -> Prop) :
  (forall t str int arr null,
      Forall P arr -> P (mkRESPValue t str int arr null)) ->
  forall v, P v.
Proof.
  intros H. fix IH 1. intros [t str int arr null]. apply H.
  induction arr as [|e arr IHarr]; constructor; [apply IH | exact IHarr].
Qed.

Lemma grammar_elems (arr : list RESPValue) :
  foldr (fun e P => grammar_value e /\ P) True arr <-> Forall grammar_value arr.
Proof.
  induction arr as [|e arr IH]; simpl.
  - split; [constructor | done].
  - rewrite Forall_cons, IH. reflexivity.
Qed.

Lemma ReadFull_append (a b : string) :
  ReadFull (String.length a) (a +:+ b) = Ok (a, b).
Proof.
  unfold ReadFull. rewrite length_append.
  replace (String.length a <=? String.length a + String.length b) with true
    by (symmetry; apply Nat.leb_le; lia).
  by rewrite slice_to_append, slice_from_append.
Qed.

Lemma Atoi_Itoa (z : Z) : int64 z -> strconv.Atoi (strconv.Itoa z) = Some z.
Proof. apply ParseInt_FormatInt. Qed.

Lemma wrap64_id (z : Z) : int64 z -> wrap64 z = z.
Proof.
  unfold int64, wrap64, strconv.MinInt64, strconv.MaxInt64. intros H.
  rewrite Z.mod_small; lia.
Qed.

Lemma readBulkString_body (line str rest : string) (size : Z) :
  has_byte LF line = false ->
  strconv.Atoi line = Some size ->
  size = Z.of_nat (String.length str) ->
  (size + 2 <= strconv.MaxInt64)%Z ->
  readBulkString (line +:+ CRLF +:+ str +:+ CRLF +:+ rest)
  = Ok (mkRESPValue BulkString str 0 [] false, rest).
Proof.
  intros Hline Hsize -> Hmax. unfold readBulkString.
  rewrite readLine_CRLF, Hsize by done.
  replace (Z.of_nat (String.length str) <? 0)%Z with false
    by (symmetry; apply Z.ltb_ge; lia).
  rewrite wrap64_id
    by (unfold int64, strconv.MinInt64, strconv.MaxInt64 in *; lia).
  replace (Z.of_nat (String.length str) + 2 <? 0)%Z with false
    by (symmetry; apply Z.ltb_ge; lia).
  replace (Z.to_nat (Z.of_nat (String.length str) + 2))
    with (String.length (str +:+ CRLF))
    by (rewrite length_append; change (String.length CRLF) with 2; lia).
  rewrite <- (append_assoc str CRLF rest), ReadFull_append, Nat2Z.id.
  assert (G0 : String.get (String.length str) (str +:+ CRLF) = Some CR).
  { by rewrite <- (Nat.add_0_r (String.length str)), get_append_r. }
  assert (G1 : String.get (String.length str + 1) (str +:+ CRLF) = Some LF).
  { by rewrite get_append_r. }
  rewrite !bool_decide_eq_true_2, slice_to_append by done. reflexivity.
Qed.

Lemma length_Serialize_pos (v : RESPValue) :
  grammar_value v -> 1 <= String.length (Serialize v).
Proof.
  destruct v as [t str int arr null]. simpl.
  intros [[-> _]|[[-> _]|[[-> _]|[[-> _]|[-> _]]]]]; simpl; lia.
Qed.

Lemma Serialize_parsed (v : RESPValue) : Serialize (parsed v) = Serialize v.
Proof.
  induction v as [t str int arr null IH] using RESPValue_nested_ind.
  simpl.
  destruct (Ascii.eqb t SimpleString) eqn:E1; simpl; [by rewrite E1 |].
  destruct (Ascii.eqb t Error) eqn:E2; simpl; [by rewrite E1, E2 |].
  destruct (Ascii.eqb t Integer) eqn:E3; simpl; [by rewrite E1, E2, E3 |].
  destruct (Ascii.eqb t BulkString) eqn:E4; simpl.
  { destruct null; simpl; by rewrite E1, E2, E3, E4. }
  destruct (Ascii.eqb t Array) eqn:E5; simpl.
  - destruct null; simpl; rewrite E1, E2, E3, E4, E5; [done |].
    assert (E : map Serialize (map parsed arr) = map Serialize arr).
    { induction IH as [|e arr He _ IHarr]; simpl; [done |].
      by rewrite He, IHarr. }
    by rewrite length_map, E.
  - by rewrite E1, E2, E3, E4, E5.
Qed.

Lemma readElems_Serialize (arr : list RESPValue) (fuel : nat) (rest : string) :
  Forall reads_back arr ->
  String.length (concat_strings (map Serialize arr)) <= fuel ->
  readElems (ReadValue_fuel fuel) (length arr)
            (concat_strings (map Serialize arr) +:+ rest)
  = Some (Ok (map parsed arr, rest)).
Proof.
  induction 1 as [|e arr He _ IH]; simpl; intros Hfuel; [done |].
  rewrite length_append in Hfuel.
  rewrite append_assoc, He by lia.
  rewrite IH by lia. reflexivity.
Qed.

Lemma ReadValue_Serialize (v : RESPValue) : grammar_value v -> reads_back v.
Proof.
  induction v as [t str int arr null IH] using RESPValue_nested_ind.
  intros Hg fuel rest Hfuel.
  pose proof (length_Serialize_pos _ Hg) as Hpos.
  destruct fuel as [|fuel]; [lia |].
  simpl in Hg.
  destruct Hg as [[-> Hs]|[[-> Hs]|[[-> Hi]|[[-> Hb]|[-> Ha]]]]].
  - change (Some (readSimpleString ((str +:+ CRLF) +:+ rest)) = 
            Some (Ok (mkRESPValue SimpleString str 0 [] false, rest))).
    unfold readSimpleString. by rewrite append_assoc, readLine_CRLF.
  - change (Some (readError ((str +:+ CRLF) +:+ rest)) = 
            Some (Ok (mkRESPValue Error str 0 [] false, rest))).
    unfold readError. by rewrite append_assoc, readLine_CRLF.
  - change (Some (readInteger ((strconv.FormatInt int +:+ CRLF) +:+ rest)) = 
            Some (Ok (mkRESPValue Integer EmptyString int [] false, rest))).
    unfold readInteger.
    rewrite append_assoc, readLine_CRLF by apply has_byte_FormatInt.
    by rewrite ParseInt_FormatInt.
  - destruct null; [reflexivity |].
    destruct Hb as [? | Hlen]; [done |].
    change (Some (readBulkString
                    ((strconv.Itoa (Z.of_nat (String.length str)) +:+ CRLF
                      +:+ str +:+ CRLF) +:+ rest)) = 
            Some (Ok (mkRESPValue BulkString str 0 [] false, rest))).
    rewrite !append_assoc.
    erewrite readBulkString_body; [reflexivity | | | reflexivity | done].
    + apply has_byte_FormatInt.
    + apply Atoi_Itoa.
      unfold int64, strconv.MinInt64, strconv.MaxInt64 in *; lia.
  - destruct null; [reflexivity |].
    destruct Ha as [? | [Hlen Helems]]; [done |].
    change (S (String.length
                 (strconv.Itoa (Z.of_nat (length arr)) +:+ CRLF
                  +:+ concat_strings (map Serialize arr)))
            <= S fuel) in Hfuel.
    change (readArray (ReadValue_fuel fuel)
              ((strconv.Itoa (Z.of_nat (length arr)) +:+ CRLF
                +:+ concat_strings (map Serialize arr)) +:+ rest) = 
            Some (Ok (mkRESPValue Array EmptyString 0 (map parsed arr) false,
                      rest))).
    rewrite !append_assoc. unfold readArray.
    rewrite readLine_CRLF by apply has_byte_FormatInt.
    rewrite Atoi_Itoa
      by (unfold int64, strconv.MinInt64, strconv.MaxInt64 in *; lia).
    replace (Z.of_nat (length arr) <? 0)%Z with false
      by (symmetry; apply Z.ltb_ge; lia).
    rewrite Nat2Z.id, readElems_Serialize; [reflexivity | |].
    + apply grammar_elems in Helems.
      rewrite Forall_forall in IH, Helems. apply Forall_forall.
      intros e He. apply IH; auto.
    + rewrite !length_append in Hfuel. lia.
Qed.

Lemma roundtrip (v : RESPValue) :
  grammar_value v ->
  ReadValue (Serialize v) = Some (Ok (parsed v, EmptyString)).
Proof.
  intros Hg. unfold ReadValue.
  rewrite <- (append_nil_r (Serialize v)) at 2.
  apply ReadValue_Serialize; [done | lia].
Qed.

(** ** Round trip and framing *)

Ltac grammar :=
  simpl;
  repeat match goal with
         | |- True => exact I
         | |- _ /\ _ => split
         | |- _ = _ => reflexivity
         | |- int64 _ => unfold int64, strconv.MinInt64, strconv.MaxInt64; lia
         | |- (_ <= _)%Z => unfold strconv.MaxInt64; simpl; lia
         | |- _ \/ _ => (left; solve [grammar]) || right
         end.

(** C3: for every value of the RESP grammar, reading the bytes Serialize
    gives returns a value and leaves unread exactly the bytes that follow
    them (none, when the bytes stand alone), and that value serializes to
    the same bytes. *)
Theorem C3_roundtrip (v : RESPValue) :
  grammar_value v ->
  exists v',
    ReadValue (Serialize v) = Some (Ok (v', EmptyString))
    /\ (forall rest, ReadValue (Serialize v +:+ rest) = Some (Ok (v', rest)))
    /\ Serialize v' = Serialize v.
Proof.
  intros Hg. exists (parsed v). split; [by apply roundtrip |]. split.
  - intros rest. unfold ReadValue. apply ReadValue_Serialize; [done |].
    rewrite length_append. lia.
  - apply Serialize_parsed.
Qed.

Lemma C3_roundtrip_witness :
  exists v',
    ReadValue (Serialize sample_value) = Some (Ok (v', EmptyString))
    /\ (forall rest,
          ReadValue (Serialize sample_value +:+ rest) = Some (Ok (v', rest)))
    /\ Serialize v' = Serialize sample_value.
Proof. apply (C3_roundtrip sample_value). unfold sample_value. grammar. Defined.

Lemma get_slice_to (k m : nat) (s : string) :
  k < m -> String.get k (strings.slice_to m s) = String.get k s.
Proof.
  unfold strings.slice_to. revert k s.
  induction m as [|m IH]; intros k [|c s] Hk; simpl; try lia; try done.
  destruct k as [|k]; [done |]. simpl. apply IH. lia.
Qed.

Lemma get_slice_from (n k : nat) (s : string) :
  String.get k (strings.slice_from n s) = String.get (n + k) s.
Proof.
  revert s. induction n as [|n IH]; intros [|c s]; simpl; done.
Qed.

Lemma length_slice_from (n : nat) (s : string) :
  String.length (strings.slice_from n s) = String.length s - n.
Proof. revert s. induction n as [|n IH]; intros [|c s]; simpl; auto. Qed.

Lemma two_bytes (s : string) (a b : ascii) :
  String.length s = 2 -> String.get 0 s = Some a -> String.get 1 s = Some b ->
  s = String a (String b EmptyString).
Proof.
  destruct s as [|x [|y [|z s]]]; simpl; intros; simplify_eq; done.
Qed.

Lemma parse_digits_nonneg (s : string) (acc n : Z) :
  (0 <= acc)%Z -> strconv.parse_digits s acc = Some n -> (0 <= n)%Z.
Proof.
  revert acc. induction s as [|c s IH]; simpl; intros acc Hacc H.
  - by simplify_eq.
  - unfold strconv.digit_of in H.
    destruct (_ && _)%bool eqn:E; [|done].
    apply andb_true_iff in E as [E1%Z.leb_le E2%Z.leb_le].
    eapply IH; [|exact H]. lia.
Qed.

Lemma ParseInt_int64 (s : string) (n : Z) :
  strconv.ParseInt s = Some n -> int64 n.
Proof.
  unfold strconv.ParseInt, int64, strconv.MinInt64, strconv.MaxInt64.
  destruct s as [|c rest]; [done |].
  destruct (if (Ascii.eqb c "+" || Ascii.eqb c "-")%bool then rest
            else String c rest) as [|c' body]; [done |].
  destruct (strconv.parse_digits _ 0) as [un|] eqn:E; [|done].
  apply parse_digits_nonneg in E; [|lia].
  destruct (Ascii.eqb c "-").
  - destruct (Z.leb_spec un (- -9223372036854775808)); intros; simplify_eq. lia.
  - destruct (Z.leb_spec un 9223372036854775807); intros; simplify_eq. lia.
Qed.

Lemma wrap64_overflow (z : Z) :
  (strconv.MaxInt64 < z <= strconv.MaxInt64 + 2)%Z -> (wrap64 z < 0)%Z.
Proof.
  unfold wrap64, strconv.MinInt64, strconv.MaxInt64. intros H.
  replace (z - -9223372036854775808)%Z
    with (z - 9223372036854775808 + 1 * 2 ^ 64)%Z by lia.
  rewrite Z.mod_add, Z.mod_small by lia. lia.
Qed.

(** What readBulkString does once the length line is read. *)
Lemma readBulkString_sized (line body : string) (n : Z) :
  has_byte LF line = false ->
  strconv.Atoi line = Some n ->
  (0 <= n)%Z -> (n + 2 <= strconv.MaxInt64)%Z ->
  readBulkString (line +:+ CRLF +:+ body)
  = match ReadFull (Z.to_nat n + 2) body with
    | Err e => Err e
    | Ok (buf, rest) =>
        if negb (bool_decide (String.get (Z.to_nat n) buf = Some CR))
           || negb (bool_decide (String.get (Z.to_nat n + 1) buf = Some LF))
        then Err InvalidBulkTerminator
        else Ok (mkRESPValue BulkString (strings.slice_to (Z.to_nat n) buf)
                             0 [] false, rest)
    end.
Proof.
  intros Hline Hsize Hn Hmax. unfold readBulkString.
  rewrite readLine_CRLF, Hsize by done.
  replace (n <? 0)%Z with false by (symmetry; apply Z.ltb_ge; lia).
  rewrite wrap64_id
    by (unfold int64, strconv.MinInt64, strconv.MaxInt64 in *; lia).
  replace (n + 2 <? 0)%Z with false by (symmetry; apply Z.ltb_ge; lia).
  replace (Z.to_nat (n + 2)) with (Z.to_nat n + 2) by lia.
  reflexivity.
Qed.

Lemma readBulkString_panic (line body : string) (n : Z) :
  has_byte LF line = false ->
  strconv.Atoi line = Some n ->
  (strconv.MaxInt64 < n + 2)%Z ->
  readBulkString (line +:+ CRLF +:+ body) = Err PanicMakeSlice.
Proof.
  intros Hline Hsize Hmax. unfold readBulkString.
  rewrite readLine_CRLF, Hsize by done.
  pose proof (ParseInt_int64 _ _ Hsize) as [Hlo Hhi].
  replace (n <? 0)%Z with false
    by (symmetry; apply Z.ltb_ge; unfold strconv.MaxInt64 in *; lia).
  replace (wrap64 (n + 2) <? 0)%Z with true; [done |].
  symmetry. apply Z.ltb_lt, wrap64_overflow. lia.
Qed.

(** C4: a bulk string of declared length n >= 0 is read as exactly n bytes
    of payload followed by CR LF (whatever is returned as a value was
    framed so, and what is framed so is returned); when the bytes at
    positions n and n+1 after the length line are there and are not CR LF,
    the result is the framing error of the terminator; the declared length
    -1 gives the null bulk string and leaves the following bytes unread. *)
Theorem C4_readBulkString (line body : string) (n : Z) :
  has_byte LF line = false ->
  strconv.Atoi line = Some n ->
  (n = (-1)%Z ->
   readBulkString (line +:+ CRLF +:+ body)
   = Ok (mkRESPValue BulkString EmptyString 0 [] true, body))
  /\ ((0 <= n)%Z ->
      forall v rest,
        readBulkString (line +:+ CRLF +:+ body) = Ok (v, rest) ->
        body = Str v +:+ CRLF +:+ rest
        /\ Z.of_nat (String.length (Str v)) = n
        /\ Typ v = BulkString /\ Null v = false)
  /\ ((0 <= n)%Z ->
      forall payload rest,
        body = payload +:+ CRLF +:+ rest ->
        Z.of_nat (String.length payload) = n ->
        (n + 2 <= strconv.MaxInt64)%Z ->
        readBulkString (line +:+ CRLF +:+ body)
        = Ok (mkRESPValue BulkString payload 0 [] false, rest))
  /\ ((0 <= n)%Z ->
      Z.to_nat n + 2 <= String.length body ->
      (Z.of_nat (String.length body) <= strconv.MaxInt64)%Z ->
      ~ (String.get (Z.to_nat n) body = Some CR
         /\ String.get (Z.to_nat n + 1) body = Some LF) ->
      readBulkString (line +:+ CRLF +:+ body) = Err InvalidBulkTerminator
      /\ is_framing_error InvalidBulkTerminator = true).
Proof.
  intros Hline Hsize. split; [|split; [|split]].
  - intros ->. unfold readBulkString. by rewrite readLine_CRLF, Hsize.
  - intros Hn v rest H.
    destruct (Z.le_gt_cases (n + 2) strconv.MaxInt64) as [Hmax | Hmax].
    2:{ rewrite (readBulkString_panic line body n) in H by (done || lia). done. }
    rewrite (readBulkString_sized line body n) in H by done.
    unfold ReadFull in H.
    destruct (Z.to_nat n + 2 <=? String.length body) eqn:Hlen;
      [|by destruct body].
    apply Nat.leb_le in Hlen.
    destruct (negb _ || negb _)%bool eqn:Hterm; [done |].
    apply orb_false_iff in Hterm as [H1 H2].
    apply negb_false_iff, bool_decide_eq_true in H1, H2.
    simplify_eq. cbn [Str Typ Null].
    rewrite get_slice_to in H1, H2 by lia.
    set (m := Z.to_nat n) in *.
    assert (E : strings.slice_from m (strings.slice_to (m + 2) body) = CRLF).
    { apply two_bytes.
      - rewrite length_slice_from, length_slice_to; lia.
      - rewrite get_slice_from, Nat.add_0_r, get_slice_to; [done | lia].
      - rewrite get_slice_from, get_slice_to; [done | lia]. }
    split; [|split; [|done]].
    + rewrite <- E, <- append_assoc, slice_to_from, slice_to_from. done.
    + rewrite length_slice_to; [lia |].
      rewrite length_slice_to; lia.
  - intros Hn payload rest -> Hlen Hmax.
    by apply (readBulkString_body line payload rest n).
  - intros Hn Hlen Hmax Hterm.
    rewrite (readBulkString_sized line body n) by (done || lia).
    unfold ReadFull. rewrite (proj2 (Nat.leb_le _ _) Hlen).
    rewrite !get_slice_to by lia.
    destruct (bool_decide_reflect (String.get (Z.to_nat n) body = Some CR));
      [|done].
    destruct (bool_decide_reflect (String.get (Z.to_nat n + 1) body = Some LF));
      [|done].
    tauto.
Qed.

Lemma C4_readBulkString_witness :
  readBulkString ("6" +:+ CRLF +:+ "foobar" +:+ CRLF +:+ "+OK" +:+ CRLF)
  = Ok (mkRESPValue BulkString "foobar" 0 [] false, "+OK" +:+ CRLF)
  /\ readBulkString ("6" +:+ CRLF +:+ "foobarbaz" +:+ CRLF)
     = Err InvalidBulkTerminator
  /\ readBulkString ("-1" +:+ CRLF +:+ "+OK" +:+ CRLF)
     = Ok (mkRESPValue BulkString EmptyString 0 [] true, "+OK" +:+ CRLF).
Proof.
  split; [|split].
  - apply (C4_readBulkString "6" ("foobar" +:+ CRLF +:+ "+OK" +:+ CRLF) 6);
      [reflexivity | reflexivity | lia | reflexivity | reflexivity
      | unfold strconv.MaxInt64; lia].
  - apply (C4_readBulkString "6" ("foobarbaz" +:+ CRLF) 6);
      [reflexivity | reflexivity | lia | simpl; lia
      | unfold strconv.MaxInt64; simpl; lia
      | simpl; intros [? _]; discriminate].
  - apply (C4_readBulkString "-1" ("+OK" +:+ CRLF) (-1));
      [reflexivity | reflexivity | reflexivity].
Defined.

(** ** The recursion budget is never what stops a read *)

Lemma ReadString_LF_length (s line rest : string) :
  ReadString_LF s = Some (line, rest) ->
  String.length s = String.length line + String.length rest
  /\ 1 <= String.length line.
Proof.
  revert line. induction s as [|c s IH]; intros line; simpl; [done |].
  destruct (Ascii.eqb c LF).
  - intros [= <- <-]. simpl. lia.
  - destruct (ReadString_LF s) as [[l r]|]; [|done].
    intros [= <- <-]. destruct (IH l eq_refl). simpl. lia.
Qed.

Lemma readLine_length (s line rest : string) :
  readLine s = Ok (line, rest) -> String.length rest < String.length s.
Proof.
  unfold readLine.
  destruct (ReadString_LF s) as [[l r]|] eqn:E; [|done].
  apply ReadString_LF_length in E as [E1 E2].
  destruct (_ || _); [done |]. intros [= _ <-]. lia.
Qed.

Lemma ReadFull_length (n : nat) (s buf rest : string) :
  ReadFull n s = Ok (buf, rest) -> String.length rest <= String.length s.
Proof.
  unfold ReadFull. destruct (n <=? String.length s); [|by destruct s].
  intros [= _ <-]. rewrite length_slice_from. lia.
Qed.

Lemma readBulkString_length (s : string) (v : RESPValue) (rest : string) :
  readBulkString s = Ok (v, rest) -> String.length rest < String.length s.
Proof.
  unfold readBulkString.
  destruct (readLine s) as [[line r]|] eqn:E; [|done].
  apply readLine_length in E.
  destruct (strconv.Atoi line) as [size|]; [|done].
  destruct (size <? 0)%Z; [intros [= _ <-]; lia |].
  destruct (wrap64 (size + 2) <? 0)%Z; [done |].
  destruct (ReadFull _ r) as [[buf r']|] eqn:F; [|done].
  apply ReadFull_length in F.
  destruct (_ || _); [done |]. intros [= _ <-]. lia.
Qed.

Lemma readElems_length rv (count : nat) (s : string) vals rest :
  consumes rv ->
  readElems rv count s = Some (Ok (vals, rest)) ->
  String.length rest <= String.length s.
Proof.
  intros Hrv. revert s vals rest.
  induction count as [|count IH]; intros s vals rest; simpl.
  - intros [= _ <-]. lia.
  - destruct (rv s) as [[[v s']|]|] eqn:E; [|done..].
    apply Hrv in E.
    destruct (readElems rv count s') as [[[vs s'']|]|] eqn:F; [|done..].
    apply IH in F. intros [= _ <-]. lia.
Qed.

Lemma ReadValue_fuel_consumes (fuel : nat) : consumes (ReadValue_fuel fuel).
Proof.
  induction fuel as [|fuel IH]; intros s v rest; simpl; [done |].
  destruct s as [|typeByte s]; [done |].
  destruct (Ascii.eqb typeByte SimpleString).
  { unfold readSimpleString.
    destruct (readLine s) as [[line r]|] eqn:E; [|done].
    apply readLine_length in E. intros [= _ <-]. simpl. lia. }
  destruct (Ascii.eqb typeByte Error).
  { unfold readError.
    destruct (readLine s) as [[line r]|] eqn:E; [|done].
    apply readLine_length in E. intros [= _ <-]. simpl. lia. }
  destruct (Ascii.eqb typeByte Integer).
  { unfold readInteger.
    destruct (readLine s) as [[line r]|] eqn:E; [|done].
    apply readLine_length in E.
    destruct (strconv.ParseInt line); [|done]. intros [= _ <-]. simpl. lia. }
  destruct (Ascii.eqb typeByte BulkString).
  { intros [= H]. apply readBulkString_length in H. simpl. lia. }
  destruct (Ascii.eqb typeByte Array); [|done].
  unfold readArray.
  destruct (readLine s) as [[line r]|] eqn:E; [|done].
  apply readLine_length in E.
  destruct (strconv.Atoi line) as [count|]; [|done].
  destruct (count <? 0)%Z; [intros [= _ <-]; simpl; lia |].
  destruct (readElems _ _ r) as [[[vs r']|]|] eqn:F; [|done..].
  apply (readElems_length _ _ _ _ _ IH) in F.
  intros [= _ <-]. simpl. lia.
Qed.

Lemma readElems_enough rv (bound : nat) (count : nat) (s : string) :
  consumes rv ->
  (forall s', String.length s' <= bound -> rv s' <> None) ->
  String.length s <= bound ->
  readElems rv count s <> None.
Proof.
  intros Hrv Hsome. revert s.
  induction count as [|count IH]; intros s Hs; simpl; [done |].
  pose proof (Hsome s Hs) as Hne.
  destruct (rv s) as [[[v s']|]|] eqn:E; [|done..].
  apply Hrv in E.
  specialize (IH s' ltac:(lia)).
  by destruct (readElems rv count s') as [[[vs s'']|]|].
Qed.

Lemma ReadValue_fuel_enough (fuel : nat) (s : string) :
  String.length s < fuel -> ReadValue_fuel fuel s <> None.
Proof.
  revert s. induction fuel as [|fuel IH]; intros s Hs; [lia |]. simpl.
  destruct s as [|typeByte s]; [done |]. simpl in Hs.
  repeat (destruct (Ascii.eqb typeByte _); [done |]).
  destruct (Ascii.eqb typeByte Array); [|done].
  unfold readArray.
  destruct (readLine s) as [[line r]|] eqn:E; [|done].
  apply readLine_length in E.
  destruct (strconv.Atoi line) as [count|]; [|done].
  destruct (count <? 0)%Z; [done |].
  pose proof (readElems_enough (ReadValue_fuel fuel) (String.length r)
                (Z.to_nat count) r (ReadValue_fuel_consumes fuel)) as H.
  destruct (readElems _ _ r) as [[[vs r']|]|]; [done | done |].
  exfalso. apply H; [|lia | done].
  intros s' Hs'. apply IH. lia.
Qed.

(** ReadValue always returns: a value with the bytes after it, or an
    error. *)
Lemma ReadValue_total (s : string) : exists r, ReadValue s = Some r.
Proof.
  pose proof (ReadValue_fuel_enough (S (String.length s)) s ltac:(lia)) as H.
  unfold ReadValue. destruct (ReadValue_fuel _ s); [eauto | done].
Qed.

(** The relay loop ends on an error of ReadValue (the end of the stream
    at the latest), never on its budget. *)
Lemma proxyServerResponses_ends (nodes : gmap string string) (server : string) :
  exists written err,
    Proxy.proxyServerResponses nodes server = (written, Some err).
Proof.
  unfold Proxy.proxyServerResponses.
  assert (H : forall fuel s,
             String.length s < fuel ->
             exists written err,
               Proxy.proxyServerResponses_loop fuel nodes s
               = (written, Some err)).
  { induction fuel as [|fuel IH]; intros s Hs; [lia |]. simpl.
    destruct (ReadValue_total s) as [r Hr]. rewrite Hr.
    destruct r as [[v s']|e]; [|eauto].
    apply ReadValue_fuel_consumes in Hr.
    destruct (IH s' ltac:(lia)) as (written & err & ->). eauto. }
  apply H. lia.
Qed.

(** ** The redirect rewriter *)

Lemma IsRedirectError_spec (v : RESPValue) :
  IsRedirectError v = true <->
  Typ v = Error
  /\ ((exists rest, Str v = "MOVED " +:+ rest)
      \/ (exists rest, Str v = "ASK " +:+ rest)).
Proof.
  unfold IsRedirectError.
  destruct (Ascii.eqb_spec (Typ v) Error) as [Ht | Ht]; simpl.
  - rewrite orb_true_iff, !HasPrefix_spec. tauto.
  - split; [done | tauto].
Qed.

(** C5: IsRedirectError is true exactly for the values of type Error whose
    payload starts with the six bytes of MOVED and a space or the four bytes
    of ASK and a space; so it is false for every value of another type, for
    the error ERR something, and for a keyword in lower case or without its
    space. *)
Theorem C5_IsRedirectError :
  (forall v,
      IsRedirectError v = true <->
      Typ v = Error
      /\ ((exists rest, Str v = "MOVED " +:+ rest)
          \/ (exists rest, Str v = "ASK " +:+ rest)))
  /\ (forall v, Typ v <> Error -> IsRedirectError v = false)
  /\ IsRedirectError (errorValue "ERR something") = false
  /\ IsRedirectError (errorValue "moved 3999 10.0.0.2:6379") = false
  /\ IsRedirectError (errorValue "MOVED") = false.
Proof.
  split; [exact IsRedirectError_spec |]. split; [|by repeat split].
  intros v Ht. apply not_true_iff_false. intros H.
  apply IsRedirectError_spec in H as [H _]. done.
Qed.

Lemma C5_IsRedirectError_witness :
  IsRedirectError (mkRESPValue SimpleString "MOVED 3999 10.0.0.2:6379" 0 [] false)
  = false.
Proof. apply (proj1 (proj2 C5_IsRedirectError)). discriminate. Defined.

(** C6: when the payload does not split into exactly three fields, or its
    third field is not a key of the node map, RewriteRedirectError returns
    false and the value is as it was, payload included; so it is with the
    empty map, whatever the payload. *)
Theorem C6_rewrite_miss :
  (forall (v : RESPValue) (nodeMap : gmap string string),
      length (strings.Fields (Str v)) <> 3
      \/ (forall target,
             strings.Fields (Str v) !! 2 = Some target ->
             nodeMap !! target = None) ->
      RewriteRedirectError nodeMap v = (false, v))
  /\ (forall v : RESPValue, RewriteRedirectError ∅ v = (false, v)).
Proof.
  assert (H : forall (v : RESPValue) (nodeMap : gmap string string),
             length (strings.Fields (Str v)) <> 3
             \/ (forall target,
                    strings.Fields (Str v) !! 2 = Some target ->
                    nodeMap !! target = None) ->
             RewriteRedirectError nodeMap v = (false, v)).
  { intros v nodeMap Hmiss. unfold RewriteRedirectError.
    destruct (IsRedirectError v); [simpl | done].
    destruct (strings.Fields (Str v)) as [|a [|b [|c [|d l]]]]; try done.
    destruct Hmiss as [Hlen | Hkey]; [done |].
    by rewrite (Hkey c). }
  split; [exact H |].
  intros v. apply H. right. intros target _. apply lookup_empty.
Qed.

Lemma C6_rewrite_miss_witness :
  RewriteRedirectError {[ "10.128.0.5:6379" := "127.0.0.1:6381" ]}
                       (errorValue "MOVED 3999 10.128.0.9:6379")
  = (false, errorValue "MOVED 3999 10.128.0.9:6379")
  /\ RewriteRedirectError {[ "10.128.0.5:6379" := "127.0.0.1:6381" ]}
                          (errorValue "MOVED 3999")
     = (false, errorValue "MOVED 3999").
Proof.
  split; apply (proj1 C6_rewrite_miss).
  - right. intros target [= <-]. by vm_compute.
  - left. by vm_compute.
Defined.

(** A byte strictly between the space and DEL starts no space rune. *)
Lemma space_width_graphic (c : ascii) (s : string) :
  (32 < byte_val c < 128)%Z -> strings.space_width (String c s) = 0.
Proof.
  intros Hc. unfold strings.space_width.
  replace (9 <=? byte_val c)%Z with true by (symmetry; apply Z.leb_le; lia).
  replace (byte_val c <=? 13)%Z with false by (symmetry; apply Z.leb_gt; lia).
  replace (byte_val c =? 32)%Z with false by (symmetry; apply Z.eqb_neq; lia).
  replace (byte_val c =? 194)%Z with false by (symmetry; apply Z.eqb_neq; lia).
  replace (byte_val c =? 225)%Z with false by (symmetry; apply Z.eqb_neq; lia).
  replace (byte_val c =? 226)%Z with false by (symmetry; apply Z.eqb_neq; lia).
  replace (byte_val c =? 227)%Z with false by (symmetry; apply Z.eqb_neq; lia).
  simpl. by destruct s as [|c1 [|c2 s]].
Qed.

Lemma scan_fields_graphic (c : ascii) (s : string) :
  (32 < byte_val c < 128)%Z ->
  strings.scan_fields 0 (String c s)
  = (String c (strings.scan_fields 0 s).1, (strings.scan_fields 0 s).2).
Proof.
  intros Hc. cbn [strings.scan_fields].
  rewrite space_width_graphic by done.
  by destruct (strings.scan_fields 0 s).
Qed.

Lemma scan_fields_space (s : string) :
  strings.scan_fields 0 (String " " s) = (EmptyString, strings.Fields s).
Proof.
  cbn [strings.scan_fields].
  change (strings.space_width (String " " s)) with 1.
  unfold strings.Fields. by destruct (strings.scan_fields 0 s).
Qed.

Lemma Fields_MOVED (rest : string) :
  strings.Fields ("MOVED " +:+ rest) = "MOVED" :: strings.Fields rest.
Proof.
  unfold strings.Fields at 1.
  change ("MOVED " +:+ rest)
    with (String "M" (String "O" (String "V" (String "E" (String "D"
            (String " " rest)))))).
  rewrite !scan_fields_graphic by (vm_compute; split; reflexivity).
  by rewrite scan_fields_space.
Qed.

Lemma Fields_ASK (rest : string) :
  strings.Fields ("ASK " +:+ rest) = "ASK" :: strings.Fields rest.
Proof.
  unfold strings.Fields at 1.
  change ("ASK " +:+ rest)
    with (String "A" (String "S" (String "K" (String " " rest)))).
  rewrite !scan_fields_graphic by (vm_compute; split; reflexivity).
  by rewrite scan_fields_space.
Qed.

(** C7: when RewriteRedirectError returns true, the payload had exactly
    three fields, the keyword (MOVED or ASK), the slot and a target that
    is a key of the node map, and the payload is now the keyword, one
    space, the slot, one space and the local address of the target, the
    other fields of the value being untouched; a redirect with three
    fields whose target is a key is rewritten so; and MOVED 3999
    10.128.0.5:6379 becomes MOVED 3999 127.0.0.1:6381 under the map that
    sends 10.128.0.5:6379 to 127.0.0.1:6381. *)
Theorem C7_rewrite_hit :
  (forall (v v' : RESPValue) (nodeMap : gmap string string),
      RewriteRedirectError nodeMap v = (true, v') ->
      exists keyword slot target localAddr,
        strings.Fields (Str v) = [keyword; slot; target]
        /\ (keyword = "MOVED" \/ keyword = "ASK")
        /\ nodeMap !! target = Some localAddr
        /\ Str v' = keyword +:+ " " +:+ slot +:+ " " +:+ localAddr
        /\ v' = withStr v (Str v'))
  /\ (forall (v : RESPValue) (nodeMap : gmap string string)
             keyword slot target localAddr,
         IsRedirectError v = true ->
         strings.Fields (Str v) = [keyword; slot; target] ->
         nodeMap !! target = Some localAddr ->
         RewriteRedirectError nodeMap v
         = (true, withStr v (keyword +:+ " " +:+ slot +:+ " " +:+ localAddr)))
  /\ RewriteRedirectError {[ "10.128.0.5:6379" := "127.0.0.1:6381" ]}
                          (errorValue "MOVED 3999 10.128.0.5:6379")
     = (true, errorValue "MOVED 3999 127.0.0.1:6381").
Proof.
  split; [|split; [|by vm_compute]].
  - intros v v' nodeMap. unfold RewriteRedirectError.
    destruct (IsRedirectError v) eqn:Hr; [simpl | done].
    destruct (strings.Fields (Str v)) as [|kw [|slot [|target [|d l]]]] eqn:Hf;
      try done.
    destruct (nodeMap !! target) as [localAddr|] eqn:Hl; [|done].
    intros [= <-]. exists kw, slot, target, localAddr.
    apply IsRedirectError_spec in Hr as [Ht Hp].
    repeat split; try done.
    destruct Hp as [[rest E] | [rest E]]; rewrite E in Hf.
    + rewrite Fields_MOVED in Hf. left. congruence.
    + rewrite Fields_ASK in Hf. right. congruence.
  - intros v nodeMap kw slot target localAddr Hr Hf Hl.
    unfold RewriteRedirectError. by rewrite Hr, Hf, Hl.
Qed.

Lemma C7_rewrite_hit_witness :
  exists keyword slot target localAddr,
    strings.Fields "ASK 12 10.0.0.7:6379" = [keyword; slot; target]
    /\ (keyword = "MOVED" \/ keyword = "ASK")
    /\ ({[ "10.0.0.7:6379" := "127.0.0.1:6390" ]} : gmap string string)
       !! target = Some localAddr
    /\ "ASK 12 127.0.0.1:6390"
       = keyword +:+ " " +:+ slot +:+ " " +:+ localAddr
    /\ errorValue "ASK 12 127.0.0.1:6390"
       = withStr (errorValue "ASK 12 10.0.0.7:6379") "ASK 12 127.0.0.1:6390".
Proof.
  apply (proj1 C7_rewrite_hit (errorValue "ASK 12 10.0.0.7:6379")
                              (errorValue "ASK 12 127.0.0.1:6390")).
  by vm_compute.
Defined.

(** ** Negative lengths *)

Lemma ParseInt_FormatInt_range (z : Z) :
  ~ int64 z -> strconv.ParseInt (strconv.FormatInt z) = None.
Proof.
  unfold int64, strconv.FormatInt, strconv.MinInt64, strconv.MaxInt64.
  intros Hz. destruct z as [|p|p]; [lia | ..];
    destruct (digits_head p) as (c & s & E & Hp & Hm);
    pose proof (parse_digits_pos p) as Hd;
    unfold Z.to_int, NilEmpty.string_of_int;
    revert E Hd; generalize (NilEmpty.string_of_uint (Pos.to_uint p));
    intros digits -> Hd; unfold strconv.ParseInt.
  - rewrite Hp, Hm. simpl orb. cbv iota. rewrite Hd.
    unfold strconv.MaxInt64.
    destruct (Z.leb_spec (Z.pos p) 9223372036854775807); [lia | done].
  - change (Ascii.eqb "-" "-") with true. rewrite orb_true_r. cbv iota.
    rewrite Hd. unfold strconv.MinInt64.
    destruct (Z.leb_spec (Z.pos p) (- -9223372036854775808)); [lia | done].
Qed.

(** C10, as stated, fails: the declared length -9223372036854775809 is
    negative, and ReadValue returns the error of the size line, for a bulk
    string and for an array, not the null value. *)
Lemma C10_counterexample :
  ReadValue ("$-9223372036854775809" +:+ CRLF)
  = Some (Err (InvalidBulkSize "-9223372036854775809"))
  /\ ReadValue ("*-9223372036854775809" +:+ CRLF)
     = Some (Err (InvalidArrayCount "-9223372036854775809")).
Proof. split; reflexivity. Qed.

(** C10, amended: for every negative length or count that strconv.Atoi
    accepts, which are those of the signed 64-bit range, ReadValue returns
    the null bulk string or the null array and leaves the bytes after the
    length line unread, and the value serializes as the canonical $-1 or
    *-1; the decimal text of a negative number below that range is
    rejected as an invalid size or count. *)
Theorem C10_negative_lengths :
  (forall (line rest : string) (n : Z),
      has_byte LF line = false ->
      strconv.Atoi line = Some n ->
      (n < 0)%Z ->
      ReadValue (String "$" (line +:+ CRLF +:+ rest))
      = Some (Ok (nullBulkString, rest))
      /\ ReadValue (String "*" (line +:+ CRLF +:+ rest))
         = Some (Ok (nullArray, rest)))
  /\ Serialize nullBulkString = "$-1" +:+ CRLF
  /\ Serialize nullArray = "*-1" +:+ CRLF
  /\ (forall n : Z,
         (strconv.MinInt64 <= n < 0)%Z ->
         has_byte LF (strconv.Itoa n) = false
         /\ strconv.Atoi (strconv.Itoa n) = Some n)
  /\ (forall (n : Z) (rest : string),
         (n < strconv.MinInt64)%Z ->
         ReadValue (String "$" (strconv.Itoa n +:+ CRLF +:+ rest))
         = Some (Err (InvalidBulkSize (strconv.Itoa n)))
         /\ ReadValue (String "*" (strconv.Itoa n +:+ CRLF +:+ rest))
            = Some (Err (InvalidArrayCount (strconv.Itoa n)))).
Proof.
  split; [|split; [done | split; [done | split]]].
  - intros line rest n Hline Hsize Hn.
    apply Z.ltb_lt in Hn.
    unfold ReadValue. cbn [ReadValue_fuel String.length].
    change (Ascii.eqb "$" SimpleString) with false.
    change (Ascii.eqb "$" Error) with false.
    change (Ascii.eqb "$" Integer) with false.
    change (Ascii.eqb "$" BulkString) with true.
    change (Ascii.eqb "*" SimpleString) with false.
    change (Ascii.eqb "*" Error) with false.
    change (Ascii.eqb "*" Integer) with false.
    change (Ascii.eqb "*" BulkString) with false.
    change (Ascii.eqb "*" Array) with true.
    cbv iota. unfold readBulkString, readArray.
    by rewrite readLine_CRLF, Hsize, Hn.
  - intros n Hn. split; [apply has_byte_FormatInt |].
    apply Atoi_Itoa. unfold int64, strconv.MaxInt64, strconv.MinInt64 in *. lia.
  - intros n rest Hn.
    assert (Hnone : strconv.Atoi (strconv.Itoa n) = None).
    { apply ParseInt_FormatInt_range.
      unfold int64, strconv.MinInt64 in *. lia. }
    unfold ReadValue. cbn [ReadValue_fuel String.length].
    change (Ascii.eqb "$" SimpleString) with false.
    change (Ascii.eqb "$" Error) with false.
    change (Ascii.eqb "$" Integer) with false.
    change (Ascii.eqb "$" BulkString) with true.
    change (Ascii.eqb "*" SimpleString) with false.
    change (Ascii.eqb "*" Error) with false.
    change (Ascii.eqb "*" Integer) with false.
    change (Ascii.eqb "*" BulkString) with false.
    change (Ascii.eqb "*" Array) with true.
    cbv iota. unfold readBulkString, readArray.
    by rewrite readLine_CRLF, Hnone by apply has_byte_FormatInt.
Qed.

Lemma C10_negative_lengths_witness :
  ReadValue (String "$" ("-5" +:+ CRLF +:+ "+OK" +:+ CRLF))
  = Some (Ok (nullBulkString, "+OK" +:+ CRLF))
  /\ ReadValue (String "*" ("-5" +:+ CRLF +:+ "+OK" +:+ CRLF))
     = Some (Ok (nullArray, "+OK" +:+ CRLF)).
Proof.
  apply (proj1 C10_negative_lengths "-5" ("+OK" +:+ CRLF) (-5)%Z);
    [reflexivity | reflexivity | lia].
Defined.

(** ** Searching in strings *)

(** Where [strings.Index] lands: on the first offset at which the substring
    starts, or on -1 when there is no such offset. *)
Lemma Index_from_spec (s substr : string) (i : Z) :
  (strings.Index_from i s substr = (-1)%Z
   /\ forall j, j <= String.length s ->
                strings.HasPrefix (strings.slice_from j s) substr = false)
  \/ (exists k,
         strings.Index_from i s substr = (i + Z.of_nat k)%Z
         /\ k <= String.length s
         /\ strings.HasPrefix (strings.slice_from k s) substr = true
         /\ forall j, j < k ->
                      strings.HasPrefix (strings.slice_from j s) substr = false).
Proof.
  revert i. induction s as [|x s IH]; intros i; cbn [strings.Index_from].
  - destruct (strings.HasPrefix EmptyString substr) eqn:E.
    + right. exists 0. repeat split; [lia | done | done | lia].
    + left. split; [done |]. intros j Hj. by destruct j.
  - destruct (strings.HasPrefix (String x s) substr) eqn:E.
    + right. exists 0. repeat split; [lia | simpl; lia | done | lia].
    + destruct (IH (i + 1)%Z) as [[Hn Hall] | (k & Hk & Hlen & Hpre & Hmin)].
      * left. split; [done |]. intros [|j] Hj; [done |].
        apply Hall. simpl in Hj. lia.
      * right. exists (S k). repeat split.
        -- rewrite Hk. lia.
        -- simpl. lia.
        -- done.
        -- intros [|j] Hj; [done |]. apply Hmin. lia.
Qed.

Lemma Contains_spec (s substr : string) :
  strings.Contains s substr = true <->
  exists before after, s = before +:+ substr +:+ after.
Proof.
  unfold strings.Contains, strings.Index. rewrite Z.leb_le. split.
  - intros H.
    destruct (Index_from_spec s substr 0) as [[Hn _] | (k & _ & _ & Hpre & _)];
      [lia |].
    apply HasPrefix_spec in Hpre as [after E].
    exists (strings.slice_to k s), after.
    by rewrite <- E, slice_to_from.
  - intros (before & after & ->).
    destruct (Index_from_spec (before +:+ substr +:+ after) substr 0)
      as [[_ Hall] | (k & -> & _)]; [|lia].
    specialize (Hall (String.length before)).
    rewrite slice_from_append in Hall.
    rewrite (proj2 (HasPrefix_spec _ _)) in Hall by eauto.
    rewrite length_append in Hall. discriminate Hall. lia.
Qed.

Lemma HasPrefix_byte (s : string) (c : ascii) :
  strings.HasPrefix s (String c EmptyString) = true <->
  exists t, s = String c t.
Proof. rewrite HasPrefix_spec. reflexivity. Qed.

Lemma has_byte_slice_to (c : ascii) (s : string) (k : nat) :
  (forall j, j < k ->
             strings.HasPrefix (strings.slice_from j s) (String c EmptyString)
             = false) ->
  has_byte c (strings.slice_to k s) = false.
Proof.
  unfold strings.slice_to. revert s.
  induction k as [|k IH]; intros [|x s] H; simpl; try done.
  rewrite IH.
  - rewrite orb_false_r. apply not_true_iff_false. intros E%Ascii.eqb_eq.
    specialize (H 0 ltac:(lia)). simpl in H.
    rewrite (proj2 (HasPrefix_byte _ _)) in H; [done | subst; eauto].
  - intros j Hj. apply (H (S j)). lia.
Qed.

(** What [cut_at] keeps for a separator of one byte: the part before its
    first occurrence. *)
Lemma cut_at_byte (s : string) (c : ascii) :
  exists suffix,
    s = cut_at s (String c EmptyString) +:+ suffix
    /\ has_byte c (cut_at s (String c EmptyString)) = false
    /\ (suffix = EmptyString \/ exists t, suffix = String c t).
Proof.
  unfold cut_at, strings.Index.
  destruct (Index_from_spec s (String c EmptyString) 0)
    as [[-> Hall] | (k & -> & Hlen & Hpre & Hmin)]; simpl negb.
  - exists EmptyString. rewrite append_nil_r. repeat split; [|by left].
    rewrite <- (slice_to_append s EmptyString), append_nil_r.
    apply has_byte_slice_to. intros j Hj. apply Hall. lia.
  - replace (0 + Z.of_nat k =? -1)%Z with false
      by (symmetry; apply Z.eqb_neq; lia).
    simpl negb. cbv iota. rewrite Z.add_0_l, Nat2Z.id.
    exists (strings.slice_from k s). rewrite slice_to_from.
    repeat split; [by apply has_byte_slice_to |].
    right. by apply HasPrefix_byte.
Qed.

Lemma has_byte_prefix (c : ascii) (a b : string) :
  has_byte c (a +:+ b) = false -> has_byte c a = false.
Proof. rewrite has_byte_append. by intros [? _]%orb_false_iff. Qed.

(** ** Trimming does not change the fields *)

Lemma Fields_unfold (s : string) :
  strings.Fields s = fields_of (strings.scan_fields 0 s).
Proof. unfold strings.Fields, fields_of. by destruct (strings.scan_fields 0 s). Qed.

Lemma scan_fields_skip (c : ascii) (s : string) (k : nat) :
  strings.scan_fields (S k) (String c s)
  = (EmptyString, fields_of (strings.scan_fields k s)).
Proof.
  cbn [strings.scan_fields]. unfold fields_of.
  by destruct (strings.scan_fields k s).
Qed.

Lemma scan_fields_head (c : ascii) (s : string) :
  strings.scan_fields 0 (String c s)
  = match strings.space_width (String c s) with
    | O => (String c (strings.scan_fields 0 s).1, (strings.scan_fields 0 s).2)
    | S k => (EmptyString, fields_of (strings.scan_fields k s))
    end.
Proof.
  cbn [strings.scan_fields]. unfold fields_of.
  destruct (strings.space_width (String c s)) as [|k].
  - by destruct (strings.scan_fields 0 s).
  - by destruct (strings.scan_fields k s).
Qed.

Lemma Fields_trim_left (s : string) (k : nat) :
  fields_of (strings.scan_fields k s) = strings.Fields (strings.trim_left k s).
Proof.
  revert k. induction s as [|c s IH]; intros k; [by destruct k |].
  destruct k as [|k].
  - rewrite Fields_unfold. cbn [strings.trim_left].
    destruct (strings.space_width (String c s)) as [|w] eqn:E; [done |].
    rewrite scan_fields_head, E, <- Fields_unfold. apply IH.
  - rewrite scan_fields_skip. cbn [strings.trim_left]. apply IH.
Qed.

Lemma space_width_le (s : string) :
  strings.space_width s <= String.length s.
Proof.
  unfold strings.space_width.
  destruct s as [|c0 [|c1 [|c2 s]]]; simpl;
    repeat match goal with
           | |- context [if ?b then _ else _] => destruct b
           end; lia.
Qed.

Lemma scan_fields_skip_all (s : string) (k : nat) :
  String.length s <= k -> strings.scan_fields k s = (EmptyString, []).
Proof.
  revert k. induction s as [|c s IH]; intros k Hk; [done |].
  destruct k as [|k]; simpl in Hk; [lia |].
  rewrite scan_fields_skip, IH by lia. done.
Qed.

Lemma scan_fields_rune (e : string) :
  e <> EmptyString ->
  strings.space_width e = String.length e ->
  strings.scan_fields 0 e = (EmptyString, []).
Proof.
  destruct e as [|c e]; [done |]. intros _ H.
  rewrite scan_fields_head, H. simpl.
  rewrite scan_fields_skip_all by lia. done.
Qed.

Lemma not_continuation (b : Z) :
  negb ((128 <=? b)%Z && (b <=? 191)%Z) = true ->
  (b =? 133)%Z = false /\ (b =? 160)%Z = false /\ (b =? 154)%Z = false
  /\ (b =? 128)%Z = false /\ (b =? 129)%Z = false /\ (b =? 168)%Z = false
  /\ (b =? 169)%Z = false /\ (b =? 175)%Z = false /\ (b =? 159)%Z = false
  /\ ((128 <=? b)%Z && (b <=? 138)%Z) = false.
Proof.
  intros H. apply negb_true_iff, andb_false_iff in H.
  repeat split; try (apply Z.eqb_neq; intros ->; by destruct H).
  apply andb_false_iff.
  destruct H as [H | H]; [by left |]. right.
  apply Z.leb_gt. apply Z.leb_gt in H. lia.
Qed.

(** A rune that starts after [a] does not change the space rune, if any,
    at the head of [a]. *)
Lemma space_width_append (a e : string) :
  a <> EmptyString -> starts_rune e = true ->
  strings.space_width (a +:+ e) = strings.space_width a.
Proof.
  intros Ha He. destruct a as [|c0 [|c1 [|c2 a]]]; [done | | | done].
  - destruct e as [|c1 e]; [done |]. simpl in He.
    destruct (not_continuation _ He)
      as (E1 & E2 & E3 & E4 & E5 & _).
    simpl String.append. unfold strings.space_width.
    rewrite E1, E2, E3, E4, E5. simpl.
    rewrite !andb_false_r. simpl.
    destruct (_ || _)%bool; [done |]. by destruct e.
  - destruct e as [|c2 e]; [done |]. simpl in He.
    destruct (not_continuation _ He)
      as (_ & _ & _ & E4 & _ & E6 & E7 & E8 & E9 & E10).
    simpl String.append. unfold strings.space_width.
    rewrite E4, E6, E7, E8, E9, E10. simpl.
    rewrite !andb_false_r. simpl.
    destruct (_ || _)%bool; [done |]. by destruct (_ && _)%bool.
Qed.

Lemma scan_fields_append (t e : string) (k : nat) :
  k <= String.length t ->
  starts_rune e = true ->
  strings.scan_fields 0 e = (EmptyString, []) ->
  strings.scan_fields k (t +:+ e) = strings.scan_fields k t.
Proof.
  intros Hk He Hscan. revert k Hk.
  induction t as [|c t IH]; intros k Hk.
  - simpl in Hk. by replace k with 0 by lia.
  - simpl String.append. destruct k as [|k].
    + rewrite !scan_fields_head.
      change (String c (t +:+ e)) with (String c t +:+ e).
      rewrite space_width_append by done.
      pose proof (space_width_le (String c t)) as Hw.
      destruct (strings.space_width (String c t)) as [|w].
      * by rewrite IH by lia.
      * simpl in Hw. by rewrite IH by lia.
    + rewrite !scan_fields_skip. simpl in Hk. by rewrite IH by lia.
Qed.

Lemma Fields_append_rune (t e : string) :
  e <> EmptyString ->
  strings.space_width e = String.length e ->
  strings.Fields (t +:+ e) = strings.Fields t.
Proof.
  intros Hne Hw. rewrite !Fields_unfold.
  rewrite scan_fields_append; [done | lia | | by apply scan_fields_rune].
  destruct e as [|c e]; [done |]. simpl.
  (* the head of a space rune is a space of ASCII or a lead byte *)
  unfold strings.space_width in Hw.
  apply negb_true_iff, andb_false_iff.
  destruct (Z.leb_spec 128 (byte_val c)) as [H1 | H1]; [|by left]. right.
  apply Z.leb_gt.
  destruct ((9 <=? byte_val c)%Z && (byte_val c <=? 13)%Z
            || (byte_val c =? 32)%Z) eqn:E1.
  { apply orb_true_iff in E1 as [E1 | E1%Z.eqb_eq]; [|lia].
    apply andb_true_iff in E1 as [_ E1%Z.leb_le]. lia. }
  destruct e as [|c1 e]; [discriminate Hw |].
  destruct ((byte_val c =? 194)%Z && _) eqn:E2.
  { apply andb_true_iff in E2 as [E2%Z.eqb_eq _]. lia. }
  destruct e as [|c2 e]; [discriminate Hw |].
  match type of Hw with
  | context [if ?b then 3 else 0] => destruct b eqn:E3
  end; [|discriminate Hw].
  repeat (apply orb_true_iff in E3 as [E3 | E3]);
    repeat (apply andb_true_iff in E3 as [E3 _]);
    apply Z.eqb_eq in E3; lia.
Qed.

Lemma rev_app_spec (s acc : string) :
  String.rev_app s acc = String.rev s +:+ acc.
Proof.
  unfold String.rev. revert acc.
  induction s as [|c s IH]; intros acc; simpl; [done |].
  rewrite (IH (String c acc)), (IH (String c EmptyString)).
  by rewrite append_assoc.
Qed.

Lemma rev_cons (c : ascii) (s : string) :
  String.rev (String c s) = String.rev s +:+ String c EmptyString.
Proof. unfold String.rev at 1. simpl. apply rev_app_spec. Qed.

Lemma rev_append (a b : string) :
  String.rev (a +:+ b) = String.rev b +:+ String.rev a.
Proof.
  induction a as [|c a IH]; simpl.
  - by rewrite append_nil_r.
  - by rewrite !rev_cons, IH, append_assoc.
Qed.

Lemma rev_involutive (s : string) : String.rev (String.rev s) = s.
Proof.
  induction s as [|c s IH]; [done |].
  by rewrite rev_cons, rev_append, IH.
Qed.

(** A space rune found at the end: the bytes it covers and what is before
    them. *)
Lemma space_width_rev_spec (r : string) (k : nat) :
  strings.space_width_rev r = S k ->
  exists e,
    r = String.rev e +:+ strings.slice_from (S k) r
    /\ e <> EmptyString
    /\ strings.space_width e = String.length e.
Proof.
  unfold strings.space_width_rev.
  destruct r as [|c0 r1]; [done |].
  destruct (Nat.eqb_spec (strings.space_width (String c0 EmptyString)) 1)
    as [E1 | _].
  { intros [= <-]. exists (String c0 EmptyString). by rewrite E1. }
  destruct r1 as [|c1 r2]; [done |].
  destruct (Nat.eqb_spec
              (strings.space_width (String c1 (String c0 EmptyString))) 2)
    as [E2 | _].
  { intros [= <-]. exists (String c1 (String c0 EmptyString)). by rewrite E2. }
  destruct r2 as [|c2 r3]; [done |].
  destruct (Nat.eqb_spec
              (strings.space_width
                 (String c2 (String c1 (String c0 EmptyString)))) 3)
    as [E3 | _]; [|done].
  intros [= <-]. exists (String c2 (String c1 (String c0 EmptyString))).
  by rewrite E3.
Qed.

Lemma Fields_trim_right (r : string) (k : nat) :
  strings.Fields (String.rev (strings.trim_left_rev k r))
  = strings.Fields (String.rev (strings.slice_from k r)).
Proof.
  revert k. induction r as [|c r IH]; intros k; [by destruct k |].
  destruct k as [|k]; cbn [strings.trim_left_rev strings.slice_from];
    [|apply IH].
  destruct (strings.space_width_rev (String c r)) as [|w] eqn:E; [done |].
  rewrite IH.
  destruct (space_width_rev_spec _ _ E) as (e & Hr & Hne & Hw).
  cbn [strings.slice_from] in Hr.
  rewrite Hr, rev_append, rev_involutive.
  by rewrite Fields_append_rune.
Qed.

(** The fields of a line are those of the trimmed line. *)
Lemma Fields_TrimSpace (s : string) :
  strings.Fields (strings.TrimSpace s) = strings.Fields s.
Proof.
  unfold strings.TrimSpace.
  rewrite Fields_trim_right. cbn [strings.slice_from].
  by rewrite rev_involutive, <- Fields_trim_left, Fields_unfold.
Qed.

(** ** The cluster-node parser *)

(** C8: a line with at least eight white-space-separated fields is parsed
    to a node with the first field as its id and the third as its flags;
    its address is the second field cut before its first at-sign and then
    before its first comma (so it holds neither, and what was cut is
    nothing or starts with one of them); its role is master exactly when
    the flags field holds the substring master, and slave otherwise; the
    node of every line of the output is in the list parseClusterNodes
    returns; the example line of the format gives the address
    127.0.0.1:30004 and the role slave. *)
Theorem C8_parseClusterLine :
  (forall (line nodeID addressField flags : string) (more : list string),
      strings.Fields line = nodeID :: addressField :: flags :: more ->
      5 <= length more ->
      exists node,
        parseClusterLine line = Some node
        /\ ID node = nodeID /\ Flags node = flags
        /\ (exists suffix,
               addressField = Address node +:+ suffix
               /\ (suffix = EmptyString
                   \/ (exists t, suffix = String "@" t)
                   \/ (exists t, suffix = String "," t)))
        /\ has_byte "@" (Address node) = false
        /\ has_byte "," (Address node) = false
        /\ (Role node = "master" <->
            exists before after, flags = before +:+ "master" +:+ after)
        /\ (Role node = "slave" <->
            ~ exists before after, flags = before +:+ "master" +:+ after))
  /\ (forall (output line : string) (node : ClusterNode),
         line ∈ strings.Split (strings.TrimSpace output) LF ->
         parseClusterLine line = Some node ->
         node ∈ parseClusterNodes output)
  /\ parseClusterNodes example_line
     = [mkClusterNode "07c3...91" "127.0.0.1:30004" 30004 "slave" "slave"].
Proof.
  split; [|split; [|by vm_compute]].
  2:{ intros output line node Hin Hnode. unfold parseClusterNodes.
      apply list_elem_of_omap. eauto. }
  intros line nodeID addressField flags more Hf Hlen.
  rewrite <- Fields_TrimSpace in Hf.
  unfold parseClusterLine. rewrite Hf.
  destruct (bool_decide_reflect (strings.TrimSpace line = EmptyString))
    as [E | _].
  { rewrite E in Hf. discriminate Hf. }
  replace (length (nodeID :: addressField :: flags :: more) <? 8) with false
    by (symmetry; apply Nat.ltb_ge; simpl; lia).
  eexists. split; [reflexivity |]. cbn [ID Flags Address Role].
  destruct (cut_at_byte addressField "@") as (s1 & E1 & H1 & S1).
  destruct (cut_at_byte (cut_at addressField "@") ",") as (s2 & E2 & H2 & S2).
  split; [done | split; [done |]]. split; [|split; [|split; [done |]]].
  - destruct S2 as [-> | [t ->]].
    + rewrite append_nil_r in E2. rewrite <- E2. exists s1. split; [done |].
      destruct S1 as [-> | ?]; auto.
    + exists (String "," t +:+ s1). split; [|eauto].
      by rewrite <- append_assoc, <- E2.
  - rewrite E2 in H1. by apply has_byte_prefix in H1.
  - pose proof (Contains_spec flags "master") as Hc.
    destruct (strings.Contains flags "master"); (split; split); intros H;
      try done.
    + by apply Hc.
    + destruct H. by apply Hc.
    + apply Hc in H. done.
    + intros H'. apply Hc in H'. done.
Qed.

Lemma C8_parseClusterLine_witness :
  exists node,
    parseClusterLine "e7d1 10.0.0.7:6379@16379,node-7.internal myself,master - 0 0 1 connected 0-5460"
    = Some node
    /\ ID node = "e7d1" /\ Flags node = "myself,master"
    /\ (exists suffix,
           "10.0.0.7:6379@16379,node-7.internal" = Address node +:+ suffix
           /\ (suffix = EmptyString
               \/ (exists t, suffix = String "@" t)
               \/ (exists t, suffix = String "," t)))
    /\ has_byte "@" (Address node) = false
    /\ has_byte "," (Address node) = false
    /\ (Role node = "master" <->
        exists before after, "myself,master" = before +:+ "master" +:+ after)
    /\ (Role node = "slave" <->
        ~ exists before after, "myself,master" = before +:+ "master" +:+ after).
Proof.
  apply (proj1 C8_parseClusterLine _ "e7d1"
               "10.0.0.7:6379@16379,node-7.internal" "myself,master"
               ["-"; "0"; "0"; "1"; "connected"; "0-5460"]).
  - by vm_compute.
  - simpl. lia.
Defined.

(** ** The manager *)

Lemma AddProxy_cases iam_ok endpoint localPort w m w' m' r :
  Manager.AddProxy iam_ok endpoint localPort w m = (w', m', r) ->
  (r <> None /\ AddProxy_failed w m w' m')
  \/ (r = None /\ AddProxy_started endpoint localPort w m w' m').
Proof.
  unfold Manager.AddProxy.
  destruct (_ && negb iam_ok).
  { intros [= <- <- <-]. left. by repeat split. }
  unfold Proxy.Start. cbn [Proxy.localAddr].
  destruct (bool_decide_reflect
              (config.LocalAddr (Manager.config m) +:+ ":"
               +:+ strconv.Itoa localPort ∈ bound w)) as [Hin | Hout].
  - intros [= <- <- <-]. left. by repeat split.
  - intros [= <- <- <-]. right. split; [done |].
    eexists. cbn. repeat split; done.
Qed.

Lemma recorded_snoc (ps : list Proxy.t) (p : Proxy.t) :
  recorded (ps ++ [p])
  = <[Proxy.remoteAddr p := Proxy.localAddr p]> (recorded ps).
Proof. unfold recorded. by rewrite foldl_app. Qed.

Lemma AddProxy_consistent iam_ok endpoint localPort w m w' m' r :
  consistent (w, m) ->
  Manager.AddProxy iam_ok endpoint localPort w m = (w', m', r) ->
  consistent (w', m').
Proof.
  intros [Hmap Hrefs] H.
  apply AddProxy_cases in H as [[_ (-> & Hp & Hn & _)] | [_ H]].
  - unfold consistent; simpl in *. by rewrite Hp, Hn.
  - destruct H as (p & Hp & _ & _ & _ & Hpn & _ & _ & Hm & Hn & _).
    unfold consistent; simpl in *. rewrite Hp, Hn, Hm. split.
    + by rewrite lookup_insert_eq, Hmap, recorded_snoc.
    + apply Forall_app. split; [done |]. by constructor.
Qed.

Lemma Shutdown_loop_keeps (ps : list Proxy.t) (w : World) :
  maps (Manager.Shutdown_loop ps w).1 = maps w
  /\ Forall2 (fun p p' =>
                Proxy.localAddr p' = Proxy.localAddr p
                /\ Proxy.remoteAddr p' = Proxy.remoteAddr p
                /\ Proxy.isClusterMode p' = Proxy.isClusterMode p
                /\ Proxy.nodeMap p' = Proxy.nodeMap p)
             ps (Manager.Shutdown_loop ps w).2.
Proof.
  revert w. induction ps as [|p ps IH]; intros w; simpl.
  - split; [done | constructor].
  - unfold Proxy.Shutdown.
    destruct (Proxy.shutdownOnce p).
    + destruct (IH w) as [Hm Hps].
      destruct (Manager.Shutdown_loop ps w) as [w2 ps2]. simpl in *.
      split; [done |]. by constructor.
    + destruct (IH (mkWorld (bound w ∖ {[Proxy.localAddr p]}) (maps w)))
        as [Hm Hps].
      destruct (Manager.Shutdown_loop ps _) as [w2 ps2]. simpl in *.
      split; [done |]. by constructor.
Qed.

Lemma recorded_same (ps ps' : list Proxy.t) :
  Forall2 (fun p p' =>
             Proxy.localAddr p' = Proxy.localAddr p
             /\ Proxy.remoteAddr p' = Proxy.remoteAddr p
             /\ Proxy.isClusterMode p' = Proxy.isClusterMode p
             /\ Proxy.nodeMap p' = Proxy.nodeMap p) ps ps' ->
  recorded ps' = recorded ps.
Proof.
  unfold recorded. generalize (∅ : gmap string string).
  intros g H. revert g.
  induction H as [|p p' ps ps' (Hl & Hr & _) _ IH]; intros g; simpl; [done |].
  by rewrite Hl, Hr, IH.
Qed.

Lemma addNodes_consistent iam_ok startPort i nodes w m added w' m' added' :
  consistent (w, m) ->
  Manager.addNodes iam_ok startPort i nodes w m added = (w', m', added') ->
  consistent (w', m').
Proof.
  revert i w m added.
  induction nodes as [|node nodes IH]; intros i w m added Hc; simpl.
  - by intros [= <- <- <-].
  - destruct (Manager.AddProxy _ _ _ w m) as [[w1 m1] r] eqn:E.
    apply (AddProxy_consistent _ _ _ _ _ _ _ _ Hc) in E.
    destruct r; eauto.
Qed.

Lemma Discover_consistent iam_ok io primaryEndpoint startPort w m w' m' r :
  consistent (w, m) ->
  Manager.DiscoverAndAddClusterNodes iam_ok io primaryEndpoint startPort w m
  = (w', m', r) ->
  consistent (w', m').
Proof.
  intros Hc. unfold Manager.DiscoverAndAddClusterNodes.
  destruct (negb (dial_ok (d_conn io))); [by intros [= <- <- <-] |].
  destruct (if negb _ then _ else _); [by intros [= <- <- <-] |].
  destruct (DiscoverClusterTopology _) as [nodes|]; [|by intros [= <- <- <-]].
  destruct nodes as [|n0 nodes]; [by intros [= <- <- <-] |].
  destruct (FilterUniqueNodes _ _) as [|n1 newNodes];
    [by intros [= <- <- <-] |].
  destruct (Manager.addNodes _ _ _ _ _ _ _) as [[w1 m1] added] eqn:E.
  intros [= <- <- <-].
  eapply addNodes_consistent; [|exact E]. exact Hc.
Qed.

Lemma reachable_consistent (st : World * Manager.t) :
  reachable st -> consistent st.
Proof.
  induction 1 as [cfg w | c [w m] _ IH].
  - unfold consistent; simpl. split; [|constructor].
    by rewrite lookup_insert_eq.
  - destruct c; simpl.
    + unfold Manager.SetTLSConfig.
      destruct (negb _); [destruct (negb _) |]; exact IH.
    + exact IH.
    + exact IH.
    + destruct (Manager.AddProxy _ _ _ w m) as [[w' m'] r] eqn:E.
      eapply AddProxy_consistent; eauto.
    + destruct (Manager.DiscoverAndAddClusterNodes _ _ _ _ w m)
        as [[w' m'] r] eqn:E.
      eapply Discover_consistent; eauto.
    + unfold Manager.Shutdown.
      destruct (Shutdown_loop_keeps (Manager.proxies m) w) as [Hm Hps].
      destruct (Manager.Shutdown_loop _ w) as [w' ps'].
      destruct IH as [Hmap Hrefs]. unfold consistent; simpl in *.
      rewrite Hm, (recorded_same _ _ Hps). split; [done |].
      clear -Hps Hrefs. induction Hps as [|p p' ps ps' (_ & _ & _ & Hn) _ IH];
        [constructor |].
      inversion Hrefs; subst. constructor; [congruence | auto].
Qed.

(** ** The node address map *)

Lemma recorded_lookup_snoc (ps : list Proxy.t) (p : Proxy.t) (remote : string) :
  recorded (ps ++ [p]) !! remote
  = if decide (Proxy.remoteAddr p = remote) then Some (Proxy.localAddr p)
    else recorded ps !! remote.
Proof. rewrite recorded_snoc. apply lookup_insert. Qed.

Lemma recorded_sound (ps : list Proxy.t) (remote localAddr : string) :
  recorded ps !! remote = Some localAddr ->
  exists p, p ∈ ps /\ Proxy.remoteAddr p = remote
            /\ Proxy.localAddr p = localAddr.
Proof.
  induction ps as [|p ps IH] using rev_ind.
  - unfold recorded; simpl. by rewrite lookup_empty.
  - rewrite recorded_lookup_snoc. destruct (decide _) as [E | _].
    + intros [= <-]. exists p. split; [|done].
      apply elem_of_app. right. by apply list_elem_of_singleton.
    + intros H. destruct (IH H) as (q & Hq & ?). exists q.
      split; [|done]. apply elem_of_app. by left.
Qed.

Lemma recorded_last (ps : list Proxy.t) (remote : string) :
  recorded ps !! remote
  = Proxy.localAddr
      <$> last (filter (fun q => Proxy.remoteAddr q = remote) ps).
Proof.
  induction ps as [|p ps IH] using rev_ind.
  - unfold recorded; simpl. by rewrite lookup_empty.
  - rewrite recorded_lookup_snoc, filter_app, filter_cons, filter_nil.
    destruct (decide _) as [E | _].
    + by rewrite last_snoc.
    + by rewrite app_nil_r.
Qed.

Lemma recorded_complete (ps : list Proxy.t) (p : Proxy.t) :
  p ∈ ps -> is_Some (recorded ps !! Proxy.remoteAddr p).
Proof.
  induction ps as [|q ps IH] using rev_ind; [by intros ?%elem_of_nil |].
  rewrite recorded_lookup_snoc. intros H.
  destruct (decide _) as [|Hne]; [done |].
  apply IH. apply elem_of_app in H as [H | H]; [done |].
  apply list_elem_of_singleton in H. by subst.
Qed.

Lemma recorded_distinct (ps : list Proxy.t) (p : Proxy.t) :
  NoDup (Proxy.remoteAddr <$> ps) ->
  p ∈ ps ->
  recorded ps !! Proxy.remoteAddr p = Some (Proxy.localAddr p).
Proof.
  induction ps as [|q ps IH] using rev_ind; [by intros _ ?%elem_of_nil |].
  rewrite fmap_app, recorded_lookup_snoc. simpl.
  intros Hnd Hp. apply NoDup_app in Hnd as (Hnd & Hq & _).
  apply elem_of_app in Hp as [Hp | Hp].
  - destruct (decide _) as [E | _]; [|by apply IH].
    exfalso. apply (Hq (Proxy.remoteAddr p)).
    + by apply list_elem_of_fmap_2.
    + rewrite E. by apply list_elem_of_singleton.
  - apply list_elem_of_singleton in Hp as ->. by rewrite decide_True.
Qed.

(** C9, as stated, fails: in this reachable state the proxy started on
    127.0.0.1:6380 for 10.0.0.2:6379 is listening and in the list, and the
    map sends 10.0.0.2:6379 to 127.0.0.1:6381, the proxy that discovery
    added for the same remote; three proxies share two entries. *)
Lemma C9_counterexample :
  reachable overlapping_state
  /\ length (Manager.proxies overlapping_state.2) = 3
  /\ size (nodeMapOf overlapping_state) = 2
  /\ exists p,
       Manager.proxies overlapping_state.2 !! 1 = Some p
       /\ Proxy.remoteAddr p = "10.0.0.2:6379"
       /\ Proxy.localAddr p = "127.0.0.1:6380"
       /\ Proxy.localAddr p ∈ bound overlapping_state.1
       /\ nodeMapOf overlapping_state !! Proxy.remoteAddr p
          = Some "127.0.0.1:6381".
Proof.
  split; [repeat constructor |].
  split; [by vm_compute |]. split; [by vm_compute |].
  eexists. split; [by vm_compute |]. by vm_compute.
Qed.

(** C9, amended: in every reachable state, every entry of the node
    address map is the remote and local address of a proxy of the manager's
    list; the remote address of every proxy of the list is a key, mapped to
    the local address of the last proxy added for that remote, so to its
    own when the remotes of the list are distinct; AddProxy returning an
    error leaves the list and the map as they were, and AddProxy returning
    nil found the local address free, bound it, added one proxy at the end
    of the list and wrote its entry. *)
Theorem C9_node_map (st : World * Manager.t) :
  reachable st ->
  (forall remote localAddr,
      nodeMapOf st !! remote = Some localAddr ->
      exists p, p ∈ Manager.proxies st.2
                /\ Proxy.remoteAddr p = remote
                /\ Proxy.localAddr p = localAddr)
  /\ (forall p,
         p ∈ Manager.proxies st.2 ->
         is_Some (nodeMapOf st !! Proxy.remoteAddr p)
         /\ nodeMapOf st !! Proxy.remoteAddr p
            = Proxy.localAddr
                <$> last (filter (fun q => Proxy.remoteAddr q
                                           = Proxy.remoteAddr p)
                                 (Manager.proxies st.2)))
  /\ (NoDup (Proxy.remoteAddr <$> Manager.proxies st.2) ->
      forall p,
        p ∈ Manager.proxies st.2 ->
        nodeMapOf st !! Proxy.remoteAddr p = Some (Proxy.localAddr p))
  /\ (forall iam_ok endpoint localPort w' m' r,
         Manager.AddProxy iam_ok endpoint localPort st.1 st.2 = (w', m', r) ->
         (r <> None ->
          Manager.proxies m' = Manager.proxies st.2
          /\ nodeMapOf (w', m') = nodeMapOf st
          /\ bound w' = bound st.1)
         /\ (r = None ->
             exists p,
               Manager.proxies m' = Manager.proxies st.2 ++ [p]
               /\ Proxy.localAddr p = localAddrOf st.2 localPort
               /\ Proxy.remoteAddr p = remoteAddrOf endpoint
               /\ (Proxy.localAddr p ∉ bound st.1)
               /\ Proxy.localAddr p ∈ bound w'
               /\ nodeMapOf (w', m')
                  = <[Proxy.remoteAddr p := Proxy.localAddr p]>
                      (nodeMapOf st))).
Proof.
  intros Hr. destruct (reachable_consistent st Hr) as [Hmap Hrefs].
  assert (Hnodes : nodeMapOf st = recorded (Manager.proxies st.2)).
  { unfold nodeMapOf. by rewrite Hmap. }
  rewrite Hnodes. split; [|split; [|split]].
  - apply recorded_sound.
  - intros p Hp. split; [by apply recorded_complete | apply recorded_last].
  - intros Hnd p Hp. by apply recorded_distinct.
  - intros iam_ok endpoint localPort w' m' r H.
    apply AddProxy_cases in H as [[Hne Hf] | [-> Hs]].
    + split; [intros _ | done].
      destruct Hf as (-> & Hp & Hn & _).
      unfold nodeMapOf; simpl. by rewrite Hp, Hn, Hmap.
    + split; [done | intros _].
      destruct Hs as (p & Hp & Hl & Hrem & _ & _ & Hfree & Hb & Hm & Hn & _).
      exists p. repeat split; try done.
      * rewrite Hb. apply elem_of_union. left. by apply elem_of_singleton.
      * unfold nodeMapOf; simpl.
        by rewrite Hn, Hm, lookup_insert_eq, Hmap.
Qed.

Lemma C9_node_map_witness :
  nodeMapOf overlapping_state !! "10.0.0.2:6379" = Some "127.0.0.1:6381"
  /\ exists p, p ∈ Manager.proxies overlapping_state.2
               /\ Proxy.remoteAddr p = "10.0.0.2:6379"
               /\ Proxy.localAddr p = "127.0.0.1:6381".
Proof.
  assert (H : nodeMapOf overlapping_state !! "10.0.0.2:6379"
              = Some "127.0.0.1:6381") by (by vm_compute).
  split; [exact H |].
  apply (proj1 (C9_node_map overlapping_state ltac:(repeat constructor))
               _ _ H).
Defined.

(** ** Cluster mode *)

Lemma addNodes_extends iam_ok startPort i nodes w m added w' m' added' :
  Manager.addNodes iam_ok startPort i nodes w m added = (w', m', added') ->
  Manager.isClusterMode m' = Manager.isClusterMode m
  /\ exists new, Manager.proxies m' = Manager.proxies m ++ new.
Proof.
  revert i w m added.
  induction nodes as [|node nodes IH]; intros i w m added; simpl.
  - intros [= <- <- <-]. split; [done |]. exists []. by rewrite app_nil_r.
  - destruct (Manager.AddProxy _ _ _ w m) as [[w1 m1] r] eqn:E.
    assert (H1 : Manager.isClusterMode m1 = Manager.isClusterMode m
                 /\ exists new, Manager.proxies m1 = Manager.proxies m ++ new).
    { apply AddProxy_cases in E as [[_ (_ & Hp & _ & Hc)] | [_ Hs]].
      - split; [done |]. exists []. by rewrite app_nil_r.
      - destruct Hs as (p & Hp & _ & _ & _ & _ & _ & _ & _ & _ & Hc).
        split; [done |]. by exists [p]. }
    destruct H1 as [Hc [new1 Hp]].
    intros H.
    assert (H2 : Manager.isClusterMode m' = Manager.isClusterMode m1
                 /\ exists new, Manager.proxies m' = Manager.proxies m1 ++ new).
    { destruct r; eapply IH; exact H. }
    destruct H2 as [Hc' [new2 Hp']]. split; [congruence |].
    exists (new1 ++ new2). by rewrite Hp', Hp, app_assoc.
Qed.

(** Discovery either leaves the manager as it is or turns its flag on; the
    proxies it had stay as they are, at the head of the list. *)
Lemma Discover_extends iam_ok io primaryEndpoint startPort w m w' m' r :
  Manager.DiscoverAndAddClusterNodes iam_ok io primaryEndpoint startPort w m
  = (w', m', r) ->
  (m' = m \/ Manager.isClusterMode m' = true)
  /\ exists new, Manager.proxies m' = Manager.proxies m ++ new.
Proof.
  assert (Hsame : (m = m \/ Manager.isClusterMode m = true)
                  /\ exists new, Manager.proxies m = Manager.proxies m ++ new).
  { split; [by left |]. exists []. by rewrite app_nil_r. }
  unfold Manager.DiscoverAndAddClusterNodes.
  destruct (negb (dial_ok (d_conn io))); [by intros [= <- <- <-] |].
  destruct (if negb _ then _ else _); [by intros [= <- <- <-] |].
  destruct (DiscoverClusterTopology _) as [nodes|]; [|by intros [= <- <- <-]].
  destruct nodes as [|n0 nodes]; [by intros [= <- <- <-] |].
  destruct (FilterUniqueNodes _ _) as [|n1 newNodes];
    [by intros [= <- <- <-] |].
  destruct (Manager.addNodes _ _ _ _ _ _ _) as [[w1 m1] added] eqn:E.
  intros [= <- <- <-].
  apply addNodes_extends in E as [Hc Hp]. split; [by right | exact Hp].
Qed.

(** Before cluster mode is turned on, no proxy has it. *)
Lemma reachable_flags (st : World * Manager.t) :
  reachable st ->
  Manager.isClusterMode st.2 = false ->
  Forall (fun p => Proxy.isClusterMode p = false) (Manager.proxies st.2).
Proof.
  induction 1 as [cfg w | c [w m] _ IH]; [constructor |].
  simpl in IH. destruct c; simpl.
  - unfold Manager.SetTLSConfig.
    destruct (negb _); [destruct (negb _) |]; exact IH.
  - exact IH.
  - exact IH.
  - destruct (Manager.AddProxy _ _ _ w m) as [[w' m'] r] eqn:E. simpl.
    apply AddProxy_cases in E as [[_ (_ & Hp & _ & Hc)] | [_ Hs]].
    + rewrite Hp, Hc. exact IH.
    + destruct Hs as (p & Hp & _ & _ & Hpc & _ & _ & _ & _ & _ & Hc).
      rewrite Hp, Hc. intros Hf. apply Forall_app. split; [by apply IH |].
      constructor; [congruence | constructor].
  - destruct (Manager.DiscoverAndAddClusterNodes _ _ _ _ w m)
      as [[w' m'] r] eqn:E. simpl.
    apply Discover_extends in E as [[-> | Hc] _]; [exact IH | congruence].
  - unfold Manager.Shutdown.
    destruct (Shutdown_loop_keeps (Manager.proxies m) w) as [_ Hps].
    destruct (Manager.Shutdown_loop _ w) as [w' ps']. simpl in *.
    intros Hf. specialize (IH Hf). clear -Hps IH.
    induction Hps as [|p p' ps ps' (_ & _ & Hc & _) _ IHps]; [constructor |].
    inversion IH; subst. constructor; [congruence | auto].
Qed.

(** C1, on the code: discovery that adds peers turns on the manager's
    flag, and every proxy the manager had before keeps its own flag off (it
    was copied when the proxy was made): such a proxy is still in the list
    and, on a connection that needs no credentials, hands the bytes of the
    remote to the client as they are, a MOVED reply with them. *)
Theorem C1_earlier_proxies_relay_raw (st : World * Manager.t)
    iam_ok io primaryEndpoint startPort w' m' (added : Z) :
  reachable st ->
  Manager.isClusterMode st.2 = false ->
  Manager.DiscoverAndAddClusterNodes iam_ok io primaryEndpoint startPort
                                     st.1 st.2
  = (w', m', (added, None)) ->
  (1 <= added)%Z ->
  Manager.isClusterMode m' = true
  /\ forall p,
       p ∈ Manager.proxies st.2 ->
       p ∈ Manager.proxies m'
       /\ Proxy.isClusterMode p = false
       /\ (Proxy.authPassword p = EmptyString ->
           Proxy.tokenSource p = false ->
           forall conn,
             dial_ok conn = true ->
             Proxy.handleConnection p w' conn = Relayed (stream conn)).
Proof.
  intros Hr Hflag H Hadded.
  pose proof (reachable_flags st Hr Hflag) as Hold.
  pose proof (Discover_extends _ _ _ _ _ _ _ _ _ H) as [Hm [new Hp]].
  split.
  - destruct Hm as [-> | Hc]; [|done].
    exfalso. revert H. unfold Manager.DiscoverAndAddClusterNodes.
    destruct (negb (dial_ok (d_conn io))); [intros [= <-]; lia |].
    destruct (if negb _ then _ else _); [intros [= <-]; lia |].
    destruct (DiscoverClusterTopology _) as [nodes|]; [|intros [= <-]; lia].
    destruct nodes as [|n0 nodes]; [intros [= <-]; lia |].
    destruct (FilterUniqueNodes _ _) as [|n1 newNodes];
      [intros [= <-]; lia |].
    destruct (Manager.addNodes _ _ _ _ _ _ _) as [[w1 m1] added1] eqn:E.
    intros [= <- Hm1 <-].
    apply addNodes_extends in E as [Hc _]. simpl in Hc.
    rewrite Hm1 in Hc. congruence.
  - intros p Hin. rewrite Forall_forall in Hold.
    pose proof (Hold p Hin) as Hpc.
    split; [rewrite Hp; apply elem_of_app; by left |].
    split; [done |]. intros Hpw Ht conn Hdial.
    unfold Proxy.handleConnection.
    rewrite Hdial, Hpw, Ht, Hpc. reflexivity.
Qed.

(** In the cluster of two, the proxy of the second node is listening on
    127.0.0.1:6380 and the map sends 10.0.0.2:6379 there; the proxy of the
    primary, made before discovery, relays the MOVED reply of its remote
    unchanged, while the proxy that discovery made rewrites it. *)
Lemma C1_earlier_proxies_relay_raw_witness :
  snd (Manager.DiscoverAndAddClusterNodes
         true (mkDiscoveryIO (plain_conn EmptyString) (Some two_nodes))
         primary_endpoint 6380 primary_state.1 primary_state.2)
  = (1%Z, None)
  /\ nodeMapOf cluster_state !! "10.0.0.2:6379" = Some "127.0.0.1:6380"
  /\ "127.0.0.1:6380" ∈ bound cluster_state.1
  /\ (exists primary,
         Manager.proxies cluster_state.2 !! 0 = Some primary
         /\ Proxy.remoteAddr primary = "10.0.0.1:6379"
         /\ Proxy.handleConnection primary cluster_state.1
                                   (plain_conn moved_reply)
            = Relayed ("-MOVED 3999 10.0.0.2:6379" +:+ CRLF))
  /\ (exists second,
         Manager.proxies cluster_state.2 !! 1 = Some second
         /\ Proxy.remoteAddr second = "10.0.0.2:6379"
         /\ Proxy.handleConnection second cluster_state.1
                                   (plain_conn moved_reply)
            = Relayed ("-MOVED 3999 127.0.0.1:6380" +:+ CRLF)).
Proof.
  split; [by vm_compute |]. split; [by vm_compute |].
  split; [by vm_compute |]. split.
  - assert (Hp : exists primary,
               Manager.proxies primary_state.2 = [primary]
               /\ Manager.proxies cluster_state.2 !! 0 = Some primary
               /\ Proxy.remoteAddr primary = "10.0.0.1:6379"
               /\ Proxy.authPassword primary = EmptyString
               /\ Proxy.tokenSource primary = false).
    { eexists. split; [by vm_compute |]. by vm_compute. }
    destruct Hp as (primary & Hlist & H0 & Hrem & Hpw & Ht).
    exists primary. split; [exact H0 |]. split; [exact Hrem |].
    assert (Hres : snd (Manager.DiscoverAndAddClusterNodes
                          true (mkDiscoveryIO (plain_conn EmptyString)
                                              (Some two_nodes))
                          primary_endpoint 6380
                          primary_state.1 primary_state.2)
                   = (1%Z, None)) by (by vm_compute).
    destruct (Manager.DiscoverAndAddClusterNodes
                true (mkDiscoveryIO (plain_conn EmptyString) (Some two_nodes))
                primary_endpoint 6380 primary_state.1 primary_state.2)
      as [[w' m'] r] eqn:E.
    simpl in Hres. subst r.
    assert (Hw : cluster_state.1 = w').
    { unfold cluster_state, discover_two, call.
      destruct primary_state as [w m]. simpl in E. by rewrite E. }
    rewrite Hw.
    apply (C1_earlier_proxies_relay_raw primary_state true
             (mkDiscoveryIO (plain_conn EmptyString) (Some two_nodes))
             primary_endpoint 6380 w' m' 1);
      [repeat constructor | by vm_compute | exact E | lia
      | rewrite Hlist; apply list_elem_of_singleton; reflexivity
      | exact Hpw | exact Ht | reflexivity].
  - eexists. split; [by vm_compute |]. by vm_compute.
Defined.

(** ** Authentication *)

(** The test of the four authentication functions on what was read. *)
Lemma reply_test (respStr : string) :
  (5 <=? String.length respStr)
  && String.eqb (strings.slice_to 5 respStr) ("+OK" +:+ CRLF) = true
  <-> exists more, respStr = OK_reply +:+ more.
Proof. apply (HasPrefix_spec respStr OK_reply). Qed.

(** C2, as stated, fails: the bytes read are 27, not the five of +OK CR LF,
    and both authentications succeed and the pipeline goes on to relay. *)
Lemma C2_counterexample :
  (exists reply,
      auth_read chatty_conn (authCmd "secret") = Some reply
      /\ String.length (Read1024 reply) = 27
      /\ Read1024 reply <> OK_reply)
  /\ Proxy.authenticatePassword chatty_conn "secret" = None
  /\ Proxy.authenticateIAM chatty_conn = None
  /\ Proxy.handleConnection password_proxy (mkWorld ∅ ∅) chatty_conn
     = Relayed ("+PONG" +:+ CRLF)
  /\ Proxy.handleConnection token_proxy (mkWorld ∅ ∅) chatty_conn
     = Relayed ("+PONG" +:+ CRLF).
Proof.
  split; [eexists; split; [reflexivity | by vm_compute] |].
  by vm_compute.
Qed.

(** C2, amended: on every connection, password or IAM authentication
    succeeds if and only if the AUTH command was written and the bytes of
    the one read into the 1024-byte buffer begin with the five bytes
    +OK CR LF (for IAM, the token was obtained first); the manager's
    functions for its own connection are the same; every other outcome is
    an authentication failure, on which the pipeline ends without relaying. *)
Theorem C2_auth_prefix (conn : RemoteConn) (password : string) :
  (Proxy.authenticatePassword conn password = None <->
   write_ok conn = true
   /\ exists reply more,
        auth_read conn (authCmd password) = Some reply
        /\ Read1024 reply = OK_reply +:+ more)
  /\ (Proxy.authenticateIAM conn = None <->
      exists token_,
        token conn = Some token_
        /\ write_ok conn = true
        /\ exists reply more,
             auth_read conn (authCmd token_) = Some reply
             /\ Read1024 reply = OK_reply +:+ more)
  /\ Manager.authenticatePasswordOnConn conn password
     = Proxy.authenticatePassword conn password
  /\ Manager.authenticateIAMOnConn conn = Proxy.authenticateIAM conn
  /\ (forall p w e,
         dial_ok conn = true ->
         Proxy.authPassword p = password ->
         password <> EmptyString ->
         Proxy.authenticatePassword conn password = Some e ->
         Proxy.handleConnection p w conn = AuthFailed e)
  /\ (forall p w e,
         dial_ok conn = true ->
         Proxy.authPassword p = EmptyString ->
         Proxy.tokenSource p = true ->
         Proxy.authenticateIAM conn = Some e ->
         Proxy.handleConnection p w conn = AuthFailed e).
Proof.
  assert (Hexchange :
            forall credential,
              (if negb (write_ok conn) then Some SendFailed
               else
                 match auth_read conn (authCmd credential) with
                 | None => Some ReadFailed
                 | Some available =>
                     let respStr := Read1024 available in
                     if (5 <=? String.length respStr)
                        && String.eqb (strings.slice_to 5 respStr)
                                      ("+OK" +:+ CRLF)
                     then None
                     else Some (AuthenticationFailed respStr)
                 end) = None
              <-> write_ok conn = true
                  /\ exists reply more,
                       auth_read conn (authCmd credential) = Some reply
                       /\ Read1024 reply = OK_reply +:+ more).
  { intros credential. destruct (write_ok conn); simpl.
    2:{ split; [done | by intros [? _]]. }
    destruct (auth_read conn (authCmd credential)) as [reply|].
    2:{ split; [done | by intros [_ (? & ? & ? & _)]]. }
    pose proof (reply_test (Read1024 reply)) as Ht.
    destruct (_ && _).
    - split; [intros _ | done]. split; [done |].
      destruct (proj1 Ht eq_refl) as [more E]. by exists reply, more.
    - split; [done |]. intros [_ (r & more & [= <-] & E)].
      assert (false = true) by (apply (proj2 Ht); by exists more). done. }
  split; [apply Hexchange |]. split.
  { unfold Proxy.authenticateIAM. destruct (token conn) as [tok|].
    - rewrite Hexchange. split.
      + intros [Hw H]. by exists tok.
      + intros (t & [= <-] & Hw & H). done.
    - split; [done | by intros (? & ? & _)]. }
  split; [reflexivity |]. split; [reflexivity |]. split.
  - intros p w e Hdial Hp Hne He. unfold Proxy.handleConnection.
    rewrite Hdial, Hp. simpl.
    rewrite bool_decide_eq_false_2 by done. simpl. by rewrite He.
  - intros p w e Hdial Hp Ht He. unfold Proxy.handleConnection.
    rewrite Hdial, Hp, Ht. simpl. by rewrite He.
Qed.

Lemma C2_auth_prefix_witness :
  Proxy.handleConnection
    password_proxy (mkWorld ∅ ∅)
    (mkRemoteConn true None true
                  (fun _ => Some ("-WRONGPASS invalid password" +:+ CRLF))
                  EmptyString)
  = AuthFailed (AuthenticationFailed
                  ("-WRONGPASS invalid password" +:+ CRLF)).
Proof.
  apply (proj1 (proj2 (proj2 (proj2 (proj2
           (C2_auth_prefix
              (mkRemoteConn true None true
                 (fun _ => Some ("-WRONGPASS invalid password" +:+ CRLF))
                 EmptyString)
              "secret")))))); [reflexivity | reflexivity | discriminate |].
  by vm_compute.
Defined.

(** * More of the code: lines and truncated input, the relay, the
    topology, the listeners and discovery *)

(** ** Lines *)

Lemma ReadString_LF_spec (s line rest : string) :
  ReadString_LF s = Some (line, rest) ->
  exists pre,
    line = pre +:+ String LF EmptyString
    /\ has_byte LF pre = false
    /\ s = line +:+ rest.
Proof.
  revert line rest.
  induction s as [|c s IH]; intros line rest H; simpl in H; [discriminate|].
  destruct (Ascii.eqb c LF) eqn:E.
  - apply Ascii.eqb_eq in E. subst c. inversion H; subst.
    exists EmptyString. repeat split.
  - destruct (ReadString_LF s) as [[l0 r0]|] eqn:R; [|discriminate].
    inversion H; subst.
    destruct (IH l0 rest eq_refl) as (pre & -> & Hpre & ->).
    exists (String c pre). simpl. rewrite E, Hpre. repeat split.
Qed.

Lemma ReadString_LF_none (s : string) :
  ReadString_LF s = None <-> has_byte LF s = false.
Proof.
  induction s as [|c s IH]; simpl; [tauto|].
  destruct (Ascii.eqb c LF); simpl.
  - split; discriminate.
  - destruct (ReadString_LF s) as [[l0 r0]|]; split; intros H;
      try discriminate; try reflexivity.
    + apply IH in H. discriminate.
    + apply IH. reflexivity.
Qed.

Lemma string_snoc (s : string) :
  s <> EmptyString -> exists t c, s = t +:+ String c EmptyString.
Proof.
  induction s as [|a s IH]; intros H; [congruence|].
  destruct s as [|b s'].
  - exists EmptyString, a. reflexivity.
  - destruct IH as (t & c & E); [discriminate|].
    exists (String a t), c. simpl. rewrite <- E. reflexivity.
Qed.

Lemma readLine_inv (s line rest : string) :
  readLine s = Ok (line, rest) ->
  s = line +:+ CRLF +:+ rest /\ has_byte LF line = false.
Proof.
  unfold readLine. intros H.
  destruct (ReadString_LF s) as [[l r]|] eqn:R; [|discriminate].
  destruct (ReadString_LF_spec _ _ _ R) as (pre & -> & Hpre & ->).
  destruct (String.length (pre +:+ String LF EmptyString) <? 2) eqn:L;
    [discriminate|].
  apply Nat.ltb_ge in L. rewrite length_append in L. simpl in L.
  destruct (bool_decide
              (String.get (String.length (pre +:+ String LF EmptyString) - 2)
                          (pre +:+ String LF EmptyString) = Some CR)) eqn:G;
    [|discriminate].
  simpl in H. inversion H; subst. clear H.
  apply bool_decide_eq_true_1 in G.
  destruct (string_snoc pre) as (t & c & ->).
  { intros ->. simpl in L. lia. }
  rewrite !length_append in G. simpl in G.
  replace (String.length t + 1 + 1 - 2) with (String.length t + 0) in G by lia.
  rewrite append_assoc, get_append_r in G. simpl in G.
  inversion G; subst c.
  rewrite !length_append. simpl.
  replace (String.length t + 1 + 1 - 2) with (String.length t) by lia.
  rewrite !append_assoc. rewrite slice_to_append.
  rewrite has_byte_append in Hpre. apply orb_false_elim in Hpre.
  split; [reflexivity|tauto].
Qed.

Lemma readLine_EOF (s : string) :
  readLine s = Err EOF <-> has_byte LF s = false.
Proof.
  rewrite <- ReadString_LF_none. unfold readLine.
  destruct (ReadString_LF s) as [[l r]|]; [|tauto].
  split; [|discriminate].
  destruct (_ || _); discriminate.
Qed.

Lemma readLine_errors (s : string) (e : error) :
  readLine s = Err e -> e = EOF \/ e = InvalidLineTerminator.
Proof.
  unfold readLine.
  destruct (ReadString_LF s) as [[l r]|]; [|intros [= <-]; tauto].
  destruct (_ || _); [intros [= <-]; tauto|discriminate].
Qed.

(** X6: readLine returns a line exactly when the input is that line, CR LF
    and the rest, the line holding no line feed; it reports the end of the
    stream exactly when the input holds no line feed, and a first line feed
    that no CR precedes is the line-terminator error. *)
Theorem readLine_spec (s : string) :
  (forall line rest,
      readLine s = Ok (line, rest) <->
      s = line +:+ CRLF +:+ rest /\ has_byte LF line = false)
  /\ (readLine s = Err EOF <-> has_byte LF s = false)
  /\ (readLine s = Err InvalidLineTerminator <->
      has_byte LF s = true
      /\ forall line rest,
           has_byte LF line = false -> s <> line +:+ CRLF +:+ rest).
Proof.
  split; [|split].
  - intros line rest. split.
    + apply readLine_inv.
    + intros [-> H]. apply readLine_CRLF, H.
  - apply readLine_EOF.
  - split.
    + intros H. split.
      * destruct (has_byte LF s) eqn:B; [reflexivity|].
        apply readLine_EOF in B. congruence.
      * intros line rest Hl ->. rewrite readLine_CRLF in H by exact Hl.
        discriminate.
    + intros [B N]. destruct (readLine s) as [[line rest]|e] eqn:R.
      * apply readLine_inv in R. destruct R as [-> Hl].
        exfalso. exact (N line rest Hl eq_refl).
      * destruct (readLine_errors _ _ R) as [-> | ->]; [|reflexivity].
        apply readLine_EOF in R. congruence.
Qed.

(** ** What the reader accepts *)

Lemma readBulkString_inv (s : string) (v : RESPValue) (rest : string) :
  readBulkString s = Ok (v, rest) ->
  grammar_value v /\ parsed v = v /\ exists c, s = c +:+ rest.
Proof.
  unfold readBulkString. intros H.
  destruct (readLine s) as [[line r]|] eqn:R; [|discriminate].
  apply readLine_inv in R. destruct R as [-> Hl].
  destruct (strconv.Atoi line) as [size|] eqn:A; [|discriminate].
  pose proof (ParseInt_int64 _ _ A) as I64.
  destruct (size <? 0)%Z eqn:N.
  { inversion H; subst. split; [|split].
    - simpl. right. right. right. left. split; [reflexivity|left; reflexivity].
    - reflexivity.
    - exists (line +:+ CRLF). rewrite append_assoc. reflexivity. }
  apply Z.ltb_ge in N.
  destruct (wrap64 (size + 2) <? 0)%Z eqn:W; [discriminate|].
  apply Z.ltb_ge in W.
  assert (B : (size + 2 <= strconv.MaxInt64)%Z).
  { destruct (Z_le_gt_dec (size + 2) strconv.MaxInt64) as [?|G]; [assumption|].
    pose proof (wrap64_overflow (size + 2)) as O.
    unfold int64 in I64. lia. }
  rewrite wrap64_id in H
    by (unfold int64, strconv.MinInt64, strconv.MaxInt64 in *; lia).
  unfold ReadFull in H.
  destruct (Z.to_nat (size + 2) <=? String.length r) eqn:L;
    [|destruct r; discriminate].
  apply Nat.leb_le in L.
  destruct (negb _ || negb _) eqn:T; [discriminate|].
  apply orb_false_elim in T. destruct T as [T1 T2].
  apply negb_false_iff, bool_decide_eq_true_1 in T1, T2.
  inversion H; subst. clear H.
  assert (Ls : String.length
                 (strings.slice_to (Z.to_nat size)
                    (strings.slice_to (Z.to_nat (size + 2)) r))
               = Z.to_nat size).
  { rewrite length_slice_to; [reflexivity|].
    rewrite length_slice_to by lia. lia. }
  split; [|split].
  - cbn [grammar_value withStr zeroValue Typ Int Arr Null].
    right. right. right. left. split; [reflexivity|right].
    rewrite Ls. lia.
  - reflexivity.
  - exists (line +:+ CRLF +:+ strings.slice_to (Z.to_nat (size + 2)) r).
    rewrite !append_assoc. rewrite slice_to_from. reflexivity.
Qed.

Lemma readElems_inv (Q : RESPValue -> Prop)
    (rv : string -> option (result (RESPValue * string)))
    (count : nat) (s : string) (vals : list RESPValue) (rest : string) :
  (forall s v rest,
      rv s = Some (Ok (v, rest)) -> Q v /\ exists c, s = c +:+ rest) ->
  readElems rv count s = Some (Ok (vals, rest)) ->
  Forall Q vals /\ length vals = count /\ exists c, s = c +:+ rest.
Proof.
  intros Hrv. revert s vals rest.
  induction count as [|n IH]; intros s vals rest H; simpl in H.
  - inversion H; subst. split; [constructor|split; [reflexivity|]].
    exists EmptyString. reflexivity.
  - destruct (rv s) as [[[v s1]|]|] eqn:R; try discriminate.
    destruct (readElems rv n s1) as [[[vs s2]|]|] eqn:E; try discriminate.
    inversion H; subst.
    destruct (Hrv _ _ _ R) as (Qv & c1 & ->).
    destruct (IH _ _ _ E) as (Qs & Ln & c2 & ->).
    split; [constructor; assumption|split; [simpl; congruence|]].
    exists (c1 +:+ c2). rewrite append_assoc. reflexivity.
Qed.

Lemma map_parsed_fix (arr : list RESPValue) :
  Forall (fun v => grammar_value v /\ parsed v = v) arr -> map parsed arr = arr.
Proof.
  induction 1 as [|v arr [_ E] _ IH]; simpl; [reflexivity|].
  rewrite E, IH. reflexivity.
Qed.

Lemma ReadValue_fuel_inv (fuel : nat) (s : string) (v : RESPValue)
    (rest : string) :
  ReadValue_fuel fuel s = Some (Ok (v, rest)) ->
  (grammar_value v /\ parsed v = v) /\ exists c, s = c +:+ rest.
Proof.
  revert s v rest.
  induction fuel as [|fuel IH]; intros s v rest H; simpl in H; [discriminate|].
  destruct s as [|typeByte body]; [discriminate|].
  destruct (Ascii.eqb typeByte SimpleString) eqn:E1.
  { apply Ascii.eqb_eq in E1. subst typeByte.
    unfold readSimpleString in H.
    destruct (readLine body) as [[line r]|] eqn:R; [|discriminate].
    apply readLine_inv in R. destruct R as [-> Hl].
    inversion H; subst. split; [split|].
    - simpl. left. split; [reflexivity|assumption].
    - reflexivity.
    - exists (String SimpleString (line +:+ CRLF)). simpl.
      rewrite append_assoc. reflexivity. }
  destruct (Ascii.eqb typeByte Error) eqn:E2.
  { apply Ascii.eqb_eq in E2. subst typeByte.
    unfold readError in H.
    destruct (readLine body) as [[line r]|] eqn:R; [|discriminate].
    apply readLine_inv in R. destruct R as [-> Hl].
    inversion H; subst. split; [split|].
    - simpl. right. left. split; [reflexivity|assumption].
    - reflexivity.
    - exists (String Error (line +:+ CRLF)). simpl.
      rewrite append_assoc. reflexivity. }
  destruct (Ascii.eqb typeByte Integer) eqn:E3.
  { apply Ascii.eqb_eq in E3. subst typeByte.
    unfold readInteger in H.
    destruct (readLine body) as [[line r]|] eqn:R; [|discriminate].
    apply readLine_inv in R. destruct R as [-> Hl].
    destruct (strconv.ParseInt line) as [num|] eqn:P; [|discriminate].
    inversion H; subst. split; [split|].
    - simpl. right. right. left. split; [reflexivity|].
      eapply ParseInt_int64, P.
    - reflexivity.
    - exists (String Integer (line +:+ CRLF)). simpl.
      rewrite append_assoc. reflexivity. }
  destruct (Ascii.eqb typeByte BulkString) eqn:E4.
  { inversion H as [H']. apply readBulkString_inv in H'.
    destruct H' as (G & P & c & ->).
    split; [split; assumption|]. exists (String typeByte c). reflexivity. }
  destruct (Ascii.eqb typeByte Array) eqn:E5; [|discriminate].
  apply Ascii.eqb_eq in E5. subst typeByte.
  unfold readArray in H.
  destruct (readLine body) as [[line r]|] eqn:R; [|discriminate].
  apply readLine_inv in R. destruct R as [-> Hl].
  destruct (strconv.Atoi line) as [count|] eqn:A; [|discriminate].
  pose proof (ParseInt_int64 _ _ A) as I64.
  destruct (count <? 0)%Z eqn:N.
  { inversion H; subst. split; [split|].
    - simpl. do 4 right. split; [reflexivity|left; reflexivity].
    - reflexivity.
    - exists (String Array (line +:+ CRLF)). simpl.
      rewrite append_assoc. reflexivity. }
  apply Z.ltb_ge in N.
  destruct (readElems (ReadValue_fuel fuel) (Z.to_nat count) r)
    as [[[arr r']|]|] eqn:E; try discriminate.
  inversion H; subst. clear H.
  destruct (readElems_inv (fun v => grammar_value v /\ parsed v = v)
              _ _ _ _ _ (fun s v rest => IH s v rest) E)
    as (Qs & Ln & c & ->).
  split; [split|].
  - simpl. do 4 right. split; [reflexivity|right]. split.
    + rewrite Ln. unfold int64 in I64. lia.
    + apply grammar_elems. eapply Forall_impl; [exact Qs|].
      intros x [G _]. exact G.
  - simpl. rewrite (map_parsed_fix _ Qs). reflexivity.
  - exists (String Array (line +:+ CRLF +:+ c)). simpl.
    rewrite !append_assoc. reflexivity.
Qed.

(** X7: a value the reader returns is a value of the grammar in the form
    the reader builds (unused fields at zero), the bytes left are a proper
    suffix of the input, and serializing the value and reading it again
    gives the same value back. *)
Theorem ReadValue_canonical (s : string) (v : RESPValue) (rest : string) :
  ReadValue s = Some (Ok (v, rest)) ->
  grammar_value v
  /\ parsed v = v
  /\ (exists consumed, s = consumed +:+ rest /\ consumed <> EmptyString)
  /\ forall rest', ReadValue (Serialize v +:+ rest') = Some (Ok (v, rest')).
Proof.
  intros H. unfold ReadValue in H.
  destruct (ReadValue_fuel_inv _ _ _ _ H) as ((G & P) & c & E).
  split; [exact G|]. split; [exact P|]. split.
  - exists c. split; [exact E|]. intros ->.
    apply ReadValue_fuel_consumes in H. subst s. simpl in H. lia.
  - intros rest'. unfold ReadValue.
    rewrite (ReadValue_Serialize v G); [rewrite P; reflexivity|].
    rewrite length_append. lia.
Qed.

Lemma ReadValue_canonical_witness :
  grammar_value (mkRESPValue Integer EmptyString 5 [] false)
  /\ parsed (mkRESPValue Integer EmptyString 5 [] false)
     = mkRESPValue Integer EmptyString 5 [] false
  /\ (exists consumed,
         ":+5" +:+ CRLF +:+ "+OK" +:+ CRLF = consumed +:+ "+OK" +:+ CRLF
         /\ consumed <> EmptyString)
  /\ forall rest',
       ReadValue (Serialize (mkRESPValue Integer EmptyString 5 [] false)
                  +:+ rest')
       = Some (Ok (mkRESPValue Integer EmptyString 5 [] false, rest')).
Proof.
  apply (ReadValue_canonical (":+5" +:+ CRLF +:+ "+OK" +:+ CRLF)).
  reflexivity.
Defined.

(** X8: the encoding is self-delimiting: when the serializations of two
    grammar values, each followed by any bytes, are the same bytes, the
    values are the same as the reader builds them and so are the bytes that
    follow; in particular Serialize is injective on the reader's values. *)
Theorem Serialize_self_delimiting (v1 v2 : RESPValue) (r1 r2 : string) :
  grammar_value v1 -> grammar_value v2 ->
  Serialize v1 +:+ r1 = Serialize v2 +:+ r2 ->
  parsed v1 = parsed v2 /\ r1 = r2.
Proof.
  intros G1 G2 E.
  assert (H1 : ReadValue (Serialize v1 +:+ r1) = Some (Ok (parsed v1, r1))).
  { unfold ReadValue. apply ReadValue_Serialize; [exact G1|].
    rewrite length_append. lia. }
  assert (H2 : ReadValue (Serialize v2 +:+ r2) = Some (Ok (parsed v2, r2))).
  { unfold ReadValue. apply ReadValue_Serialize; [exact G2|].
    rewrite length_append. lia. }
  rewrite E, H2 in H1. inversion H1. split; reflexivity.
Qed.

Lemma Serialize_self_delimiting_witness :
  parsed (mkRESPValue Integer "unused" 7 [] false)
  = parsed (mkRESPValue Integer EmptyString 7 [] true)
  /\ "+OK" +:+ CRLF = "+OK" +:+ CRLF.
Proof.
  apply Serialize_self_delimiting.
  - simpl. right. right. left. split; [reflexivity|].
    unfold int64, strconv.MinInt64, strconv.MaxInt64. lia.
  - simpl. right. right. left. split; [reflexivity|].
    unfold int64, strconv.MinInt64, strconv.MaxInt64. lia.
  - reflexivity.
Defined.

(** ** The AUTH command *)

Lemma authCmd_Serialize (credential : string) :
  authCmd credential = Serialize (authValue credential).
Proof.
  unfold authCmd, authValue. simpl.
  rewrite !append_assoc, append_nil_r. reflexivity.
Qed.

Lemma authValue_grammar (credential : string) :
  (Z.of_nat (String.length credential) + 2 <= strconv.MaxInt64)%Z ->
  grammar_value (authValue credential).
Proof.
  intros H. simpl. do 4 right. split; [reflexivity|right].
  split; [unfold strconv.MaxInt64; lia|].
  split; [|split; [|exact I]].
  - right. right. right. left. split; [reflexivity|right].
    unfold strconv.MaxInt64. simpl. lia.
  - right. right. right. left. split; [reflexivity|right]. exact H.
Qed.

(** X10: the AUTH command the proxy formats with Sprintf is the
    serialization of the array of the two bulk strings AUTH and the
    credential, whatever bytes the credential holds (CR LF among them), and
    the reader reads it back as that array with nothing lost. *)
Theorem authCmd_is_RESP (credential rest : string) :
  (Z.of_nat (String.length credential) + 2 <= strconv.MaxInt64)%Z ->
  authCmd credential = Serialize (authValue credential)
  /\ ReadValue (authCmd credential +:+ rest)
     = Some (Ok (authValue credential, rest)).
Proof.
  intros H. split; [apply authCmd_Serialize|].
  rewrite authCmd_Serialize. unfold ReadValue.
  rewrite (ReadValue_Serialize _ (authValue_grammar _ H)).
  - reflexivity.
  - rewrite length_append. lia.
Qed.

Lemma authCmd_is_RESP_witness :
  authCmd ("pass" +:+ CRLF +:+ "word")
  = Serialize (authValue ("pass" +:+ CRLF +:+ "word"))
  /\ ReadValue (authCmd ("pass" +:+ CRLF +:+ "word") +:+ "+PING" +:+ CRLF)
     = Some (Ok (authValue ("pass" +:+ CRLF +:+ "word"), "+PING" +:+ CRLF)).
Proof.
  apply authCmd_is_RESP. vm_compute. discriminate.
Defined.

(** ** Truncated input *)











(** ** The relay of the server's replies *)

Lemma loop_fuel (f1 f2 : nat) (nodes : gmap string string) (s : string) :
  String.length s < f1 -> String.length s < f2 ->
  Proxy.proxyServerResponses_loop f1 nodes s
  = Proxy.proxyServerResponses_loop f2 nodes s.
Proof.
  revert f2 s. induction f1 as [|f1 IH]; intros f2 s L1 L2; [lia|].
  destruct f2 as [|f2]; [lia|].
  cbn [Proxy.proxyServerResponses_loop].
  destruct (ReadValue s) as [[[v s']|e]|] eqn:R; try reflexivity.
  apply ReadValue_fuel_consumes in R.
  rewrite (IH f2 s') by lia. reflexivity.
Qed.

Lemma relay_step (nodes : gmap string string) (v : RESPValue) (tail : string) :
  grammar_value v ->
  Proxy.proxyServerResponses nodes (Serialize v +:+ tail)
  = (Serialize (relayed nodes (parsed v))
     +:+ (Proxy.proxyServerResponses nodes tail).1,
     (Proxy.proxyServerResponses nodes tail).2).
Proof.
  intros G.
  assert (R : ReadValue (Serialize v +:+ tail) = Some (Ok (parsed v, tail))).
  { unfold ReadValue. apply ReadValue_Serialize; [exact G|].
    rewrite length_append. lia. }
  pose proof (length_Serialize_pos v G) as Lv.
  unfold Proxy.proxyServerResponses at 1.
  cbn [Proxy.proxyServerResponses_loop]. rewrite R.
  rewrite (loop_fuel _ (S (String.length tail)))
    by (rewrite ?length_append; lia).
  fold (relayed nodes (parsed v)).
  fold (Proxy.proxyServerResponses nodes tail).
  destruct (Proxy.proxyServerResponses nodes tail) as [out err].
  reflexivity.
Qed.

Lemma relay_values (nodes : gmap string string) (vs : list RESPValue)
    (tail : string) :
  Forall grammar_value vs ->
  Proxy.proxyServerResponses nodes (concat_strings (map Serialize vs) +:+ tail)
  = (concat_strings (map (fun v => Serialize (relayed nodes (parsed v))) vs)
     +:+ (Proxy.proxyServerResponses nodes tail).1,
     (Proxy.proxyServerResponses nodes tail).2).
Proof.
  induction 1 as [|v vs G _ IH]; simpl.
  - destruct (Proxy.proxyServerResponses nodes tail). reflexivity.
  - rewrite append_assoc, (relay_step _ _ _ G), IH. simpl.
    rewrite append_assoc. reflexivity.
Qed.

Lemma Typ_parsed (v : RESPValue) : Typ (parsed v) = Typ v.
Proof.
  destruct v as [t str int arr null]. simpl.
  destruct (Ascii.eqb t SimpleString || Ascii.eqb t Error); [reflexivity|].
  destruct (Ascii.eqb t Integer); [reflexivity|].
  destruct (Ascii.eqb t BulkString); [destruct null; reflexivity|].
  destruct (Ascii.eqb t Array); [destruct null; reflexivity|reflexivity].
Qed.

Lemma IsRedirectError_parsed (v : RESPValue) :
  IsRedirectError (parsed v) = IsRedirectError v.
Proof.
  unfold IsRedirectError. rewrite Typ_parsed.
  destruct (Ascii.eqb (Typ v) Error) eqn:E; [|reflexivity].
  destruct v as [t str int arr null]. simpl in E.
  apply Ascii.eqb_eq in E. subst t. reflexivity.
Qed.

Lemma relayed_plain (nodes : gmap string string) (v : RESPValue) :
  IsRedirectError v = false -> relayed nodes (parsed v) = parsed v.
Proof.
  intros H. unfold relayed. rewrite IsRedirectError_parsed, H. reflexivity.
Qed.

(** X11: the relay of cluster mode works value by value: on the bytes of a
    sequence of values followed by any bytes it writes, for each value, the
    serialization of the value as read (rewritten if it is a redirection)
    and goes on with what follows; a stream of values none of which is a
    redirection error at the top level arrives byte for byte, redirection
    errors inside arrays included, and the loop ends on io.EOF. *)
Theorem relay_value_by_value (nodes : gmap string string)
    (vs : list RESPValue) :
  Forall grammar_value vs ->
  (forall tail,
      Proxy.proxyServerResponses nodes
        (concat_strings (map Serialize vs) +:+ tail)
      = (concat_strings (map (fun v => Serialize (relayed nodes (parsed v))) vs)
         +:+ (Proxy.proxyServerResponses nodes tail).1,
         (Proxy.proxyServerResponses nodes tail).2))
  /\ (Forall (fun v => IsRedirectError v = false) vs ->
      Proxy.proxyServerResponses nodes (concat_strings (map Serialize vs))
      = (concat_strings (map Serialize vs), Some EOF)).
Proof.
  intros G. split.
  - intros tail. apply relay_values, G.
  - intros N.
    rewrite <- (append_nil_r (concat_strings (map Serialize vs))) at 1.
    rewrite (relay_values _ _ _ G).
    change (Proxy.proxyServerResponses nodes EmptyString)
      with (EmptyString, Some EOF).
    simpl. rewrite append_nil_r. f_equal. f_equal.
    clear G. induction N as [|v vs Hv _ IH]; [reflexivity|].
    simpl. rewrite (relayed_plain _ _ Hv), Serialize_parsed, IH. reflexivity.
Qed.

Lemma relay_value_by_value_witness :
  Proxy.proxyServerResponses
    {[ "10.0.0.2:6379" := "127.0.0.1:6380" ]}
    ("*1" +:+ CRLF +:+ "-MOVED 3999 10.0.0.2:6379" +:+ CRLF
     +:+ "-ERR unknown command" +:+ CRLF)
  = ("*1" +:+ CRLF +:+ "-MOVED 3999 10.0.0.2:6379" +:+ CRLF
     +:+ "-ERR unknown command" +:+ CRLF, Some EOF).
Proof.
  refine (proj2 (relay_value_by_value
                   {[ "10.0.0.2:6379" := "127.0.0.1:6380" ]}
                   [ mkRESPValue Array EmptyString 0
                       [errorValue "MOVED 3999 10.0.0.2:6379"] false;
                     errorValue "ERR unknown command" ] _) _).
  - constructor; [|constructor; [|constructor]].
    + simpl. do 4 right. split; [reflexivity|right].
      split; [unfold strconv.MaxInt64; simpl; lia|].
      split; [|exact I]. right. left. split; reflexivity.
    + simpl. right. left. split; reflexivity.
  - repeat constructor.
Defined.



(** ** Redirections on the wire *)

Lemma graphic_no_LF (s : string) : graphic s = true -> has_byte LF s = false.
Proof.
  induction s as [|c s IH]; simpl; [reflexivity|].
  intros H. apply andb_prop in H. destruct H as [H1 H2].
  rewrite (IH H2), orb_false_r.
  apply andb_prop in H1. destruct H1 as [H1 _]. apply Z.ltb_lt in H1.
  destruct (Ascii.eqb c LF) eqn:E; [|reflexivity].
  apply Ascii.eqb_eq in E. subst c. vm_compute in H1. discriminate.
Qed.

Lemma scan_fields_word (w rest : string) :
  graphic w = true ->
  strings.scan_fields 0 (w +:+ rest)
  = (w +:+ (strings.scan_fields 0 rest).1, (strings.scan_fields 0 rest).2).
Proof.
  induction w as [|c w IH]; intros H.
  - simpl. destruct (strings.scan_fields 0 rest). reflexivity.
  - simpl in H. apply andb_prop in H. destruct H as [H1 H2].
    apply andb_prop in H1. destruct H1 as [H0 H1].
    apply Z.ltb_lt in H0, H1.
    change (String c w +:+ rest) with (String c (w +:+ rest)).
    rewrite scan_fields_graphic by lia. rewrite (IH H2). reflexivity.
Qed.

Lemma Fields_word_space (w rest : string) :
  graphic w = true -> w <> EmptyString ->
  strings.Fields (w +:+ String " " rest) = w :: strings.Fields rest.
Proof.
  intros G N. rewrite Fields_unfold, (scan_fields_word _ _ G).
  rewrite scan_fields_space. unfold fields_of. simpl.
  rewrite append_nil_r. destruct w; [congruence|reflexivity].
Qed.

Lemma Fields_word (w : string) :
  graphic w = true -> w <> EmptyString -> strings.Fields w = [w].
Proof.
  intros G N. rewrite <- (append_nil_r w) at 1.
  rewrite Fields_unfold, (scan_fields_word _ _ G). unfold fields_of. simpl.
  rewrite append_nil_r. destruct w; [congruence|reflexivity].
Qed.

Lemma Fields_redirect (keyword slot target : string) :
  graphic keyword = true -> keyword <> EmptyString ->
  graphic slot = true -> slot <> EmptyString ->
  graphic target = true -> target <> EmptyString ->
  strings.Fields (keyword +:+ " " +:+ slot +:+ " " +:+ target)
  = [keyword; slot; target].
Proof.
  intros.
  change (keyword +:+ " " +:+ slot +:+ " " +:+ target)
    with (keyword +:+ String " " (slot +:+ String " " target)).
  rewrite !Fields_word_space, Fields_word by assumption. reflexivity.
Qed.

Lemma relayed_redirect (nodes : gmap string string)
    (keyword slot target : string) :
  keyword = "MOVED" \/ keyword = "ASK" ->
  graphic slot = true -> slot <> EmptyString ->
  graphic target = true -> target <> EmptyString ->
  relayed nodes (errorValue (keyword +:+ " " +:+ slot +:+ " " +:+ target))
  = errorValue (keyword +:+ " " +:+ slot +:+ " "
                +:+ default target (nodes !! target)).
Proof.
  intros K Gs Ns Gt Nt.
  assert (Gk : graphic keyword = true /\ keyword <> EmptyString).
  { destruct K as [-> | ->]; split; (reflexivity || discriminate). }
  assert (R : IsRedirectError
                (errorValue (keyword +:+ " " +:+ slot +:+ " " +:+ target))
              = true).
  { apply IsRedirectError_spec. split; [reflexivity|].
    destruct K as [-> | ->]; [left|right];
      exists (slot +:+ " " +:+ target); reflexivity. }
  unfold relayed. rewrite R. unfold RewriteRedirectError. rewrite R.
  cbn [negb Str errorValue].
  rewrite Fields_redirect by tauto.
  destruct (nodes !! target) as [localAddr|]; reflexivity.
Qed.

Lemma redirect_on_the_wire (nodes : gmap string string)
    (keyword slot target tail : string) :
  keyword = "MOVED" \/ keyword = "ASK" ->
  graphic slot = true -> slot <> EmptyString ->
  graphic target = true -> target <> EmptyString ->
  Proxy.proxyServerResponses nodes
    ("-" +:+ keyword +:+ " " +:+ slot +:+ " " +:+ target +:+ CRLF +:+ tail)
  = ("-" +:+ keyword +:+ " " +:+ slot +:+ " "
     +:+ default target (nodes !! target) +:+ CRLF
     +:+ (Proxy.proxyServerResponses nodes tail).1,
     (Proxy.proxyServerResponses nodes tail).2).
Proof.
  intros K Gs Ns Gt Nt.
  assert (G : grammar_value
                (errorValue (keyword +:+ " " +:+ slot +:+ " " +:+ target))).
  { simpl. right. left. split; [reflexivity|].
    change (has_byte LF (keyword +:+ String " " (slot +:+ String " " target))
            = false).
    rewrite has_byte_append. simpl. rewrite has_byte_append. simpl.
    rewrite (graphic_no_LF _ Gs), (graphic_no_LF _ Gt).
    destruct K as [-> | ->]; reflexivity. }
  pose proof (relay_step nodes _ tail G) as S.
  change (parsed (errorValue ?x)) with (errorValue x) in S.
  rewrite relayed_redirect in S by assumption.
  change (Serialize (errorValue ?x)) with (String "-" (x +:+ CRLF)) in S.
  replace ("-" +:+ keyword +:+ " " +:+ slot +:+ " " +:+ target +:+ CRLF
           +:+ tail)
    with (String "-" ((keyword +:+ " " +:+ slot +:+ " " +:+ target) +:+ CRLF)
          +:+ tail)
    by (repeat (progress (simpl; rewrite ?append_assoc)); reflexivity).
  rewrite S. f_equal.
  repeat (progress (simpl; rewrite ?append_assoc)). reflexivity.
Qed.

(** X13: a line -MOVED slot target or -ASK slot target from the server,
    slot and target being non-empty runs of printable bytes, reaches the
    client with the target replaced by the node map's entry for it, and
    byte for byte as it came when the map has no entry; the relay goes on
    with the bytes that follow. *)
Theorem relay_redirect (nodes : gmap string string)
    (keyword slot target tail : string) :
  keyword = "MOVED" \/ keyword = "ASK" ->
  graphic slot = true -> slot <> EmptyString ->
  graphic target = true -> target <> EmptyString ->
  Proxy.proxyServerResponses nodes
    ("-" +:+ keyword +:+ " " +:+ slot +:+ " " +:+ target +:+ CRLF +:+ tail)
  = ("-" +:+ keyword +:+ " " +:+ slot +:+ " "
     +:+ default target (nodes !! target) +:+ CRLF
     +:+ (Proxy.proxyServerResponses nodes tail).1,
     (Proxy.proxyServerResponses nodes tail).2)
  /\ (nodes !! target = None ->
      (Proxy.proxyServerResponses nodes
         ("-" +:+ keyword +:+ " " +:+ slot +:+ " " +:+ target +:+ CRLF
          +:+ tail)).1
      = "-" +:+ keyword +:+ " " +:+ slot +:+ " " +:+ target +:+ CRLF
        +:+ (Proxy.proxyServerResponses nodes tail).1).
Proof.
  intros K Gs Ns Gt Nt.
  pose proof (redirect_on_the_wire nodes keyword slot target tail
                K Gs Ns Gt Nt) as H.
  split; [exact H|].
  intros Hmiss. rewrite H, Hmiss. reflexivity.
Qed.

Lemma relay_redirect_witness :
  Proxy.proxyServerResponses
    {[ "10.0.0.2:6379" := "127.0.0.1:6380" ]}
    ("-ASK 3999 10.0.0.2:6379" +:+ CRLF +:+ "+OK" +:+ CRLF)
  = ("-ASK 3999 127.0.0.1:6380" +:+ CRLF +:+ "+OK" +:+ CRLF, Some EOF).
Proof.
  exact (proj1 (relay_redirect {[ "10.0.0.2:6379" := "127.0.0.1:6380" ]}
                  "ASK" "3999" "10.0.0.2:6379" ("+OK" +:+ CRLF)
                  (or_intror eq_refl) eq_refl ltac:(discriminate)
                  eq_refl ltac:(discriminate))).
Defined.

(** ** The peers that discovery keeps *)

Lemma Filter_loop_sound (seen : gset string) (nodes : list ClusterNode)
    (cur : string) :
  FilterUniqueNodes_loop seen nodes cur `sublist_of` nodes
  /\ NoDup (Address <$> FilterUniqueNodes_loop seen nodes cur)
  /\ Forall (fun n => peer_of cur n /\ Address n ∉ seen)
            (FilterUniqueNodes_loop seen nodes cur).
Proof.
  revert seen. induction nodes as [|node nodes IH]; intros seen; simpl.
  - split; [constructor|]. split; constructor.
  - case_bool_decide as E1.
    { destruct (IH seen) as (S & N & F). split; [constructor; exact S|tauto]. }
    destruct (strings.Contains (Flags node) "myself") eqn:E2.
    { destruct (IH seen) as (S & N & F). split; [constructor; exact S|tauto]. }
    case_bool_decide as E3.
    { destruct (IH seen) as (S & N & F). split; [constructor; exact S|tauto]. }
    destruct (IH ({[Address node]} ∪ seen)) as (S & N & F).
    split; [constructor; exact S|]. split.
    + simpl. constructor; [|exact N].
      intros Hin. apply list_elem_of_fmap in Hin.
      destruct Hin as (n & En & Hn).
      rewrite Forall_forall in F. destruct (F n Hn) as [_ Hs].
      apply Hs. apply elem_of_union. left. apply elem_of_singleton.
      symmetry. exact En.
    + constructor.
      * split; [split; assumption|assumption].
      * eapply Forall_impl; [exact F|]. intros n [P Hs]. split; [exact P|].
        intros Hin. apply Hs. apply elem_of_union. right. exact Hin.
Qed.

Lemma Filter_loop_complete (seen : gset string) (nodes : list ClusterNode)
    (cur : string) (n : ClusterNode) :
  n ∈ nodes -> peer_of cur n -> Address n ∉ seen ->
  Address n ∈ Address <$> FilterUniqueNodes_loop seen nodes cur.
Proof.
  revert seen. induction nodes as [|node nodes IH]; intros seen Hin P Hs.
  - apply elem_of_nil in Hin. contradiction.
  - simpl. apply elem_of_cons in Hin.
    case_bool_decide as E1.
    { destruct Hin as [->|Hin]; [destruct P; contradiction|]. auto. }
    destruct (strings.Contains (Flags node) "myself") eqn:E2.
    { destruct Hin as [->|Hin]; [destruct P; congruence|]. auto. }
    case_bool_decide as E3.
    { destruct Hin as [->|Hin]; [contradiction|]. auto. }
    simpl. destruct (decide (Address n = Address node)) as [->|Ne].
    { apply elem_of_cons. left. reflexivity. }
    destruct Hin as [->|Hin]; [contradiction|].
    apply elem_of_cons. right. apply IH; [assumption..|].
    intros H. apply elem_of_union in H. destruct H as [H|H]; [|contradiction].
    apply elem_of_singleton in H. contradiction.
Qed.

Lemma Filter_loop_id (seen : gset string) (nodes : list ClusterNode)
    (cur : string) :
  NoDup (Address <$> nodes) ->
  Forall (fun n => peer_of cur n /\ Address n ∉ seen) nodes ->
  FilterUniqueNodes_loop seen nodes cur = nodes.
Proof.
  revert seen. induction nodes as [|node nodes IH]; intros seen N F;
    [reflexivity|].
  simpl in N. inversion N as [|? ? Hnode Nrest]; subst.
  inversion F as [|? ? [[P1 P2] Hs] Frest]; subst.
  simpl. rewrite bool_decide_eq_false_2 by exact P1. rewrite P2.
  rewrite bool_decide_eq_false_2 by exact Hs.
  f_equal. apply IH; [exact Nrest|].
  rewrite Forall_forall in Frest. apply Forall_forall. intros n Hn.
  destruct (Frest n Hn) as [P Hs']. split; [exact P|].
  intros H. apply elem_of_union in H. destruct H as [H|H]; [|contradiction].
  apply elem_of_singleton in H. apply Hnode. rewrite <- H.
  apply list_elem_of_fmap. exists n. split; [reflexivity|exact Hn].
Qed.

(** X1: FilterUniqueNodes returns nodes of the list in their order, no two
    with the same address, none with the address of the current connection
    and none flagged myself; filtering its result again changes nothing. *)
Theorem FilterUniqueNodes_sound (nodes : list ClusterNode) (cur : string) :
  FilterUniqueNodes nodes cur `sublist_of` nodes
  /\ NoDup (Address <$> FilterUniqueNodes nodes cur)
  /\ Forall (peer_of cur) (FilterUniqueNodes nodes cur)
  /\ FilterUniqueNodes (FilterUniqueNodes nodes cur) cur
     = FilterUniqueNodes nodes cur.
Proof.
  destruct (Filter_loop_sound ∅ nodes cur) as (S & N & F).
  split; [exact S|]. split; [exact N|]. split.
  - eapply Forall_impl; [exact F|]. intros n [P _]. exact P.
  - apply Filter_loop_id; [exact N|exact F].
Qed.

(** X2: FilterUniqueNodes loses no peer: the address of every node of the
    list that is not the current one and is not flagged myself is the
    address of a node of the result; a list of peers with distinct
    addresses is returned as it is. *)
Theorem FilterUniqueNodes_complete (nodes : list ClusterNode) (cur : string) :
  (forall n,
      n ∈ nodes -> peer_of cur n ->
      Address n ∈ Address <$> FilterUniqueNodes nodes cur)
  /\ (NoDup (Address <$> nodes) -> Forall (peer_of cur) nodes ->
      FilterUniqueNodes nodes cur = nodes).
Proof.
  split.
  - intros n Hin P. apply Filter_loop_complete; [assumption..|].
    apply not_elem_of_empty.
  - intros N F. apply Filter_loop_id; [exact N|].
    eapply Forall_impl; [exact F|]. intros n P. split; [exact P|].
    apply not_elem_of_empty.
Qed.

Lemma FilterUniqueNodes_complete_witness :
  "10.0.0.2:6379" ∈ Address <$> FilterUniqueNodes listed_nodes "10.0.0.1:6379".
Proof.
  apply (proj1 (FilterUniqueNodes_complete listed_nodes "10.0.0.1:6379")
           (mkClusterNode "bbb" "10.0.0.2:6379" 6379 "master,fail?" "master")).
  - apply (list_elem_of_lookup_2 _ 3). reflexivity.
  - split; [discriminate|reflexivity].
Defined.

(** ** Hosts and ports *)

Lemma HasPrefix_cons_byte (x c : ascii) (s : string) :
  strings.HasPrefix (String x s) (String c EmptyString) = Ascii.eqb x c.
Proof.
  destruct (strings.HasPrefix (String x s) (String c EmptyString)) eqn:H.
  - apply HasPrefix_byte in H. destruct H as [t E]. inversion E.
    symmetry. apply Ascii.eqb_refl.
  - destruct (Ascii.eqb_spec x c) as [->|]; [|reflexivity].
    assert (strings.HasPrefix (String c s) (String c EmptyString) = true)
      by (apply HasPrefix_byte; eauto).
    congruence.
Qed.

Lemma LastIndex_from_absent (i : Z) (s : string) (c : ascii) :
  has_byte c s = false ->
  strings.LastIndex_from i s (String c EmptyString) = (-1)%Z.
Proof.
  revert i. induction s as [|x s IH]; intros i H.
  - reflexivity.
  - simpl in H. apply orb_false_elim in H. destruct H as [Hx Hs].
    cbn [strings.LastIndex_from]. rewrite (IH _ Hs).
    rewrite HasPrefix_cons_byte, Hx. reflexivity.
Qed.

Lemma LastIndex_from_last (i : Z) (host port : string) (c : ascii) :
  (0 <= i)%Z ->
  has_byte c port = false ->
  strings.LastIndex_from i (host +:+ String c port) (String c EmptyString)
  = (i + Z.of_nat (String.length host))%Z.
Proof.
  revert i. induction host as [|x host IH]; intros i Hi Hp.
  - change (EmptyString +:+ String c port) with (String c port).
    cbn [strings.LastIndex_from]. rewrite (LastIndex_from_absent _ _ _ Hp).
    rewrite HasPrefix_cons_byte, Ascii.eqb_refl. simpl. lia.
  - change (String x host +:+ String c port)
      with (String x (host +:+ String c port)).
    cbn [strings.LastIndex_from]. rewrite IH by (assumption || lia).
    destruct (Z.leb_spec 0 (i + 1 + Z.of_nat (String.length host))); [|lia].
    cbn [String.length]. lia.
Qed.

Lemma extractHost_port (host port : string) :
  has_byte ":" port = false -> extractHost (host +:+ ":" +:+ port) = host.
Proof.
  intros H. unfold extractHost, strings.LastIndex.
  change (host +:+ ":" +:+ port) with (host +:+ String ":" port).
  rewrite LastIndex_from_last by (assumption || lia).
  destruct (Z.eqb_spec (0 + Z.of_nat (String.length host)) (-1)); [lia|].
  simpl negb. cbv iota. rewrite Z.add_0_l, Nat2Z.id. apply slice_to_append.
Qed.

Lemma extractHost_bare (address : string) :
  has_byte ":" address = false -> extractHost address = address.
Proof.
  intros H. unfold extractHost, strings.LastIndex.
  rewrite LastIndex_from_absent by exact H. reflexivity.
Qed.

Lemma has_byte_last (c : ascii) (s : string) :
  has_byte c s = true ->
  exists a b, s = a +:+ String c b /\ has_byte c b = false.
Proof.
  induction s as [|x s IH]; simpl; [discriminate|].
  intros H. destruct (has_byte c s) eqn:Hs.
  - destruct (IH eq_refl) as (a & b & -> & Hb).
    exists (String x a), b. split; [reflexivity|exact Hb].
  - rewrite orb_false_r in H. apply Ascii.eqb_eq in H. subst x.
    exists EmptyString, s. split; [reflexivity|exact Hs].
Qed.

(** X3: extractHost cuts an address at its last colon: host:port gives
    host when the port holds no colon, an address without a colon is
    returned as it is, and every address is of one of the two forms. *)
Theorem extractHost_spec :
  (forall host port,
      has_byte ":" port = false -> extractHost (host +:+ ":" +:+ port) = host)
  /\ (forall address,
         has_byte ":" address = false -> extractHost address = address)
  /\ (forall address,
         has_byte ":" address = false
         \/ exists host port,
              address = host +:+ ":" +:+ port /\ has_byte ":" port = false).
Proof.
  split; [exact extractHost_port|]. split; [exact extractHost_bare|].
  intros address. destruct (has_byte ":" address) eqn:H; [right|left; reflexivity].
  destruct (has_byte_last _ _ H) as (a & b & -> & Hb). eauto.
Qed.

Lemma extractHost_spec_witness :
  extractHost ("[2001:db8::1]" +:+ ":" +:+ "6379") = "[2001:db8::1]".
Proof. apply extractHost_spec. reflexivity. Defined.

(** ** Lines that the node parser skips *)

Lemma length_omap_le {A B : Type} (f : A -> option B) (l : list A) :
  length (omap f l) <= length l.
Proof.
  induction l as [|a l IH]; [reflexivity|].
  change (omap f (a :: l))
    with (match f a with Some b => b :: omap f l | None => omap f l end).
  destruct (f a); simpl; lia.
Qed.

Lemma parseClusterLine_None (line : string) :
  parseClusterLine line = None <-> length (strings.Fields line) < 8.
Proof.
  unfold parseClusterLine. case_bool_decide as E.
  - rewrite <- (Fields_TrimSpace line), E.
    change (strings.Fields EmptyString) with (@nil string).
    simpl. split; [lia|reflexivity].
  - rewrite (Fields_TrimSpace line).
    destruct (length (strings.Fields line) <? 8) eqn:L.
    + apply Nat.ltb_lt in L. tauto.
    + apply Nat.ltb_ge in L.
      destruct (strings.Fields line) as [|f0 [|f1 [|f2 more]]];
        simpl in L; try lia.
      split; [discriminate|]. intros H. simpl in H. lia.
Qed.

(** X4: the node parser skips a line exactly when it has fewer than eight
    white-space-separated fields (a blank line has none), so it returns at
    most one node per line of the reply and none for an empty reply. *)
Theorem parseClusterLine_skips :
  (forall line,
      parseClusterLine line = None <-> length (strings.Fields line) < 8)
  /\ (forall output,
         length (parseClusterNodes output)
         <= length (strings.Split (strings.TrimSpace output) LF))
  /\ (forall output,
         Forall (fun line => length (strings.Fields line) < 8)
                (strings.Split (strings.TrimSpace output) LF) ->
         parseClusterNodes output = []).
Proof.
  split; [exact parseClusterLine_None|]. split.
  - intros output. apply length_omap_le.
  - intros output. unfold parseClusterNodes.
    induction 1 as [|line lines H _ IH]; simpl; [reflexivity|].
    apply parseClusterLine_None in H. rewrite H. exact IH.
Qed.

Lemma parseClusterLine_skips_witness :
  parseClusterNodes ("-ERR This instance has cluster support disabled" +:+ CRLF)
  = [].
Proof.
  apply parseClusterLine_skips. vm_compute.
  constructor; [lia|constructor].
Defined.

(** ** The address and the port of a node *)

Lemma has_byte_first (c : ascii) (s : string) :
  has_byte c s = true ->
  exists a b, s = a +:+ String c b /\ has_byte c a = false.
Proof.
  induction s as [|x s IH]; simpl; [discriminate|].
  destruct (Ascii.eqb x c) eqn:E; simpl; intros H.
  - apply Ascii.eqb_eq in E. subst x.
    exists EmptyString, s. split; reflexivity.
  - destruct (IH H) as (a & b & -> & Ha).
    exists (String x a), b. split; [reflexivity|].
    simpl. rewrite E, Ha. reflexivity.
Qed.

Lemma Index_from_absent (i : Z) (s : string) (c : ascii) :
  has_byte c s = false ->
  strings.Index_from i s (String c EmptyString) = (-1)%Z.
Proof.
  revert i. induction s as [|x s IH]; intros i H; [reflexivity|].
  simpl in H. apply orb_false_elim in H. destruct H as [Hx Hs].
  cbn [strings.Index_from]. rewrite HasPrefix_cons_byte, Hx.
  apply IH, Hs.
Qed.

Lemma Index_from_first (i : Z) (a b : string) (c : ascii) :
  has_byte c a = false ->
  strings.Index_from i (a +:+ String c b) (String c EmptyString)
  = (i + Z.of_nat (String.length a))%Z.
Proof.
  revert i. induction a as [|x a IH]; intros i H.
  - change (EmptyString +:+ String c b) with (String c b).
    cbn [strings.Index_from].
    rewrite HasPrefix_cons_byte, Ascii.eqb_refl. simpl. lia.
  - simpl in H. apply orb_false_elim in H. destruct H as [Hx Ha].
    change (String x a +:+ String c b) with (String x (a +:+ String c b)).
    cbn [strings.Index_from]. rewrite HasPrefix_cons_byte, Hx.
    rewrite (IH _ Ha). cbn [String.length]. lia.
Qed.

Lemma cut_at_absent (s : string) (c : ascii) :
  has_byte c s = false -> cut_at s (String c EmptyString) = s.
Proof.
  intros H. unfold cut_at, strings.Index.
  rewrite (Index_from_absent _ _ _ H). reflexivity.
Qed.

Lemma cut_at_found (a b : string) (c : ascii) :
  has_byte c a = false -> cut_at (a +:+ String c b) (String c EmptyString) = a.
Proof.
  intros H. unfold cut_at, strings.Index.
  rewrite (Index_from_first _ _ _ _ H).
  destruct (Z.eqb_spec (0 + Z.of_nat (String.length a)) (-1)); [lia|].
  simpl negb. cbv iota. rewrite Z.add_0_l, Nat2Z.id. apply slice_to_append.
Qed.

Lemma address_cut (address suffix : string) :
  has_byte "@" address = false ->
  has_byte "," address = false ->
  suffix = EmptyString
  \/ (exists t, suffix = String "@" t) \/ (exists t, suffix = String "," t) ->
  cut_at (cut_at (address +:+ suffix) "@") "," = address.
Proof.
  intros Hat Hcomma [->|[[t ->]|[t ->]]].
  - rewrite append_nil_r, (cut_at_absent address "@" Hat).
    apply cut_at_absent, Hcomma.
  - rewrite (cut_at_found _ _ _ Hat). apply cut_at_absent, Hcomma.
  - destruct (has_byte "@" t) eqn:Ht.
    + destruct (has_byte_first _ _ Ht) as (t1 & t2 & -> & Ht1).
      replace (address +:+ String "," (t1 +:+ String "@" t2))
        with ((address +:+ String "," t1) +:+ String "@" t2)
        by (rewrite append_assoc; reflexivity).
      rewrite cut_at_found.
      * apply cut_at_found, Hcomma.
      * rewrite has_byte_append, Hat. simpl. exact Ht1.
    + rewrite (cut_at_absent (address +:+ String "," t)).
      * apply cut_at_found, Hcomma.
      * rewrite has_byte_append, Hat. simpl. exact Ht.
Qed.

Lemma Split_absent (s : string) (c : ascii) :
  has_byte c s = false -> strings.Split s c = [s].
Proof.
  induction s as [|x s IH]; intros H; [reflexivity|].
  simpl in H. apply orb_false_elim in H. destruct H as [Hx Hs].
  simpl. rewrite Hx, (IH Hs). reflexivity.
Qed.

Lemma Split_first (a b : string) (c : ascii) :
  has_byte c a = false ->
  strings.Split (a +:+ String c b) c = a :: strings.Split b c.
Proof.
  induction a as [|x a IH]; intros H.
  - simpl. rewrite Ascii.eqb_refl. reflexivity.
  - simpl in H. apply orb_false_elim in H. destruct H as [Hx Ha].
    simpl. rewrite Hx, (IH Ha). reflexivity.
Qed.

Lemma Split_length_pos (s : string) (c : ascii) :
  1 <= length (strings.Split s c).
Proof.
  induction s as [|x s IH]; simpl; [lia|].
  destruct (Ascii.eqb x c); simpl; [lia|].
  destruct (strings.Split s c); simpl in *; lia.
Qed.

Lemma Split_length_app (a b : string) (c : ascii) :
  length (strings.Split (a +:+ String c b) c)
  = length (strings.Split a c) + length (strings.Split b c).
Proof.
  induction a as [|x a IH]; simpl.
  - rewrite Ascii.eqb_refl. reflexivity.
  - destruct (Ascii.eqb x c); simpl; [rewrite IH; reflexivity|].
    pose proof (Split_length_pos a c).
    destruct (strings.Split (a +:+ String c b) c) eqn:E1;
      destruct (strings.Split a c) eqn:E2; simpl in *; lia.
Qed.

Lemma scan_number_uint (d : Decimal.uint) :
  strings.scan_number (NilEmpty.string_of_uint d) = NilEmpty.string_of_uint d.
Proof.
  induction d as [|d IH|d IH|d IH|d IH|d IH|d IH|d IH|d IH|d IH|d IH];
    [reflexivity|..];
    cbn [NilEmpty.string_of_uint strings.scan_number];
    rewrite IH; reflexivity.
Qed.

Lemma Sscanf_d_Itoa (z : Z) : int64 z -> strings.Sscanf_d (strconv.Itoa z) = z.
Proof.
  intros Hz. pose proof (ParseInt_FormatInt z Hz) as P.
  unfold strconv.Itoa, strings.Sscanf_d.
  assert (T : match strconv.FormatInt z with
              | String c s' =>
                  if Ascii.eqb c "+" || Ascii.eqb c "-"
                  then match strings.scan_number s' with
                       | EmptyString => EmptyString
                       | String _ _ as digits => String c digits
                       end
                  else strings.scan_number (strconv.FormatInt z)
              | EmptyString => EmptyString
              end = strconv.FormatInt z).
  { unfold strconv.FormatInt. destruct z as [|p|p]; [reflexivity|..];
      unfold Z.to_int, NilEmpty.string_of_int;
      destruct (digits_head p) as (c & s & E & Hp & Hm).
    - rewrite scan_number_uint. rewrite E, Hp, Hm. reflexivity.
    - change (Ascii.eqb "-" "+" || Ascii.eqb "-" "-") with true. cbv iota.
      rewrite scan_number_uint, E. reflexivity. }
  rewrite T, P. reflexivity.
Qed.

Lemma has_byte_uint_other (c : ascii) (d : Decimal.uint) :
  strconv.digit_of c = None ->
  has_byte c (NilEmpty.string_of_uint d) = false.
Proof.
  intros H.
  induction d as [|d IH|d IH|d IH|d IH|d IH|d IH|d IH|d IH|d IH|d IH];
    [reflexivity|..];
    cbn [NilEmpty.string_of_uint has_byte]; rewrite IH, orb_false_r;
    match goal with
    | |- Ascii.eqb ?x c = false =>
        destruct (Ascii.eqb_spec x c) as [<-|]; [|reflexivity];
        vm_compute in H; discriminate
    end.
Qed.

Lemma has_byte_Itoa_other (c : ascii) (z : Z) :
  strconv.digit_of c = None -> c <> "-"%char ->
  has_byte c (strconv.Itoa z) = false.
Proof.
  intros H N. unfold strconv.Itoa, strconv.FormatInt.
  destruct z as [|p|p]; unfold Z.to_int, NilEmpty.string_of_int.
  - apply has_byte_uint_other, H.
  - apply has_byte_uint_other, H.
  - cbn [has_byte]. rewrite has_byte_uint_other by exact H.
    destruct (Ascii.eqb_spec "-" c) as [<-|]; [congruence|reflexivity].
Qed.

Lemma parseClusterLine_fields (line nodeID addressField flags : string)
    (more : list string) :
  strings.Fields line = nodeID :: addressField :: flags :: more ->
  5 <= length more ->
  parseClusterLine line
  = Some (mkClusterNode nodeID
            (cut_at (cut_at addressField "@") ",")
            (match strings.Split (cut_at (cut_at addressField "@") ",") ":" with
             | [_; p1] => strings.Sscanf_d p1
             | _ => 0%Z
             end)
            flags
            (if strings.Contains flags "master" then "master" else "slave")).
Proof.
  intros F L. unfold parseClusterLine.
  case_bool_decide as E.
  { rewrite <- (Fields_TrimSpace line), E in F. discriminate. }
  rewrite (Fields_TrimSpace line), F.
  destruct (length (nodeID :: addressField :: flags :: more) <? 8) eqn:L8.
  { apply Nat.ltb_lt in L8. simpl in L8. lia. }
  reflexivity.
Qed.

(** X5: for a line whose address field is host:port, alone or followed by
    the cluster bus port or a host name, the host holding none of the bytes
    colon, at sign and comma and the port being a decimal number of 64 bits,
    the node parser gives the address host:port and that port, and the
    remote address of the proxy that discovery adds for the node (the key
    of its entry in the node map) is the node's address again. *)
Theorem parseClusterLine_address (line nodeID host suffix flags : string)
    (port : Z) (more : list string) :
  strings.Fields line
  = nodeID :: (host +:+ ":" +:+ strconv.Itoa port +:+ suffix) :: flags :: more ->
  5 <= length more ->
  has_byte ":" host = false ->
  has_byte "@" host = false ->
  has_byte "," host = false ->
  int64 port ->
  suffix = EmptyString
  \/ (exists t, suffix = String "@" t) \/ (exists t, suffix = String "," t) ->
  exists node,
    parseClusterLine line = Some node
    /\ Address node = host +:+ ":" +:+ strconv.Itoa port
    /\ Port node = port
    /\ extractHost (Address node) = host
    /\ remoteAddrOf (peerEndpoint node) = Address node.
Proof.
  intros F L Hc Hat Hcomma Hp Hs.
  assert (Pc : has_byte ":" (strconv.Itoa port) = false)
    by (apply has_byte_Itoa_other; [reflexivity|discriminate]).
  assert (Pat : has_byte "@" (strconv.Itoa port) = false)
    by (apply has_byte_Itoa_other; [reflexivity|discriminate]).
  assert (Pcomma : has_byte "," (strconv.Itoa port) = false)
    by (apply has_byte_Itoa_other; [reflexivity|discriminate]).
  assert (A : cut_at (cut_at (host +:+ ":" +:+ strconv.Itoa port +:+ suffix)
                             "@") ","
              = host +:+ ":" +:+ strconv.Itoa port).
  { replace (host +:+ ":" +:+ strconv.Itoa port +:+ suffix)
      with ((host +:+ ":" +:+ strconv.Itoa port) +:+ suffix).
    - apply address_cut; [| |exact Hs].
      + rewrite has_byte_append, Hat. simpl. exact Pat.
      + rewrite has_byte_append, Hcomma. simpl. exact Pcomma.
    - rewrite append_assoc. simpl. reflexivity. }
  rewrite (parseClusterLine_fields _ _ _ _ _ F L), A.
  eexists. split; [reflexivity|]. cbn [Address Port].
  change (host +:+ ":" +:+ strconv.Itoa port)
    with (host +:+ String ":" (strconv.Itoa port)).
  rewrite (Split_first _ _ _ Hc), (Split_absent _ _ Pc).
  rewrite (Sscanf_d_Itoa _ Hp).
  split; [reflexivity|]. split; [reflexivity|].
  assert (X : extractHost (host +:+ String ":" (strconv.Itoa port)) = host)
    by (apply extractHost_port, Pc).
  split; [exact X|].
  unfold remoteAddrOf, peerEndpoint. cbn [discovery.Host discovery.Port Address Port].
  rewrite X. reflexivity.
Qed.

Lemma parseClusterLine_address_witness :
  exists node,
    parseClusterLine example_line = Some node
    /\ Address node = "127.0.0.1" +:+ ":" +:+ strconv.Itoa 30004
    /\ Port node = 30004%Z
    /\ extractHost (Address node) = "127.0.0.1"
    /\ remoteAddrOf (peerEndpoint node) = Address node.
Proof.
  apply (parseClusterLine_address example_line "07c3...91" "127.0.0.1"
           "@31004" "slave" 30004
           ["e7d1..."; "0"; "1426238317239"; "4"; "connected"]).
  - reflexivity.
  - simpl. lia.
  - reflexivity.
  - reflexivity.
  - reflexivity.
  - unfold int64, strconv.MinInt64, strconv.MaxInt64. lia.
  - right. left. eexists. reflexivity.
Defined.

Lemma parseClusterLine_Port (line : string) (node : ClusterNode) :
  parseClusterLine line = Some node ->
  Port node = match strings.Split (Address node) ":" with
              | [_; p1] => strings.Sscanf_d p1
              | _ => 0%Z
              end.
Proof.
  unfold parseClusterLine. case_bool_decide; [discriminate|].
  destruct (_ <? 8); [discriminate|].
  destruct (strings.Fields _) as [|f0 [|f1 [|f2 more]]]; try discriminate.
  intros [= <-]. reflexivity.
Qed.

(** X21: a node whose address holds no colon, or two or more (an IPv6
    address as the cluster prints it), gets the port 0, so the proxy that
    discovery adds for it has the remote address host:0, the host being the
    address up to its last colon. *)
Theorem parseClusterLine_port_zero (line : string) (node : ClusterNode) :
  parseClusterLine line = Some node ->
  has_byte ":" (Address node) = false
  \/ (exists a b c, Address node = a +:+ ":" +:+ b +:+ ":" +:+ c) ->
  Port node = 0%Z
  /\ remoteAddrOf (peerEndpoint node)
     = extractHost (Address node) +:+ ":" +:+ "0".
Proof.
  intros H C.
  assert (P : Port node = 0%Z).
  { rewrite (parseClusterLine_Port _ _ H).
    destruct C as [C|(a & b & c & ->)].
    - rewrite (Split_absent _ _ C). reflexivity.
    - change (a +:+ ":" +:+ b +:+ ":" +:+ c)
        with (a +:+ String ":" (b +:+ String ":" c)).
      pose proof (Split_length_app a (b +:+ String ":" c) ":") as L.
      rewrite (Split_length_app b c) in L.
      pose proof (Split_length_pos a ":").
      pose proof (Split_length_pos b ":").
      pose proof (Split_length_pos c ":").
      destruct (strings.Split (a +:+ String ":" (b +:+ String ":" c)) ":")
        as [|p0 [|p1 [|p2 ps]]]; simpl in L; try reflexivity; lia. }
  split; [exact P|].
  unfold remoteAddrOf, peerEndpoint. cbn [discovery.Host discovery.Port].
  rewrite P. reflexivity.
Qed.

Lemma parseClusterLine_port_zero_witness :
  Port (mkClusterNode "07c3" "::1:30004" 0 "master" "master") = 0%Z
  /\ remoteAddrOf
       (peerEndpoint (mkClusterNode "07c3" "::1:30004" 0 "master" "master"))
     = extractHost "::1:30004" +:+ ":" +:+ "0".
Proof.
  apply (parseClusterLine_port_zero
           "07c3 ::1:30004@31004 master - 0 1426238317239 4 connected").
  - reflexivity.
  - right. exists EmptyString, EmptyString, "1:30004". reflexivity.
Defined.

(** ** Listeners *)

Lemma AddProxy_config iam_ok endpoint localPort w m :
  Manager.config (Manager.AddProxy iam_ok endpoint localPort w m).1.2
  = Manager.config m.
Proof.
  unfold Manager.AddProxy.
  destruct (_ && negb iam_ok); [reflexivity|].
  destruct (Proxy.Start _ w) as [w1 [|]]; reflexivity.
Qed.

Lemma AddProxy_live iam_ok endpoint localPort w m w' m' :
  Manager.AddProxy iam_ok endpoint localPort w m = (w', m', None) ->
  exists p,
    Manager.proxies m' = Manager.proxies m ++ [p]
    /\ Proxy.shutdownOnce p = false
    /\ Proxy.localAddr p = localAddrOf m localPort
    /\ Proxy.remoteAddr p = remoteAddrOf endpoint
    /\ Proxy.isClusterMode p = Manager.isClusterMode m
    /\ Proxy.nodeMap p = Manager.nodeMap m
    /\ (Proxy.localAddr p ∉ bound w)
    /\ bound w' = {[Proxy.localAddr p]} ∪ bound w.
Proof.
  unfold Manager.AddProxy.
  destruct (_ && negb iam_ok); [discriminate|].
  unfold Proxy.Start. cbn [Proxy.localAddr].
  destruct (bool_decide_reflect
              (config.LocalAddr (Manager.config m) +:+ ":"
               +:+ strconv.Itoa localPort ∈ bound w)) as [Hin | Hout];
    [discriminate|].
  intros [= <- <-]. eexists. cbn. repeat split; done.
Qed.

(** A property of the manager's state that the setters, AddProxy and
    Shutdown keep holds in every reachable state. *)
Lemma AddProxy_keeps (P : World * Manager.t -> Prop) :
  (forall w m m',
      Manager.proxies m' = Manager.proxies m ->
      Manager.nodeMap m' = Manager.nodeMap m ->
      Manager.config m' = Manager.config m ->
      P (w, m) -> P (w, m')) ->
  (forall iam_ok endpoint localPort w m w' m',
      Manager.AddProxy iam_ok endpoint localPort w m = (w', m', None) ->
      P (w, m) -> P (w', m')) ->
  forall iam_ok endpoint localPort w m,
    P (w, m) -> P (Manager.AddProxy iam_ok endpoint localPort w m).1.
Proof.
  intros Hset Hadd iam_ok endpoint localPort w m H.
  pose proof (AddProxy_config iam_ok endpoint localPort w m) as Hc.
  destruct (Manager.AddProxy iam_ok endpoint localPort w m)
    as [[w' m'] r] eqn:E.
  destruct r as [e|]; [|eapply Hadd; eauto].
  apply AddProxy_cases in E as [[_ (-> & Hp & Hn & _)] | [? _]]; [|done].
  simpl in *. eapply Hset; eauto.
Qed.

Lemma addNodes_keeps (P : World * Manager.t -> Prop) :
  (forall w m m',
      Manager.proxies m' = Manager.proxies m ->
      Manager.nodeMap m' = Manager.nodeMap m ->
      Manager.config m' = Manager.config m ->
      P (w, m) -> P (w, m')) ->
  (forall iam_ok endpoint localPort w m w' m',
      Manager.AddProxy iam_ok endpoint localPort w m = (w', m', None) ->
      P (w, m) -> P (w', m')) ->
  forall iam_ok startPort i nodes w m added,
    P (w, m) -> P (Manager.addNodes iam_ok startPort i nodes w m added).1.
Proof.
  intros Hset Hadd iam_ok startPort i nodes. revert i.
  induction nodes as [|node nodes IH]; intros i w m added H; simpl;
    [exact H|].
  pose proof (AddProxy_keeps P Hset Hadd iam_ok
                (discovery.mkEndpoint (extractHost (Address node))
                   (Port node) ("cluster-" +:+ Role node))
                (wrap64 (startPort + i)) w m H) as H1.
  destruct (Manager.AddProxy _ _ _ w m) as [[w1 m1] r].
  destruct r; apply IH; exact H1.
Qed.

Lemma reachable_invariant (P : World * Manager.t -> Prop) :
  (forall cfg w, P (Manager.NewManager cfg w)) ->
  (forall w m m',
      Manager.proxies m' = Manager.proxies m ->
      Manager.nodeMap m' = Manager.nodeMap m ->
      Manager.config m' = Manager.config m ->
      P (w, m) -> P (w, m')) ->
  (forall iam_ok endpoint localPort w m w' m',
      Manager.AddProxy iam_ok endpoint localPort w m = (w', m', None) ->
      P (w, m) -> P (w', m')) ->
  (forall w m, P (w, m) -> P (Manager.Shutdown w m)) ->
  forall st, reachable st -> P st.
Proof.
  intros Hnew Hset Hadd Hshut st.
  induction 1 as [cfg w | c [w m] _ IH]; [apply Hnew|].
  destruct c; simpl.
  - unfold Manager.SetTLSConfig.
    destruct (negb _); [destruct (negb _) |]; simpl;
      try exact IH; (eapply Hset; [..|exact IH]; reflexivity).
  - eapply Hset; [..|exact IH]; reflexivity.
  - eapply Hset; [..|exact IH]; reflexivity.
  - apply AddProxy_keeps; assumption.
  - unfold Manager.DiscoverAndAddClusterNodes.
    destruct (negb (dial_ok (d_conn io))); [exact IH|].
    destruct (if negb _ then _ else _); [exact IH|].
    destruct (DiscoverClusterTopology _) as [nodes|]; [|exact IH].
    destruct nodes as [|n0 nodes]; [exact IH|].
    destruct (FilterUniqueNodes _ _) as [|n1 newNodes]; [exact IH|].
    match goal with
    | |- context [Manager.addNodes ?a ?b ?c ?d ?e ?f ?g] =>
        pose proof (addNodes_keeps P Hset Hadd a b c d e f g) as X;
        destruct (Manager.addNodes a b c d e f g) as [[w1 m1] added]
    end.
    apply X. eapply Hset; [..|exact IH]; reflexivity.
  - apply Hshut, IH.
Qed.

Lemma elem_of_liveProxies (ps : list Proxy.t) (p : Proxy.t) :
  p ∈ liveProxies ps <-> Proxy.shutdownOnce p = false /\ p ∈ ps.
Proof.
  exact (list_elem_of_filter (fun p => Proxy.shutdownOnce p = false) ps p).
Qed.

Lemma liveProxies_snoc (ps : list Proxy.t) (p : Proxy.t) :
  Proxy.shutdownOnce p = false -> liveProxies (ps ++ [p]) = liveProxies ps ++ [p].
Proof.
  intros H. unfold liveProxies. rewrite filter_app.
  rewrite filter_cons_True by exact H. reflexivity.
Qed.

Lemma liveProxies_closed (ps : list Proxy.t) : liveProxies (closed <$> ps) = [].
Proof.
  induction ps as [|p ps IH]; [reflexivity|].
  simpl. unfold liveProxies in *.
  rewrite filter_cons_False by (simpl; discriminate). exact IH.
Qed.

Lemma listening_AddProxy iam_ok endpoint localPort w m w' m' :
  Manager.AddProxy iam_ok endpoint localPort w m = (w', m', None) ->
  listening (w, m) -> listening (w', m').
Proof.
  intros E (N & B & L). unfold listening in *. simpl in *.
  apply AddProxy_live in E.
  destruct E as (p & -> & Hl & _ & _ & _ & _ & Hout & ->).
  rewrite (liveProxies_snoc _ _ Hl). rewrite fmap_app. simpl.
  split; [|split].
  - apply NoDup_app. split; [exact N|]. split; [|apply NoDup_singleton].
    intros a Ha Hp. apply list_elem_of_singleton in Hp. subst a.
    apply list_elem_of_fmap in Ha. destruct Ha as (q & Eq & Hq).
    apply Hout. rewrite Eq. apply B, Hq.
  - intros q Hq. apply elem_of_app in Hq. apply elem_of_union.
    destruct Hq as [Hq|Hq]; [right; apply B, Hq|left].
    apply list_elem_of_singleton in Hq. subst q. apply elem_of_singleton.
    reflexivity.
  - intros q Hq Hb. apply elem_of_app.
    apply elem_of_union in Hb. destruct Hb as [Hb|Hb].
    + right. apply elem_of_singleton in Hb. rewrite Hb.
      apply list_elem_of_singleton. reflexivity.
    + apply elem_of_app in Hq. destruct Hq as [Hq|Hq]; [left; auto|].
      apply list_elem_of_singleton in Hq. subst q. contradiction.
Qed.

Lemma Shutdown_loop_spec (ps : list Proxy.t) (w : World) :
  (Manager.Shutdown_loop ps w).2 = closed <$> ps
  /\ maps (Manager.Shutdown_loop ps w).1 = maps w
  /\ forall a,
       a ∈ bound (Manager.Shutdown_loop ps w).1 <->
       a ∈ bound w /\ a ∉ Proxy.localAddr <$> liveProxies ps.
Proof.
  revert w. induction ps as [|p ps IH]; intros w.
  - simpl. split; [reflexivity|]. split; [reflexivity|].
    intros a. split; [|tauto]. intros H. split; [exact H|].
    apply not_elem_of_nil.
  - cbn [Manager.Shutdown_loop]. unfold Proxy.Shutdown.
    destruct (Proxy.shutdownOnce p) eqn:S.
    + destruct (IH w) as (E & M & B).
      destruct (Manager.Shutdown_loop ps w) as [w2 ps2]. simpl in *.
      split; [|split; [exact M|]].
      * rewrite E. f_equal. destruct p. simpl in *. subst. reflexivity.
      * intros a. unfold liveProxies.
        rewrite filter_cons_False by (rewrite S; discriminate). apply B.
    + destruct (IH (mkWorld (bound w ∖ {[Proxy.localAddr p]}) (maps w)))
        as (E & M & B).
      destruct (Manager.Shutdown_loop ps _) as [w2 ps2]. simpl in *.
      split; [|split; [exact M|]].
      * rewrite E. reflexivity.
      * intros a. unfold liveProxies in *.
        rewrite filter_cons_True by exact S. rewrite fmap_cons.
        rewrite B, elem_of_difference, elem_of_singleton, not_elem_of_cons.
        tauto.
Qed.

Lemma Shutdown_loop_closed (ps : list Proxy.t) (w : World) :
  Forall (fun p => Proxy.shutdownOnce p = true) ps ->
  Manager.Shutdown_loop ps w = (w, ps).
Proof.
  induction 1 as [|p ps Hp _ IH]; [reflexivity|].
  cbn [Manager.Shutdown_loop]. unfold Proxy.Shutdown. rewrite Hp, IH.
  reflexivity.
Qed.

Lemma Shutdown_unfold (w : World) (m : Manager.t) :
  Manager.Shutdown w m
  = ((Manager.Shutdown_loop (Manager.proxies m) w).1,
     Manager.mk (Manager.config m) (closed <$> Manager.proxies m)
                (Manager.tokenSource m) (Manager.authPassword m)
                (Manager.authorizationMode m) (Manager.tlsConfig m)
                (Manager.nodeMap m) (Manager.isClusterMode m)).
Proof.
  unfold Manager.Shutdown.
  destruct (Shutdown_loop_spec (Manager.proxies m) w) as (E & _).
  destruct (Manager.Shutdown_loop (Manager.proxies m) w) as [w' ps].
  simpl in *. rewrite E. reflexivity.
Qed.

Lemma listening_all (st : World * Manager.t) (a : string) :
  listening st ->
  a ∈ bound st.1 ->
  (a ∈ Proxy.localAddr <$> liveProxies (Manager.proxies st.2)
   <-> a ∈ Proxy.localAddr <$> Manager.proxies st.2).
Proof.
  intros (_ & _ & L) Hb. split; intros H.
  - apply list_elem_of_fmap in H. destruct H as (p & -> & Hp).
    apply elem_of_liveProxies in Hp. apply list_elem_of_fmap.
    exists p. tauto.
  - apply list_elem_of_fmap in H. destruct H as (p & -> & Hp).
    apply L; assumption.
Qed.

Lemma listening_Shutdown (w : World) (m : Manager.t) :
  listening (w, m) -> listening (Manager.Shutdown w m).
Proof.
  intros H. rewrite Shutdown_unfold.
  destruct (Shutdown_loop_spec (Manager.proxies m) w) as (_ & _ & B).
  unfold listening. cbn [fst snd Manager.proxies].
  rewrite liveProxies_closed. split; [constructor|]. split.
  - intros p Hp. apply elem_of_nil in Hp. contradiction.
  - intros p Hp Hb. exfalso. apply B in Hb. destruct Hb as [Hb Hn].
    apply Hn. apply (listening_all (w, m) _ H Hb).
    apply list_elem_of_fmap in Hp. destruct Hp as (q & -> & Hq).
    apply list_elem_of_fmap. exists q. split; [reflexivity|exact Hq].
Qed.

Lemma reachable_listening (st : World * Manager.t) :
  reachable st -> listening st.
Proof.
  apply reachable_invariant.
  - intros cfg w. unfold listening. simpl. split; [constructor|].
    split; intros p Hp; apply elem_of_nil in Hp; contradiction.
  - intros w m m' Hp _ _. unfold listening. simpl. rewrite Hp. tauto.
  - apply listening_AddProxy.
  - apply listening_Shutdown.
Qed.



(** X15: Manager.Shutdown, in a reachable state, leaves every proxy shut
    down and none of their local addresses bound; the other bound addresses
    stay bound, the list keeps its length, the node map is not cleared, and
    a second Shutdown changes nothing. *)
Theorem Shutdown_closes (st : World * Manager.t) :
  reachable st ->
  Forall (fun p =>
            Proxy.shutdownOnce p = true
            /\ Proxy.localAddr p ∉ bound (Manager.Shutdown st.1 st.2).1)
         (Manager.proxies (Manager.Shutdown st.1 st.2).2)
  /\ (forall a,
         a ∈ bound (Manager.Shutdown st.1 st.2).1 <->
         a ∈ bound st.1 /\ a ∉ Proxy.localAddr <$> Manager.proxies st.2)
  /\ length (Manager.proxies (Manager.Shutdown st.1 st.2).2)
     = length (Manager.proxies st.2)
  /\ nodeMapOf (Manager.Shutdown st.1 st.2) = nodeMapOf st
  /\ Manager.Shutdown (Manager.Shutdown st.1 st.2).1
                      (Manager.Shutdown st.1 st.2).2
     = Manager.Shutdown st.1 st.2.
Proof.
  intros R. destruct st as [w m]. cbn [fst snd].
  pose proof (reachable_listening _ R) as H.
  pose proof (listening_Shutdown w m H) as H'.
  rewrite Shutdown_unfold in *.
  destruct (Shutdown_loop_spec (Manager.proxies m) w) as (_ & M & B).
  cbn [fst snd Manager.proxies] in *.
  assert (Ball : forall a,
             a ∈ bound (Manager.Shutdown_loop (Manager.proxies m) w).1 <->
             a ∈ bound w /\ a ∉ Proxy.localAddr <$> Manager.proxies m).
  { intros a. rewrite B. split; intros [Hb Hn]; (split; [exact Hb|]);
      intros Hin; apply Hn; apply (listening_all (w, m) a H Hb); exact Hin. }
  split; [|split; [exact Ball|split; [|split]]].
  - apply Forall_forall. intros p' Hp'.
    apply list_elem_of_fmap in Hp'. destruct Hp' as (p & -> & Hp).
    split; [reflexivity|]. intros Hb. apply Ball in Hb.
    destruct Hb as [_ Hn]. apply Hn. apply list_elem_of_fmap.
    exists p. split; [reflexivity|exact Hp].
  - apply length_fmap.
  - unfold nodeMapOf. cbn [fst snd Manager.nodeMap]. rewrite M. reflexivity.
  - rewrite Shutdown_unfold. cbn [Manager.proxies Manager.config
      Manager.tokenSource Manager.authPassword Manager.authorizationMode
      Manager.tlsConfig Manager.nodeMap Manager.isClusterMode].
    rewrite Shutdown_loop_closed.
    + cbn [fst]. f_equal. f_equal.
      rewrite <- list_fmap_compose. apply list_fmap_ext.
      intros _ p _. reflexivity.
    + apply Forall_forall. intros p' Hp'.
      apply list_elem_of_fmap in Hp'. destruct Hp' as (p & -> & _).
      reflexivity.
Qed.

Lemma Shutdown_closes_witness :
  Forall (fun p =>
            Proxy.shutdownOnce p = true
            /\ Proxy.localAddr p
               ∉ bound (Manager.Shutdown cluster_state.1 cluster_state.2).1)
         (Manager.proxies (Manager.Shutdown cluster_state.1 cluster_state.2).2)
  /\ (forall a,
         a ∈ bound (Manager.Shutdown cluster_state.1 cluster_state.2).1 <->
         a ∈ bound cluster_state.1
         /\ a ∉ Proxy.localAddr <$> Manager.proxies cluster_state.2)
  /\ length (Manager.proxies
               (Manager.Shutdown cluster_state.1 cluster_state.2).2)
     = length (Manager.proxies cluster_state.2)
  /\ nodeMapOf (Manager.Shutdown cluster_state.1 cluster_state.2)
     = nodeMapOf cluster_state
  /\ Manager.Shutdown (Manager.Shutdown cluster_state.1 cluster_state.2).1
                      (Manager.Shutdown cluster_state.1 cluster_state.2).2
     = Manager.Shutdown cluster_state.1 cluster_state.2.
Proof.
  apply Shutdown_closes.
  unfold cluster_state, primary_state.
  apply reachable_call, reachable_call, reachable_new.
Defined.

(** ** What discovery adds *)

Lemma plan_config (m m' : Manager.t) (startPort i : Z)
    (nodes : list ClusterNode) :
  Manager.config m' = Manager.config m ->
  plan m' startPort i nodes = plan m startPort i nodes.
Proof.
  intros E. revert i. induction nodes as [|node nodes IH]; intros i;
    [reflexivity|].
  simpl. unfold localAddrOf. rewrite E, IH. reflexivity.
Qed.

Lemma addNodes_spec iam_ok startPort i nodes w m added w' m' added' :
  Manager.addNodes iam_ok startPort i nodes w m added = (w', m', added') ->
  exists new,
    Manager.proxies m' = Manager.proxies m ++ new
    /\ added' = (added + Z.of_nat (length new))%Z
    /\ addresses <$> new `sublist_of` plan m startPort i nodes
    /\ Forall (fun p => Proxy.isClusterMode p = Manager.isClusterMode m
                        /\ added_by_discovery m w' p) new
    /\ bound w ⊆ bound w'
    /\ Manager.config m' = Manager.config m
    /\ Manager.nodeMap m' = Manager.nodeMap m
    /\ Manager.isClusterMode m' = Manager.isClusterMode m.
Proof.
  revert i w m added.
  induction nodes as [|node nodes IH]; intros i w m added; simpl.
  - intros [= <- <- <-]. exists []. rewrite app_nil_r. simpl.
    repeat split; try done. lia.
  - pose proof (AddProxy_config iam_ok (peerEndpoint node)
                  (wrap64 (startPort + i)) w m) as Hc.
    fold (peerEndpoint node).
    destruct (Manager.AddProxy _ _ _ w m) as [[w1 m1] r] eqn:E.
    simpl in Hc.
    destruct r as [e|]; intros H;
      apply IH in H;
      destruct H as (new & Hp & Ha & Hs & Hf & Hb & Hc' & Hn & Hm).
    + apply AddProxy_cases in E as [[_ (-> & Hp1 & Hn1 & Hm1)] | [? _]];
        [|done].
      exists new. rewrite (plan_config _ _ _ _ _ Hc) in Hs.
      split; [congruence|]. split; [exact Ha|].
      split; [apply sublist_cons, Hs|]. split.
      * eapply Forall_impl; [exact Hf|].
        unfold added_by_discovery. intros p. rewrite Hn1, Hm1. tauto.
      * split; [exact Hb|]. repeat split; congruence.
    + pose proof E as E'. apply AddProxy_live in E'.
      destruct E' as (p & Hp1 & Hl & Hla & Hra & Hcm & Hnm & Hout & Hb1).
      apply AddProxy_cases in E as [[? _] | [_ Hst]]; [done|].
      destruct Hst as (_ & _ & _ & _ & _ & _ & _ & _ & _ & Hn1 & Hm1).
      exists (p :: new). rewrite (plan_config _ _ _ _ _ Hc) in Hs.
      split; [rewrite Hp, Hp1, <- app_assoc; reflexivity|].
      split; [simpl length; lia|].
      split.
      { simpl. unfold addresses at 1. rewrite Hla, Hra.
        apply sublist_skip, Hs. }
      split.
      { constructor.
        - split; [exact Hcm|]. split; [exact Hl|]. split; [exact Hnm|].
          apply Hb. rewrite Hb1. apply elem_of_union. left.
          apply elem_of_singleton. reflexivity.
        - eapply Forall_impl; [exact Hf|].
          unfold added_by_discovery. intros q. rewrite Hn1, Hm1. tauto. }
      split.
      { intros a Ha'. apply Hb. rewrite Hb1. apply elem_of_union. right.
        exact Ha'. }
      repeat split; congruence.
Qed.

(** The run of the loop inside a discovery that reached it. *)
Lemma Discover_inv iam_ok io primaryEndpoint startPort w m w' m' n r :
  Manager.DiscoverAndAddClusterNodes iam_ok io primaryEndpoint startPort w m
  = (w', m', (n, r)) ->
  (r <> None /\ w' = w /\ m' = m /\ n = 0%Z)
  \/ (r = None
      /\ exists nodes,
           DiscoverClusterTopology (d_topology io) = Some nodes
           /\ ((FilterUniqueNodes nodes
                  (JoinHostPort (discovery.Host primaryEndpoint)
                     (strconv.Itoa (discovery.Port primaryEndpoint))) = []
                /\ w' = w /\ m' = m /\ n = 0%Z)
               \/ exists m1,
                    Manager.config m1 = Manager.config m
                    /\ Manager.proxies m1 = Manager.proxies m
                    /\ Manager.nodeMap m1 = Manager.nodeMap m
                    /\ Manager.tokenSource m1 = Manager.tokenSource m
                    /\ Manager.authPassword m1 = Manager.authPassword m
                    /\ Manager.authorizationMode m1
                       = Manager.authorizationMode m
                    /\ Manager.isClusterMode m1 = true
                    /\ Manager.addNodes iam_ok startPort 0
                         (FilterUniqueNodes nodes
                            (JoinHostPort (discovery.Host primaryEndpoint)
                               (strconv.Itoa (discovery.Port primaryEndpoint))))
                         w m1 0
                       = (w', m', n))).
Proof.
  unfold Manager.DiscoverAndAddClusterNodes.
  destruct (negb (dial_ok (d_conn io)));
    [intros [= <- <- <- <-]; left; done|].
  destruct (if negb _ then _ else _);
    [intros [= <- <- <- <-]; left; done|].
  destruct (DiscoverClusterTopology _) as [nodes|];
    [|intros [= <- <- <- <-]; left; done].
  destruct nodes as [|n0 nodes]; [intros [= <- <- <- <-]; left; done|].
  destruct (FilterUniqueNodes _ _) as [|n1 newNodes] eqn:F.
  - intros [= <- <- <- <-]. right. split; [done|].
    exists (n0 :: nodes). split; [done|]. left. done.
  - destruct (Manager.addNodes _ _ _ _ _ _ _) as [[w1 m1] added] eqn:E.
    intros [= <- <- <- <-]. right. split; [done|].
    exists (n0 :: nodes). split; [done|]. right. rewrite F.
    exists (Manager.mk (Manager.config m) (Manager.proxies m)
              (Manager.tokenSource m) (Manager.authPassword m)
              (Manager.authorizationMode m) (Manager.tlsConfig m)
              (Manager.nodeMap m) true).
    repeat split. exact E.
Qed.

(** X16: a discovery that returns an error has changed nothing and counts
    zero; one that returns nil has appended proxies to the list, the
    earlier ones staying in place, and its count is their number; each
    new proxy has cluster mode on, has not been shut down, shares the
    manager's node map and has its local address bound, and the addresses
    bound before are still bound. *)
Theorem Discover_accounting iam_ok io primaryEndpoint startPort w m w' m' n r :
  Manager.DiscoverAndAddClusterNodes iam_ok io primaryEndpoint startPort w m
  = (w', m', (n, r)) ->
  (r <> None -> w' = w /\ m' = m /\ n = 0%Z)
  /\ (r = None ->
      exists new,
        Manager.proxies m' = Manager.proxies m ++ new
        /\ n = Z.of_nat (length new)
        /\ Forall (fun p => Proxy.isClusterMode p = true
                            /\ added_by_discovery m w' p) new
        /\ bound w ⊆ bound w'
        /\ (new <> [] -> Manager.isClusterMode m' = true)).
Proof.
  intros H. apply Discover_inv in H.
  destruct H as [(Hr & -> & -> & ->) | (-> & nodes & _ & H)].
  - split; [done|]. intros ?. done.
  - split; [done|]. intros _.
    destruct H as [(_ & -> & -> & ->) | (m1 & Hc & Hp & Hn & _ & _ & _ & Hm & E)].
    + exists []. rewrite app_nil_r. repeat split; done.
    + apply addNodes_spec in E.
      destruct E as (new & Hp' & Ha & _ & Hf & Hb & _ & _ & Hm').
      exists new. split; [congruence|]. split; [lia|]. split.
      * eapply Forall_impl; [exact Hf|]. unfold added_by_discovery.
        intros p. rewrite Hm, Hn. tauto.
      * split; [exact Hb|]. intros _. congruence.
Qed.

Lemma Discover_accounting_witness :
  exists new,
    Manager.proxies cluster_state.2 = Manager.proxies primary_state.2 ++ new
    /\ 1%Z = Z.of_nat (length new)
    /\ Forall (fun p => Proxy.isClusterMode p = true
                        /\ added_by_discovery primary_state.2
                                              cluster_state.1 p) new
    /\ bound primary_state.1 ⊆ bound cluster_state.1
    /\ (new <> [] -> Manager.isClusterMode cluster_state.2 = true).
Proof.
  refine (proj2 (Discover_accounting
                   true (mkDiscoveryIO (plain_conn EmptyString) (Some two_nodes))
                   primary_endpoint 6380 primary_state.1 primary_state.2
                   cluster_state.1 cluster_state.2 1 None _) eq_refl).
  vm_compute. reflexivity.
Defined.

(** X17: the proxies a discovery adds are, in order, proxies for peers of
    the filtered topology, each on the local port start port plus the
    index of its peer and with the remote address made from the peer's
    host and port: a peer whose AddProxy fails leaves its port unused. *)
Theorem Discover_ports iam_ok io primaryEndpoint startPort w m w' m' n :
  Manager.DiscoverAndAddClusterNodes iam_ok io primaryEndpoint startPort w m
  = (w', m', (n, None)) ->
  exists nodes new,
    DiscoverClusterTopology (d_topology io) = Some nodes
    /\ Manager.proxies m' = Manager.proxies m ++ new
    /\ addresses <$> new
       `sublist_of`
       plan m startPort 0
         (FilterUniqueNodes nodes
            (JoinHostPort (discovery.Host primaryEndpoint)
               (strconv.Itoa (discovery.Port primaryEndpoint)))).
Proof.
  intros H. apply Discover_inv in H.
  destruct H as [(Hr & _) | (_ & nodes & T & H)]; [done|].
  exists nodes.
  destruct H as [(-> & -> & -> & ->) | (m1 & Hc & Hp & _ & _ & _ & _ & _ & E)].
  - exists []. rewrite app_nil_r. repeat split; [exact T|constructor].
  - apply addNodes_spec in E.
    destruct E as (new & Hp' & _ & Hs & _).
    exists new. split; [exact T|]. split; [congruence|].
    rewrite (plan_config _ _ _ _ _ Hc) in Hs. exact Hs.
Qed.

Lemma Discover_ports_witness :
  exists nodes new,
    DiscoverClusterTopology (Some two_nodes) = Some nodes
    /\ Manager.proxies cluster_state.2 = Manager.proxies primary_state.2 ++ new
    /\ addresses <$> new
       `sublist_of`
       plan primary_state.2 6380 0
         (FilterUniqueNodes nodes
            (JoinHostPort (discovery.Host primary_endpoint)
               (strconv.Itoa (discovery.Port primary_endpoint)))).
Proof.
  refine (Discover_ports
            true (mkDiscoveryIO (plain_conn EmptyString) (Some two_nodes))
            primary_endpoint 6380 primary_state.1 primary_state.2
            cluster_state.1 cluster_state.2 1 _).
  vm_compute. reflexivity.
Defined.

(** ** Free ports *)








(** ** One node map for all the proxies *)

Lemma handleClusterConnection_recorded (st : World * Manager.t) (p : Proxy.t)
    (server : string) :
  reachable st ->
  p ∈ Manager.proxies st.2 ->
  Proxy.handleClusterConnection p st.1 server
  = (Proxy.proxyServerResponses (recorded (Manager.proxies st.2)) server).1.
Proof.
  intros R Hp. destruct (reachable_consistent st R) as [Hm Hf].
  rewrite Forall_forall in Hf.
  unfold Proxy.handleClusterConnection. rewrite (Hf p Hp), Hm. reflexivity.
Qed.

(** X19: every proxy of a reachable manager relays, in cluster mode, with
    the one node map that all the proxies have written, the proxies added
    after it included: when the remote addresses are distinct, a MOVED line
    that names the remote address of any proxy of the list reaches the
    client with that proxy's local address, and the relay goes on; a
    connection that needs no credentials is relayed that way from its first
    byte. *)
Theorem cluster_proxies_share_map (st : World * Manager.t) (p : Proxy.t) :
  reachable st ->
  p ∈ Manager.proxies st.2 ->
  (forall server,
      Proxy.handleClusterConnection p st.1 server
      = (Proxy.proxyServerResponses (recorded (Manager.proxies st.2)) server).1)
  /\ (forall q slot tail,
         q ∈ Manager.proxies st.2 ->
         NoDup (Proxy.remoteAddr <$> Manager.proxies st.2) ->
         graphic slot = true -> slot <> EmptyString ->
         graphic (Proxy.remoteAddr q) = true ->
         Proxy.remoteAddr q <> EmptyString ->
         Proxy.handleClusterConnection p st.1
           ("-" +:+ "MOVED" +:+ " " +:+ slot +:+ " " +:+ Proxy.remoteAddr q
            +:+ CRLF +:+ tail)
         = "-" +:+ "MOVED" +:+ " " +:+ slot +:+ " " +:+ Proxy.localAddr q
           +:+ CRLF +:+ Proxy.handleClusterConnection p st.1 tail)
  /\ (forall conn,
         Proxy.isClusterMode p = true ->
         Proxy.authPassword p = EmptyString ->
         Proxy.tokenSource p = false ->
         dial_ok conn = true ->
         Proxy.handleConnection p st.1 conn
         = Relayed (Proxy.handleClusterConnection p st.1 (stream conn))).
Proof.
  intros R Hp. split; [|split].
  - intros server. apply handleClusterConnection_recorded; assumption.
  - intros q slot tail Hq N Gs Ns Gq Nq.
    rewrite !(handleClusterConnection_recorded st p) by assumption.
    rewrite redirect_on_the_wire by (assumption || (left; reflexivity)).
    rewrite (recorded_distinct _ _ N Hq). reflexivity.
  - intros conn Hc Ha Ht Hd. unfold Proxy.handleConnection.
    rewrite Hd, Ha, Ht, Hc. reflexivity.
Qed.

Lemma cluster_proxies_share_map_witness :
  exists second third,
    Manager.proxies grown_state.2 !! 1 = Some second
    /\ Manager.proxies grown_state.2 !! 2 = Some third
    /\ Proxy.handleClusterConnection second grown_state.1
         ("-MOVED 3999 10.0.0.3:6379" +:+ CRLF)
       = "-MOVED 3999 127.0.0.1:6381" +:+ CRLF.
Proof.
  assert (R : reachable grown_state).
  { unfold grown_state, cluster_state, primary_state.
    apply reachable_call, reachable_call, reachable_call, reachable_new. }
  exists (default password_proxy (Manager.proxies grown_state.2 !! 1)).
  exists (default password_proxy (Manager.proxies grown_state.2 !! 2)).
  split; [reflexivity|]. split; [reflexivity|].
  refine (proj1 (proj2 (cluster_proxies_share_map grown_state _ R _))
            (default password_proxy (Manager.proxies grown_state.2 !! 2))
            "3999" EmptyString _ _ eq_refl _ eq_refl _).
  - apply (list_elem_of_lookup_2 _ 1). reflexivity.
  - apply (list_elem_of_lookup_2 _ 2). reflexivity.
  - refine (bool_decide_unpack _ _). vm_compute. exact I.
  - discriminate.
  - discriminate.
Defined.

(** ** Discovery keeps away from the node it asked *)





(** ** Whole values only *)



(** ** The outcomes of a connection *)

Lemma handleConnection_dial (p : Proxy.t) (w : World) (conn : RemoteConn) :
  Proxy.handleConnection p w conn = DialFailed <-> dial_ok conn = false.
Proof.
  unfold Proxy.handleConnection.
  destruct (dial_ok conn); cbn [negb]; [|tauto].
  split; [|discriminate].
  destruct (negb (bool_decide _));
    [destruct (Proxy.authenticatePassword _ _)
    |destruct (Proxy.tokenSource p); [destruct (Proxy.authenticateIAM conn)|]];
    destruct (Proxy.isClusterMode p); discriminate.
Qed.

Lemma handleConnection_relayed (p : Proxy.t) (w : World) (conn : RemoteConn)
    (out : string) :
  Proxy.handleConnection p w conn = Relayed out ->
  dial_ok conn = true
  /\ (Proxy.authPassword p <> EmptyString ->
      Proxy.authenticatePassword conn (Proxy.authPassword p) = None)
  /\ (Proxy.authPassword p = EmptyString ->
      Proxy.tokenSource p = true ->
      Proxy.authenticateIAM conn = None).
Proof.
  unfold Proxy.handleConnection.
  destruct (dial_ok conn); cbn [negb]; [|discriminate].
  case_bool_decide as Hpw; cbn [negb].
  - destruct (Proxy.tokenSource p).
    + destruct (Proxy.authenticateIAM conn); [discriminate|].
      intros _. split; [reflexivity|]. split; [contradiction|reflexivity].
    + intros _. split; [reflexivity|]. split; [contradiction|discriminate].
  - destruct (Proxy.authenticatePassword conn _); [discriminate|].
    intros _. split; [reflexivity|]. split; [reflexivity|contradiction].
Qed.

Lemma handleConnection_failed (p : Proxy.t) (w : World) (conn : RemoteConn)
    (e : AuthError) :
  Proxy.handleConnection p w conn = AuthFailed e ->
  dial_ok conn = true
  /\ ((Proxy.authPassword p <> EmptyString
       /\ Proxy.authenticatePassword conn (Proxy.authPassword p) = Some e)
      \/ (Proxy.authPassword p = EmptyString
          /\ Proxy.tokenSource p = true
          /\ Proxy.authenticateIAM conn = Some e)).
Proof.
  unfold Proxy.handleConnection.
  destruct (dial_ok conn); cbn [negb]; [|discriminate].
  case_bool_decide as Hpw; cbn [negb].
  - destruct (Proxy.tokenSource p).
    + destruct (Proxy.authenticateIAM conn) as [e0|].
      * intros [= <-]. split; [reflexivity|]. right. tauto.
      * destruct (Proxy.isClusterMode p); discriminate.
    + destruct (Proxy.isClusterMode p); discriminate.
  - destruct (Proxy.authenticatePassword conn _) as [e0|].
    + intros [= <-]. split; [reflexivity|]. left. tauto.
    + destruct (Proxy.isClusterMode p); discriminate.
Qed.

Lemma handleConnection_password (p : Proxy.t) (w : World) (conn : RemoteConn)
    (tok : option string) :
  Proxy.authPassword p <> EmptyString ->
  Proxy.handleConnection p w
    (mkRemoteConn (dial_ok conn) tok (write_ok conn) (auth_read conn)
                  (stream conn))
  = Proxy.handleConnection p w conn.
Proof.
  intros H. unfold Proxy.handleConnection. cbn [dial_ok].
  rewrite (bool_decide_eq_false_2 _ H). cbn [negb].
  unfold Proxy.authenticatePassword, Proxy.after_auth.
  cbn [write_ok auth_read stream]. reflexivity.
Qed.

(** X23: handleConnection relays only after the authentication its proxy
    is configured for has succeeded: a relay means the dial succeeded and,
    with a password, that password authentication returned nil, and
    without a password but with a token source, that IAM authentication
    returned nil; an authentication failure is the error of that
    authentication; a failed dial is the only way to end before it; and
    with a password set the outcome does not depend on the token. *)
Theorem handleConnection_outcomes (p : Proxy.t) (w : World) (conn : RemoteConn) :
  (Proxy.handleConnection p w conn = DialFailed <-> dial_ok conn = false)
  /\ (forall out,
         Proxy.handleConnection p w conn = Relayed out ->
         dial_ok conn = true
         /\ (Proxy.authPassword p <> EmptyString ->
             Proxy.authenticatePassword conn (Proxy.authPassword p) = None)
         /\ (Proxy.authPassword p = EmptyString ->
             Proxy.tokenSource p = true ->
             Proxy.authenticateIAM conn = None))
  /\ (forall e,
         Proxy.handleConnection p w conn = AuthFailed e ->
         dial_ok conn = true
         /\ ((Proxy.authPassword p <> EmptyString
              /\ Proxy.authenticatePassword conn (Proxy.authPassword p)
                 = Some e)
             \/ (Proxy.authPassword p = EmptyString
                 /\ Proxy.tokenSource p = true
                 /\ Proxy.authenticateIAM conn = Some e)))
  /\ (Proxy.authPassword p <> EmptyString ->
      forall tok,
        Proxy.handleConnection p w
          (mkRemoteConn (dial_ok conn) tok (write_ok conn) (auth_read conn)
                        (stream conn))
        = Proxy.handleConnection p w conn).
Proof.
  split; [apply handleConnection_dial|].
  split; [intros out; apply handleConnection_relayed|].
  split; [intros e; apply handleConnection_failed|].
  intros H tok. apply handleConnection_password, H.
Qed.

Lemma handleConnection_outcomes_witness :
  Proxy.handleConnection password_proxy (mkWorld ∅ ∅)
    (mkRemoteConn (dial_ok chatty_conn) None (write_ok chatty_conn)
                  (auth_read chatty_conn) (stream chatty_conn))
  = Proxy.handleConnection password_proxy (mkWorld ∅ ∅) chatty_conn.
Proof.
  apply (handleConnection_outcomes password_proxy (mkWorld ∅ ∅) chatty_conn).
  discriminate.
Defined.

(** ** A proxy keeps the settings it was made with *)

Lemma same_or_closed_refl (ps : list Proxy.t) : Forall2 same_or_closed ps ps.
Proof. induction ps; constructor; [left; reflexivity|assumption]. Qed.

Lemma same_or_closed_trans (ps1 ps2 ps3 : list Proxy.t) :
  Forall2 same_or_closed ps1 ps2 -> Forall2 same_or_closed ps2 ps3 ->
  Forall2 same_or_closed ps1 ps3.
Proof.
  intros H. revert ps3.
  induction H as [|p1 p2 ps1 ps2 H12 _ IH]; intros ps3 H23.
  - inversion H23. constructor.
  - inversion H23 as [|? p3 ? ps3' H23' Hrest]; subst.
    constructor; [|apply IH, Hrest].
    destruct H12 as [->| ->]; [exact H23'|].
    destruct H23' as [->| ->]; right; reflexivity.
Qed.

Lemma call_keeps (c : Call) (st : World * Manager.t) :
  exists olds new,
    Manager.proxies (call c st).2 = olds ++ new
    /\ Forall2 same_or_closed (Manager.proxies st.2) olds.
Proof.
  destruct st as [w m].
  assert (Same : forall m' : Manager.t,
             Manager.proxies m' = Manager.proxies m ->
             exists olds new,
               Manager.proxies m' = olds ++ new
               /\ Forall2 same_or_closed (Manager.proxies m) olds).
  { intros m' E. exists (Manager.proxies m), [].
    rewrite app_nil_r. split; [exact E|apply same_or_closed_refl]. }
  assert (More : forall (m' : Manager.t) new,
             Manager.proxies m' = Manager.proxies m ++ new ->
             exists olds new,
               Manager.proxies m' = olds ++ new
               /\ Forall2 same_or_closed (Manager.proxies m) olds).
  { intros m' new E. exists (Manager.proxies m), new.
    split; [exact E|apply same_or_closed_refl]. }
  destruct c; cbn [call fst snd].
  - apply Same. unfold Manager.SetTLSConfig.
    destruct (negb _); [destruct (negb _)|]; reflexivity.
  - apply Same. reflexivity.
  - apply Same. reflexivity.
  - destruct (Manager.AddProxy iam_ok endpoint localPort w m)
      as [[w' m'] r] eqn:E. cbn [fst snd].
    apply AddProxy_cases in E as [[_ (_ & Hp & _)] | [_ Hs]].
    + apply Same, Hp.
    + destruct Hs as (p & Hp & _). eapply More, Hp.
  - destruct (Manager.DiscoverAndAddClusterNodes iam_ok io primaryEndpoint
                startPort w m) as [[w' m'] r] eqn:E. cbn [fst snd].
    apply Discover_extends in E as [_ [new Hp]]. eapply More, Hp.
  - rewrite Shutdown_unfold. cbn [snd Manager.proxies].
    exists (closed <$> Manager.proxies m), []. rewrite app_nil_r.
    split; [reflexivity|]. clear Same More.
    induction (Manager.proxies m) as [|p ps IH]; [constructor|].
    constructor; [right; reflexivity|exact IH].
Qed.

(** X24: whatever calls are made on the manager afterwards (setters,
    AddProxy, discovery, Shutdown), the proxies it has stay at the head of
    its list in their order, each one either as it was or shut down: no
    later call changes the addresses, the password, the token source, the
    TLS settings, the cluster-mode flag or the node-map reference that a
    proxy was made with. *)
Theorem proxies_keep_settings (cs : list Call) (st : World * Manager.t) :
  exists olds new,
    Manager.proxies (calls cs st).2 = olds ++ new
    /\ Forall2 same_or_closed (Manager.proxies st.2) olds
    /\ Forall2 (fun p p' =>
                  Proxy.localAddr p' = Proxy.localAddr p
                  /\ Proxy.remoteAddr p' = Proxy.remoteAddr p
                  /\ Proxy.authPassword p' = Proxy.authPassword p
                  /\ Proxy.tokenSource p' = Proxy.tokenSource p
                  /\ Proxy.tlsConfig p' = Proxy.tlsConfig p
                  /\ Proxy.isClusterMode p' = Proxy.isClusterMode p
                  /\ Proxy.nodeMap p' = Proxy.nodeMap p)
               (Manager.proxies st.2) olds.
Proof.
  assert (H : exists olds new,
             Manager.proxies (calls cs st).2 = olds ++ new
             /\ Forall2 same_or_closed (Manager.proxies st.2) olds).
  { revert st. induction cs as [|c cs IH]; intros st.
    - exists (Manager.proxies st.2), []. rewrite app_nil_r.
      split; [reflexivity|apply same_or_closed_refl].
    - cbn [calls foldl]. fold (calls cs (call c st)).
      destruct (call_keeps c st) as (o1 & n1 & E1 & F1).
      destruct (IH (call c st)) as (o2 & n2 & E2 & F2).
      rewrite E1 in F2. apply Forall2_app_inv_l in F2.
      destruct F2 as (o2a & o2b & Fa & Fb & ->).
      exists o2a, (o2b ++ n2). split.
      + rewrite E2, app_assoc. reflexivity.
      + eapply same_or_closed_trans; eassumption. }
  destruct H as (olds & new & E & F).
  exists olds, new. split; [exact E|]. split; [exact F|].
  eapply Forall2_impl; [exact F|].
  intros p p' [->| ->]; repeat split; reflexivity.
Qed.
